(** * A shallow embedding of the knowledge-graph module [memory-graph.ts]

    The development follows the TypeScript class [MemoryGraph]: the insertion
    ordered [Map]s and [Set]s of JavaScript, the graph store ([addNode],
    [addEdge], [removeNode]), the edge builder ([buildFromBackend],
    [addSimilarityEdges]), the PageRank power iteration, label propagation
    and the queries [rankWithGraph], [getTopNodes] and [getNeighbors].  The
    events of the [EventEmitter] are kept as a log in the state; the read-only
    [getStats] follows the specification vocabulary.

    JavaScript numbers are kept abstract behind the class [JsNumber], with two
    instances: IEEE binary64 ([float], what the program runs on) and exact
    rationals ([Qc], for what the specification states of exact arithmetic:
    the total of the ranks, and the maximum of the weights of an edge).
    What is proved for every instance holds of the program. *)

From Stdlib Require Import String Ascii.
From Stdlib Require Import List Bool Arith ZArith Lia Permutation Sorted.
From Stdlib Require Import QArith Qcanon.
From Stdlib Require Import PrimFloat Uint63.
Import ListNotations.

#[local] Close Scope Qc_scope.
#[local] Close Scope Q_scope.
#[local] Open Scope nat_scope.

Set Implicit Arguments.

(** ** JavaScript numbers *)

Class JsNumber (R : Type) : Type := {
  num_of_Z : Z -> R;
  num_add : R -> R -> R;
  num_sub : R -> R -> R;
  num_mul : R -> R -> R;
  num_div : R -> R -> R;
  (** [Math.abs] and [Math.max] *)
  num_abs : R -> R;
  num_max : R -> R -> R;
  (** [a < b] and [a >= b] *)
  num_lt : R -> R -> bool;
  num_ge : R -> R -> bool;
  (** [ToBoolean]: a number is falsy when it is a zero or [NaN] *)
  num_truthy : R -> bool
}.

Section NumberSyntax.
Context {R : Type} `{JsNumber R}.

  (** A decimal literal of the source, [n / d] with both exactly
      representable (so that the rounded quotient is the literal's value). *)
Definition num_lit (n : Z) (d : positive) : R :=
    num_div (num_of_Z n) (num_of_Z (Zpos d)).

Definition num_of_nat (n : nat) : R := num_of_Z (Z.of_nat n).

  (** [x || dflt] on a possibly [undefined] number *)
Definition num_or (x : option R) (dflt : R) : R :=
    match x with
    | Some v => if num_truthy v then v else dflt
    | None => dflt
    end.

  (** [a > b] *)
Definition num_gt (a b : R) : bool := num_lt b a.
End NumberSyntax.

(** Exact rational arithmetic. *)

Definition Qc_of_Z (z : Z) : Qc := Q2Qc (inject_Z z).

Definition Qc_ltb (a b : Qc) : bool :=
  match (a ?= b)%Qc with Lt => true | _ => false end.

Definition Qc_max (a b : Qc) : Qc := if Qc_ltb a b then b else a.

Definition Qc_abs (a : Qc) : Qc := if Qc_ltb a (Qc_of_Z 0) then Qcopp a else a.

Definition Qc_nonzero (a : Qc) : bool :=
  if Qc_eq_dec a (Qc_of_Z 0) then false else true.

#[export] Instance Qc_number : JsNumber Qc := {
  num_of_Z := Qc_of_Z;
  num_add := Qcplus;
  num_sub := Qcminus;
  num_mul := Qcmult;
  num_div := Qcdiv;
  num_abs := Qc_abs;
  num_max := Qc_max;
  num_lt := Qc_ltb;
  num_ge := fun a b => negb (Qc_ltb a b);
  num_truthy := Qc_nonzero
}.

(** IEEE 754 binary64, the numbers of the JavaScript engine. *)

Definition float_of_Z (z : Z) : float :=
  if (z <? 0)%Z then PrimFloat.opp (PrimFloat.of_uint63 (Uint63.of_Z (- z)))
  else PrimFloat.of_uint63 (Uint63.of_Z z).

Definition float_max (a b : float) : float :=
  if PrimFloat.is_nan a || PrimFloat.is_nan b then PrimFloat.nan
  else if PrimFloat.ltb a b then b
  else if PrimFloat.ltb b a then a
  else if PrimFloat.get_sign a then b else a.

#[export] Instance float_number : JsNumber float := {
  num_of_Z := float_of_Z;
  num_add := PrimFloat.add;
  num_sub := PrimFloat.sub;
  num_mul := PrimFloat.mul;
  num_div := PrimFloat.div;
  num_abs := PrimFloat.abs;
  num_max := float_max;
  num_lt := PrimFloat.ltb;
  num_ge := fun a b => PrimFloat.leb b a;
  num_truthy := fun a => negb (PrimFloat.is_zero a || PrimFloat.is_nan a)
}.

(** ** JavaScript [Map<string, V>]: an insertion-ordered association list *)

Module JsMap.
Section Ops.
Context {V : Type}.

Definition t := list (string * V).

Definition empty : t := [].

Fixpoint get (k : string) (m : t) : option V :=
    match m with
    | [] => None
    | (k', v) :: m' => if String.eqb k' k then Some v else get k m'
    end.

Definition has (k : string) (m : t) : bool :=
    match get k m with Some _ => true | None => false end.

  (** [set] keeps the position of a key already present and appends a new
      key at the end. *)
Fixpoint set (k : string) (v : V) (m : t) : t :=
    match m with
    | [] => [(k, v)]
    | (k', v') :: m' =>
        if String.eqb k' k then (k, v) :: m' else (k', v') :: set k v m'
    end.

Definition delete (k : string) (m : t) : t :=
    filter (fun kv => negb (String.eqb (fst kv) k)) m.

Definition keys (m : t) : list string := map fst m.
Definition values (m : t) : list V := map snd m.
Definition size (m : t) : nat := length m.

  (** In-place mutation of the value stored under [k] (an array or a set
      held by the map): nothing happens when the key is absent. *)
Definition adjust (f : V -> V) (k : string) (m : t) : t :=
    match get k m with
    | Some v => set k (f v) m
    | None => m
    end.
End Ops.
Arguments t : clear implicits.
End JsMap.

(** ** JavaScript [Set<string>]: an insertion-ordered duplicate-free list *)

Module JsSet.
Definition t := list string.

Definition empty : t := [].

Definition has (x : string) (s : t) : bool := existsb (String.eqb x) s.

Definition add (x : string) (s : t) : t := if has x s then s else s ++ [x].

Definition delete (x : string) (s : t) : t :=
    filter (fun y => negb (String.eqb y x)) s.

Definition size (s : t) : nat := length s.
End JsSet.

(** ** Data model *)

Inductive EdgeType : Type :=
  | reference | similar | temporal | co_accessed | causal.

Inductive CommunityAlgorithm : Type := louvain | label_propagation.

(** The events of the [EventEmitter] surface, with their payloads. *)
Inductive Event : Type :=
  | graph_built (nodeCount : nat)
  | pagerank_computed (iterations : nat)
  | communities_detected (communityCount : nat).

(** A promise of the backing store, once settled. *)
Inductive Outcome (A : Type) : Type :=
  | Fulfilled (a : A)
  | Rejected (reason : string).
Arguments Rejected {A} reason.

Definition string_truthy (s : string) : bool :=
  match s with EmptyString => false | _ => true end.

(** [x || dflt] on a possibly [undefined] string *)
Definition string_or (x : option string) (dflt : string) : string :=
  match x with
  | Some s => if string_truthy s then s else dflt
  | None => dflt
  end.

Section Model.
Variable R : Type.
Context `{JsNumber R}.

Definition zero : R := num_of_Z 0.
Definition one : R := num_of_Z 1.

(** Modelled from the spec: the metadata bag of a [MemoryEntry] ([types.ts]
    is not part of the sources); only the two fields [addNode] reads, each
    possibly missing. *)
Record Metadata : Type := {
  md_category : option string;
  md_confidence : option R
}.

(** Modelled from the spec: the interface [MemoryEntry] of [types.ts], with
    the fields the graph observes (section 3 of the specification). *)
Record MemoryEntry : Type := {
  entry_id : string;
  entry_metadata : option Metadata;
  entry_accessCount : R;
  entry_createdAt : R;
  entry_references : list string;
  entry_embedding : option (list R)
}.

(** Modelled from the spec: the interface [SearchResult] of [types.ts]. *)
Record SearchResult : Type := {
  result_entry : MemoryEntry;
  result_score : R
}.

(** Modelled from the spec: the interface [IMemoryBackend] of [types.ts],
    with the three operations the graph calls (section 6). *)
Record IMemoryBackend : Type := {
  backend_get : string -> Outcome (option MemoryEntry);
  backend_query : option string -> nat -> Outcome (list MemoryEntry);
  backend_search : list R -> nat -> R -> Outcome (list SearchResult)
}.

(** [MemoryGraphConfig]: every option may be left out. *)
Record MemoryGraphConfig : Type := {
  opt_similarityThreshold : option R;
  opt_pageRankDamping : option R;
  opt_pageRankIterations : option nat;
  opt_pageRankConvergence : option R;
  opt_maxNodes : option nat;
  opt_enableAutoEdges : option bool;
  opt_communityAlgorithm : option CommunityAlgorithm
}.

(** [Required<MemoryGraphConfig>] *)
Record Config : Type := {
  similarityThreshold : R;
  pageRankDamping : R;
  pageRankIterations : nat;
  pageRankConvergence : R;
  maxNodes : nat;
  enableAutoEdges : bool;
  communityAlgorithm : CommunityAlgorithm
}.

Definition DEFAULT_CONFIG : Config := {|
  similarityThreshold := num_lit 8 10;
  pageRankDamping := num_lit 85 100;
  pageRankIterations := 50;
  pageRankConvergence := num_lit 1 1000000;
  maxNodes := 5000;
  enableAutoEdges := true;
  communityAlgorithm := label_propagation
|}.

Definition spread {A : Type} (dflt : A) (x : option A) : A :=
  match x with Some a => a | None => dflt end.

(** [{ ...DEFAULT_CONFIG, ...config }] *)
Definition mergeConfig (config : option MemoryGraphConfig) : Config :=
  match config with
  | None => DEFAULT_CONFIG
  | Some c => {|
      similarityThreshold :=
        spread (similarityThreshold DEFAULT_CONFIG) (opt_similarityThreshold c);
      pageRankDamping :=
        spread (pageRankDamping DEFAULT_CONFIG) (opt_pageRankDamping c);
      pageRankIterations :=
        spread (pageRankIterations DEFAULT_CONFIG) (opt_pageRankIterations c);
      pageRankConvergence :=
        spread (pageRankConvergence DEFAULT_CONFIG) (opt_pageRankConvergence c);
      maxNodes := spread (maxNodes DEFAULT_CONFIG) (opt_maxNodes c);
      enableAutoEdges :=
        spread (enableAutoEdges DEFAULT_CONFIG) (opt_enableAutoEdges c);
      communityAlgorithm :=
        spread (communityAlgorithm DEFAULT_CONFIG) (opt_communityAlgorithm c)
    |}
  end.

Record GraphNode : Type := {
  node_id : string;
  node_category : string;
  node_confidence : R;
  node_accessCount : R;
  node_createdAt : R
}.

Record GraphEdge : Type := {
  edge_targetId : string;
  edge_type : EdgeType;
  edge_weight : R
}.

Record RankedResult : Type := {
  ranked_entry : MemoryEntry;
  ranked_score : R;
  ranked_pageRank : R;
  ranked_combinedScore : R;
  ranked_community : option string
}.

(** The private state of a [MemoryGraph] instance, and the events it has
    emitted so far. *)
Record MemoryGraph : Type := {
  nodes : JsMap.t GraphNode;
  edges : JsMap.t (list GraphEdge);
  reverseEdges : JsMap.t JsSet.t;
  pageRanks : JsMap.t R;
  communities : JsMap.t string;
  config : Config;
  dirty : bool;
  emitted : list Event
}.

(** [new MemoryGraph(config)] *)
Definition newGraph (cfg : option MemoryGraphConfig) : MemoryGraph := {|
  nodes := JsMap.empty;
  edges := JsMap.empty;
  reverseEdges := JsMap.empty;
  pageRanks := JsMap.empty;
  communities := JsMap.empty;
  config := mergeConfig cfg;
  dirty := true;
  emitted := []
|}.

Definition set_dirty (b : bool) (g : MemoryGraph) : MemoryGraph := {|
  nodes := nodes g; edges := edges g; reverseEdges := reverseEdges g;
  pageRanks := pageRanks g; communities := communities g;
  config := config g; dirty := b; emitted := emitted g
|}.

Definition emit (e : Event) (g : MemoryGraph) : MemoryGraph := {|
  nodes := nodes g; edges := edges g; reverseEdges := reverseEdges g;
  pageRanks := pageRanks g; communities := communities g;
  config := config g; dirty := dirty g; emitted := emitted g ++ [e]
|}.

(** ** Graph store *)

Definition targets (l : list GraphEdge) : list string := map edge_targetId l.

(** [hasEdge(sourceId, targetId)] *)
Definition hasEdge (sourceId targetId : string) (g : MemoryGraph) : bool :=
  match JsMap.get sourceId (edges g) with
  | None => false
  | Some edgeList =>
      existsb (fun e => String.eqb (edge_targetId e) targetId) edgeList
  end.

Definition nodeOfEntry (entry : MemoryEntry) : GraphNode := {|
  node_id := entry_id entry;
  node_category :=
    string_or (match entry_metadata entry with
               | Some md => md_category md
               | None => None
               end) "general";
  node_confidence :=
    num_or (match entry_metadata entry with
            | Some md => md_confidence md
            | None => None
            end) (num_lit 5 10);
  node_accessCount := entry_accessCount entry;
  node_createdAt := entry_createdAt entry
|}.

(** [addNode(entry)] *)
Definition addNode (entry : MemoryEntry) (g : MemoryGraph) : MemoryGraph :=
  if (maxNodes (config g) <=? JsMap.size (nodes g))
     && negb (JsMap.has (entry_id entry) (nodes g))
  then g
  else {|
    nodes := JsMap.set (entry_id entry) (nodeOfEntry entry) (nodes g);
    edges :=
      if JsMap.has (entry_id entry) (edges g) then edges g
      else JsMap.set (entry_id entry) [] (edges g);
    reverseEdges :=
      if JsMap.has (entry_id entry) (reverseEdges g) then reverseEdges g
      else JsMap.set (entry_id entry) JsSet.empty (reverseEdges g);
    pageRanks := pageRanks g;
    communities := communities g;
    config := config g;
    dirty := true;
    emitted := emitted g
  |}.

(** [existing.weight = Math.max(existing.weight, weight)] on the first edge
    of the list that points to [targetId] (the one [find] returns). *)
Fixpoint raiseWeight (targetId : string) (weight : R) (l : list GraphEdge)
  : list GraphEdge :=
  match l with
  | [] => []
  | e :: l' =>
      if String.eqb (edge_targetId e) targetId
      then {| edge_targetId := edge_targetId e;
              edge_type := edge_type e;
              edge_weight := num_max (edge_weight e) weight |} :: l'
      else e :: raiseWeight targetId weight l'
  end.

(** The edge list of [sourceId] after [addEdge]: the weight of an existing
    edge to [targetId] is raised, or a new edge is pushed. *)
Definition upsertEdge (targetId : string) (type : EdgeType) (weight : R)
  (edgeList : list GraphEdge) : list GraphEdge :=
  match find (fun e => String.eqb (edge_targetId e) targetId) edgeList with
  | Some _ => raiseWeight targetId weight edgeList
  | None =>
      edgeList ++ [{| edge_targetId := targetId;
                      edge_type := type;
                      edge_weight := weight |}]
  end.

(** [addEdge(sourceId, targetId, type, weight)] *)
Definition addEdge (sourceId targetId : string) (type : EdgeType) (weight : R)
  (g : MemoryGraph) : MemoryGraph :=
  if negb (JsMap.has sourceId (nodes g)) || negb (JsMap.has targetId (nodes g))
  then g
  else
    let edgeList := spread [] (JsMap.get sourceId (edges g)) in
    let reverse1 :=
      if JsMap.has targetId (reverseEdges g) then reverseEdges g
      else JsMap.set targetId JsSet.empty (reverseEdges g) in
    {|
      nodes := nodes g;
      edges :=
        JsMap.set sourceId (upsertEdge targetId type weight edgeList) (edges g);
      reverseEdges := JsMap.adjust (JsSet.add sourceId) targetId reverse1;
      pageRanks := pageRanks g;
      communities := communities g;
      config := config g;
      dirty := true;
      emitted := emitted g
    |}.

(** The default of the [weight] parameter of [addEdge]. *)
Definition DEFAULT_WEIGHT : R := one.

(** The first loop of [removeNode]: [id] leaves the reverse set of every
    target of its outgoing edges. *)
Definition unlinkTargets (id : string) (outgoing : list GraphEdge)
  (reverse : JsMap.t JsSet.t) : JsMap.t JsSet.t :=
  fold_left
    (fun rev edge => JsMap.adjust (JsSet.delete id) (edge_targetId edge) rev)
    outgoing reverse.

Definition dropTarget (id : string) (l : list GraphEdge) : list GraphEdge :=
  filter (fun e => negb (String.eqb (edge_targetId e) id)) l.

(** The second loop of [removeNode]: the edge list of every source in the
    reverse set of [id] is filtered. *)
Definition unlinkSources (id : string) (incoming : JsSet.t)
  (es : JsMap.t (list GraphEdge)) : JsMap.t (list GraphEdge) :=
  fold_left (fun es sourceId => JsMap.adjust (dropTarget id) sourceId es)
    incoming es.

(** [removeNode(id)] *)
Definition removeNode (id : string) (g : MemoryGraph) : MemoryGraph :=
  if negb (JsMap.has id (nodes g)) then g
  else
    let outgoing := spread [] (JsMap.get id (edges g)) in
    let reverse1 := unlinkTargets id outgoing (reverseEdges g) in
    let edges1 := JsMap.delete id (edges g) in
    let edges2 :=
      match JsMap.get id reverse1 with
      | Some incoming => unlinkSources id incoming edges1
      | None => edges1
      end in
    {|
      nodes := JsMap.delete id (nodes g);
      edges := edges2;
      reverseEdges := JsMap.delete id reverse1;
      pageRanks := JsMap.delete id (pageRanks g);
      communities := JsMap.delete id (communities g);
      config := config g;
      dirty := true;
      emitted := emitted g
    |}.

(** ** Edge builder *)

Definition addNodes (entries : list MemoryEntry) (g : MemoryGraph)
  : MemoryGraph :=
  fold_left (fun g entry => addNode entry g) entries g.

Definition addReferenceEdges (entries : list MemoryEntry) (g : MemoryGraph)
  : MemoryGraph :=
  fold_left
    (fun g entry =>
       fold_left
         (fun g refId => addEdge (entry_id entry) refId reference DEFAULT_WEIGHT g)
         (entry_references entry) g)
    entries g.

(** [buildFromBackend(backend, namespace)]: a rejected query leaves the graph
    as it was. *)
Definition buildFromBackend (backend : IMemoryBackend)
  (namespace : option string) (g : MemoryGraph) : MemoryGraph * Outcome unit :=
  match backend_query backend namespace (maxNodes (config g)) with
  | Rejected reason => (g, Rejected reason)
  | Fulfilled entries =>
      let g1 := addNodes entries g in
      let g2 := addReferenceEdges entries g1 in
      let g3 := set_dirty true g2 in
      (emit (graph_built (JsMap.size (nodes g3))) g3, Fulfilled tt)
  end.

(** One turn of the loop of [addSimilarityEdges] over the search results. *)
Definition similarityStep (entryId : string) (st : MemoryGraph * nat)
  (result : SearchResult) : MemoryGraph * nat :=
  let '(g, added) := st in
  if String.eqb (entry_id (result_entry result)) entryId then (g, added)
  else if num_ge (result_score result) (similarityThreshold (config g)) then
    let hadEdge := hasEdge entryId (entry_id (result_entry result)) g in
    let g' :=
      addEdge entryId (entry_id (result_entry result)) similar
        (result_score result) g in
    (g', if hadEdge then added else S added)
  else (g, added).

(** [addSimilarityEdges(backend, entryId)] *)
Definition addSimilarityEdges (backend : IMemoryBackend) (entryId : string)
  (g : MemoryGraph) : MemoryGraph * Outcome nat :=
  match backend_get backend entryId with
  | Rejected reason => (g, Rejected reason)
  | Fulfilled None => (g, Fulfilled 0)
  | Fulfilled (Some entry) =>
      match entry_embedding entry with
      | None => (g, Fulfilled 0)
      | Some embedding =>
          match backend_search backend embedding 20
                  (similarityThreshold (config g)) with
          | Rejected reason => (g, Rejected reason)
          | Fulfilled results =>
              let '(g', added) :=
                fold_left (similarityStep entryId) results (g, 0) in
              (g', Fulfilled added)
          end
      end
  end.

(** ** PageRank *)

(** [this.edges.get(sourceId)?.length || 1] *)
Definition outDegree (g : MemoryGraph) (sourceId : string) : nat :=
  match JsMap.get sourceId (edges g) with
  | Some l => if length l =? 0 then 1 else length l
  | None => 1
  end.

Definition rankOf (ranks : JsMap.t R) (nodeId : string) : R :=
  num_or (JsMap.get nodeId ranks) zero.

Definition isDangling (g : MemoryGraph) (nodeId : string) : bool :=
  match JsMap.get nodeId (edges g) with
  | None => true
  | Some outEdges => length outEdges =? 0
  end.

Definition danglingNodes (g : MemoryGraph) : list string :=
  filter (isDangling g) (JsMap.keys (nodes g)).

Definition danglingSum (ranks : JsMap.t R) (dangling : list string) : R :=
  fold_left (fun acc nodeId => num_add acc (rankOf ranks nodeId)) dangling zero.

Definition incomingSum (g : MemoryGraph) (ranks : JsMap.t R) (nodeId : string)
  : R :=
  match JsMap.get nodeId (reverseEdges g) with
  | Some incoming =>
      fold_left
        (fun sum sourceId =>
           num_add sum
             (num_div (rankOf ranks sourceId) (num_of_nat (outDegree g sourceId))))
        incoming zero
  | None => zero
  end.

(** [(1 - d) / N + d * (sum + danglingSum / N)] *)
Definition newRankOf (g : MemoryGraph) (ranks : JsMap.t R) (dsum : R)
  (nodeId : string) : R :=
  let d := pageRankDamping (config g) in
  let N := num_of_nat (JsMap.size (nodes g)) in
  num_add (num_div (num_sub one d) N)
          (num_mul d (num_add (incomingSum g ranks nodeId) (num_div dsum N))).

(** One iteration of the power method: the new rank map and [maxDelta]. *)
Definition pageRankSweep (g : MemoryGraph) (ranks : JsMap.t R)
  (dangling : list string) : JsMap.t R * R :=
  let dsum := danglingSum ranks dangling in
  fold_left
    (fun st nodeId =>
       let newRank := newRankOf g ranks dsum nodeId in
       (JsMap.set nodeId newRank (fst st),
        num_max (snd st) (num_abs (num_sub newRank (rankOf ranks nodeId)))))
    (JsMap.keys (nodes g)) (JsMap.empty, zero).

(** The iteration loop: [fuel] iterations remain, [iter] have been run. *)
Fixpoint pageRankLoop (g : MemoryGraph) (dangling : list string)
  (fuel iter : nat) (ranks : JsMap.t R) : JsMap.t R * nat :=
  match fuel with
  | 0 => (ranks, iter)
  | S fuel' =>
      let '(newRanks, maxDelta) := pageRankSweep g ranks dangling in
      if num_lt maxDelta (pageRankConvergence (config g))
      then (newRanks, S iter)
      else pageRankLoop g dangling fuel' (S iter) newRanks
  end.

Definition initialRanks (g : MemoryGraph) : JsMap.t R :=
  let initialRank := num_div one (num_of_nat (JsMap.size (nodes g))) in
  fold_left (fun ranks nodeId => JsMap.set nodeId initialRank ranks)
    (JsMap.keys (nodes g)) (pageRanks g).

Definition set_pageRanks (ranks : JsMap.t R) (g : MemoryGraph) : MemoryGraph := {|
  nodes := nodes g; edges := edges g; reverseEdges := reverseEdges g;
  pageRanks := ranks; communities := communities g;
  config := config g; dirty := dirty g; emitted := emitted g
|}.

(** [computePageRank()]: the graph afterwards and the copy of the rank map
    that is returned. *)
Definition computePageRank (g : MemoryGraph) : MemoryGraph * JsMap.t R :=
  if JsMap.size (nodes g) =? 0
  then (emit (pagerank_computed 0) (set_dirty false g), JsMap.empty)
  else
    let '(ranks, iterations) :=
      pageRankLoop g (danglingNodes g) (pageRankIterations (config g)) 0
        (initialRanks g) in
    (emit (pagerank_computed iterations)
       (set_dirty false (set_pageRanks ranks g)),
     ranks).

(** ** Community detection *)

Fixpoint update_nth {A : Type} (i : nat) (x : A) (l : list A) : list A :=
  match l, i with
  | [], _ => []
  | _ :: l', 0 => x :: l'
  | y :: l', S i' => y :: update_nth i' x l'
  end.

(** [[a[i], a[j]] = [a[j], a[i]]] *)
Definition swap {A : Type} (i j : nat) (l : list A) : list A :=
  match nth_error l i, nth_error l j with
  | Some x, Some y => update_nth j x (update_nth i y l)
  | _, _ => l
  end.

(** [Math.floor(Math.random() * bound)]: the ambient generator is an explicit
    supply of draws, each reduced into [0, bound). *)
Definition nextIndex (draws : list nat) (bound : nat) : nat * list nat :=
  match draws with
  | [] => (0, [])
  | r :: draws' => (r mod bound, draws')
  end.

(** The loop of [shuffleArray], for [i] down to 1. *)
Fixpoint shuffleLoop {A : Type} (i : nat) (draws : list nat) (shuffled : list A)
  : list A * list nat :=
  match i with
  | 0 => (shuffled, draws)
  | S i' =>
      let '(j, draws') := nextIndex draws (i + 1) in
      shuffleLoop i' draws' (swap i j shuffled)
  end.

(** [shuffleArray(arr)] *)
Definition shuffleArray {A : Type} (arr : list A) (draws : list nat)
  : list A * list nat :=
  shuffleLoop (length arr - 1) draws arr.

(** [labelCounts.set(l, (labelCounts.get(l) || 0) + amount)], skipped when
    the neighbour has no label. *)
Definition countLabel (neighborLabel : option string) (amount : R)
  (labelCounts : JsMap.t R) : JsMap.t R :=
  match neighborLabel with
  | None => labelCounts
  | Some l =>
      JsMap.set l (num_add (num_or (JsMap.get l labelCounts) zero) amount)
        labelCounts
  end.

Definition labelCountsOf (g : MemoryGraph) (labels : JsMap.t string)
  (nodeId : string) : JsMap.t R :=
  let fromOut :=
    fold_left
      (fun counts edge =>
         countLabel (JsMap.get (edge_targetId edge) labels) (edge_weight edge)
           counts)
      (spread [] (JsMap.get nodeId (edges g))) JsMap.empty in
  match JsMap.get nodeId (reverseEdges g) with
  | Some incoming =>
      fold_left
        (fun counts sourceId => countLabel (JsMap.get sourceId labels) one counts)
        incoming fromOut
  | None => fromOut
  end.

(** The label of the largest count, the first one met at that count. *)
Definition bestLabel (current : option string) (labelCounts : JsMap.t R)
  : option string :=
  fst (fold_left
         (fun best kv =>
            if num_gt (snd kv) (snd best) then (Some (fst kv), snd kv) else best)
         labelCounts (current, zero)).

Definition option_string_eqb (a b : option string) : bool :=
  match a, b with
  | Some x, Some y => String.eqb x y
  | None, None => true
  | _, _ => false
  end.

(** The body of the sweep over the shuffled node ids. *)
Definition relabel (g : MemoryGraph) (st : JsMap.t string * bool)
  (nodeId : string) : JsMap.t string * bool :=
  let labelCounts := labelCountsOf g (fst st) nodeId in
  if 0 <? JsMap.size labelCounts then
    match bestLabel (JsMap.get nodeId (fst st)) labelCounts with
    | Some maxLabel =>
        if option_string_eqb (Some maxLabel) (JsMap.get nodeId (fst st)) then st
        else (JsMap.set nodeId maxLabel (fst st), true)
    | None => st
    end
  else st.

Fixpoint propagateLabels (g : MemoryGraph) (fuel : nat) (draws : list nat)
  (labels : JsMap.t string) : JsMap.t string :=
  match fuel with
  | 0 => labels
  | S fuel' =>
      let '(nodeIds, draws') := shuffleArray (JsMap.keys (nodes g)) draws in
      let '(labels', changed) := fold_left (relabel g) nodeIds (labels, false) in
      if changed then propagateLabels g fuel' draws' labels' else labels'
  end.

Definition MAX_ITERATIONS : nat := 20.

Definition distinctCount (l : list string) : nat :=
  JsSet.size (fold_left (fun s x => JsSet.add x s) l JsSet.empty).

(** [detectCommunities()], with the draws of [Math.random] it consumes. *)
Definition detectCommunities (draws : list nat) (g : MemoryGraph)
  : MemoryGraph * JsMap.t string :=
  let labels0 :=
    fold_left (fun labels nodeId => JsMap.set nodeId nodeId labels)
      (JsMap.keys (nodes g)) JsMap.empty in
  let labels := propagateLabels g MAX_ITERATIONS draws labels0 in
  (emit (communities_detected (distinctCount (JsMap.values labels)))
     {| nodes := nodes g; edges := edges g; reverseEdges := reverseEdges g;
        pageRanks := pageRanks g; communities := labels;
        config := config g; dirty := dirty g; emitted := emitted g |},
   labels).

(** ** Ranking and queries *)

(** [Array.prototype.sort(comparefn)]: a stable sort (ECMAScript 2019), here
    by insertion; [x] moves behind [y] only when [comparefn(x, y) > 0]. *)
Fixpoint sortInsert {A : Type} (comparefn : A -> A -> R) (x : A) (l : list A)
  : list A :=
  match l with
  | [] => [x]
  | y :: l' =>
      if num_gt (comparefn x y) zero then y :: sortInsert comparefn x l'
      else x :: y :: l'
  end.

Definition arraySort {A : Type} (comparefn : A -> A -> R) (l : list A)
  : list A :=
  fold_right (sortInsert comparefn) [] l.

(** [this.nodes.size || 1] *)
Definition sizeOrOne (g : MemoryGraph) : nat :=
  if JsMap.size (nodes g) =? 0 then 1 else JsMap.size (nodes g).

Definition blend (g : MemoryGraph) (alpha : R) (result : SearchResult)
  : RankedResult :=
  let pageRank := rankOf (pageRanks g) (entry_id (result_entry result)) in
  {| ranked_entry := result_entry result;
     ranked_score := result_score result;
     ranked_pageRank := pageRank;
     ranked_combinedScore :=
       num_add (num_mul alpha (result_score result))
               (num_mul (num_sub one alpha)
                        (num_mul pageRank (num_of_nat (sizeOrOne g))));
     ranked_community :=
       JsMap.get (entry_id (result_entry result)) (communities g) |}.

(** [(a, b) => b.combinedScore - a.combinedScore] *)
Definition byCombinedScore (a b : RankedResult) : R :=
  num_sub (ranked_combinedScore b) (ranked_combinedScore a).

Definition ensurePageRank (g : MemoryGraph) : MemoryGraph :=
  if dirty g then fst (computePageRank g) else g.

(** The default of the [alpha] parameter of [rankWithGraph]. *)
Definition DEFAULT_ALPHA : R := num_lit 7 10.

(** [rankWithGraph(searchResults, alpha)] *)
Definition rankWithGraph (searchResults : list SearchResult) (alpha : R)
  (g : MemoryGraph) : MemoryGraph * list RankedResult :=
  let g' := ensurePageRank g in
  (g', arraySort byCombinedScore (map (blend g' alpha) searchResults)).

Record TopNode : Type := {
  top_id : string;
  top_pageRank : R;
  top_community : string
}.

(** [getTopNodes(n)] *)
Definition getTopNodes (n : nat) (g : MemoryGraph) : MemoryGraph * list TopNode :=
  let g' := ensurePageRank g in
  (g',
   map (fun kv =>
          {| top_id := fst kv;
             top_pageRank := snd kv;
             top_community :=
               string_or (JsMap.get (fst kv) (communities g')) (fst kv) |})
       (firstn n
          (arraySort (fun a b => num_sub (snd b) (snd a)) (pageRanks g')))).

(** The inner loop of [getNeighbors] over the out-edges of a frontier node. *)
Definition visitEdges (id : string) (outEdges : list GraphEdge)
  (st : JsSet.t * JsSet.t) : JsSet.t * JsSet.t :=
  fold_left
    (fun st edge =>
       if negb (JsSet.has (edge_targetId edge) (fst st))
          && negb (String.eqb (edge_targetId edge) id)
       then (JsSet.add (edge_targetId edge) (fst st),
             JsSet.add (edge_targetId edge) (snd st))
       else st)
    outEdges st.

(** One depth level: the visited set and the next frontier. *)
Definition expandFrontier (g : MemoryGraph) (id : string) (frontier : JsSet.t)
  (visited : JsSet.t) : JsSet.t * JsSet.t :=
  fold_left
    (fun st nodeId =>
       visitEdges id (spread [] (JsMap.get nodeId (edges g))) st)
    frontier (visited, JsSet.empty).

Fixpoint neighborsLoop (g : MemoryGraph) (id : string) (depth : nat)
  (frontier visited : JsSet.t) : JsSet.t :=
  match depth with
  | 0 => visited
  | S depth' =>
      let '(visited', nextFrontier) := expandFrontier g id frontier visited in
      if JsSet.size nextFrontier =? 0 then visited'
      else neighborsLoop g id depth' nextFrontier visited'
  end.

(** [getNeighbors(id, depth)] *)
Definition getNeighbors (id : string) (depth : nat) (g : MemoryGraph) : JsSet.t :=
  neighborsLoop g id depth [id] JsSet.empty.

End Model.

Arguments newGraph {R _} cfg.
Arguments DEFAULT_CONFIG {R _}.
Arguments mergeConfig {R _} config.
Arguments zero {R _}.
Arguments one {R _}.
Arguments DEFAULT_WEIGHT {R _}.
Arguments DEFAULT_ALPHA {R _}.

(** * Specification vocabulary *)

Section Vocabulary.
Variable R : Type.
Context `{JsNumber R}.
Implicit Types g : MemoryGraph R.

(** [source -> target] is an edge of the graph. *)
Definition edgeTo g (source target : string) : Prop :=
  exists l, JsMap.get source (edges g) = Some l /\ In target (targets l).

(** [source] is recorded in the reverse index of [target]. *)
Definition inReverse g (source target : string) : Prop :=
  exists s, JsMap.get target (reverseEdges g) = Some s /\ In source s.

(** The invariants of the graph store (section 3 of the specification): the
    maps hold each key once, every node has its two edge slots and no one
    else has, edges join nodes, an edge list names a target once, and the
    reverse index mirrors the edge lists.  Ranks are kept for nodes only. *)
Record wf g : Prop := {
  wf_nodes_nodup : NoDup (JsMap.keys (nodes g));
  wf_edges_nodup : NoDup (JsMap.keys (edges g));
  wf_reverse_nodup : NoDup (JsMap.keys (reverseEdges g));
  wf_ranks_nodup : NoDup (JsMap.keys (pageRanks g));
  wf_edges_dom :
    forall k, In k (JsMap.keys (edges g)) <-> In k (JsMap.keys (nodes g));
  wf_reverse_dom :
    forall k, In k (JsMap.keys (reverseEdges g)) <-> In k (JsMap.keys (nodes g));
  wf_ranks_dom :
    forall k, In k (JsMap.keys (pageRanks g)) -> In k (JsMap.keys (nodes g));
  wf_targets_nodup :
    forall s l, JsMap.get s (edges g) = Some l -> NoDup (targets l);
  wf_targets_nodes :
    forall s t, edgeTo g s t -> In t (JsMap.keys (nodes g));
  wf_sources_nodup :
    forall t s, JsMap.get t (reverseEdges g) = Some s -> NoDup s;
  wf_reverse_index :
    forall s t, inReverse g s t <-> edgeTo g s t
}.

(** [addNode(entry)] returns at its capacity guard. *)
Definition rejects (entry : MemoryEntry R) g : bool :=
  (maxNodes (config g) <=? JsMap.size (nodes g))
  && negb (JsMap.has (entry_id entry) (nodes g)).

(** [addEdge(sourceId, targetId, ...)] returns at its guard: an end point is
    not a node. *)
Definition skips (sourceId targetId : string) g : bool :=
  negb (JsMap.has sourceId (nodes g)) || negb (JsMap.has targetId (nodes g)).

(** A rank map that holds one rank for every node and nothing else. *)
Definition covers g (ranks : JsMap.t R) : Prop :=
  NoDup (JsMap.keys ranks)
  /\ forall k, In k (JsMap.keys ranks) <-> In k (JsMap.keys (nodes g)).

(** The capacity bound of invariant 3. *)
Definition withinCapacity g : Prop :=
  JsMap.size (nodes g) <= maxNodes (config g).

(** No stored node carries a falsy confidence (a zero or [NaN]). *)
Definition confident g : Prop :=
  forall k n, JsMap.get k (nodes g) = Some n ->
    num_truthy (node_confidence n) = true.

(** A run of [addEdge] calls on one ordered pair, each with its type and
    weight. *)
Definition addEdges (sourceId targetId : string) (calls : list (EdgeType * R))
  g : MemoryGraph R :=
  fold_left (fun g c => addEdge sourceId targetId (fst c) (snd c) g) calls g.

(** The edges recorded for the ordered pair [(sourceId, targetId)]. *)
Definition edgesBetween g (sourceId targetId : string) : list (GraphEdge R) :=
  filter (fun e => String.eqb (edge_targetId e) targetId)
    (spread [] (JsMap.get sourceId (edges g))).

(** [this.edges.get(sourceId) || []] *)
Definition outEdges g (sourceId : string) : list (GraphEdge R) :=
  spread [] (JsMap.get sourceId (edges g)).

(** The targets of the edges of [sourceId], and the sources on record for
    [targetId]. *)
Definition outTargets g (sourceId : string) : list string :=
  targets (outEdges g sourceId).

Definition inSources g (targetId : string) : JsSet.t :=
  spread JsSet.empty (JsMap.get targetId (reverseEdges g)).

(** The node and edge structure of a graph. *)
Definition structure g
  : JsMap.t (GraphNode R) * JsMap.t (list (GraphEdge R)) * JsMap.t JsSet.t :=
  (nodes g, edges g, reverseEdges g).

(** The calls of the public interface that can change the state. *)
Inductive Op : Type :=
  | OpAddNode (entry : MemoryEntry R)
  | OpAddEdge (sourceId targetId : string) (type : EdgeType) (weight : R)
  | OpRemoveNode (id : string)
  | OpBuildFromBackend (backend : IMemoryBackend R) (namespace : option string)
  | OpAddSimilarityEdges (backend : IMemoryBackend R) (entryId : string)
  | OpComputePageRank
  | OpDetectCommunities (draws : list nat)
  | OpRankWithGraph (searchResults : list (SearchResult R)) (alpha : R)
  | OpGetTopNodes (n : nat).

Definition step (op : Op) g : MemoryGraph R :=
  match op with
  | OpAddNode entry => addNode entry g
  | OpAddEdge sourceId targetId type weight =>
      addEdge sourceId targetId type weight g
  | OpRemoveNode id => removeNode id g
  | OpBuildFromBackend backend namespace =>
      fst (buildFromBackend backend namespace g)
  | OpAddSimilarityEdges backend entryId =>
      fst (addSimilarityEdges backend entryId g)
  | OpComputePageRank => fst (computePageRank g)
  | OpDetectCommunities draws => fst (detectCommunities draws g)
  | OpRankWithGraph searchResults alpha =>
      fst (rankWithGraph searchResults alpha g)
  | OpGetTopNodes n => fst (getTopNodes n g)
  end.

(** A program over one graph instance: its calls in order. *)
Definition exec (ops : list Op) g : MemoryGraph R :=
  fold_left (fun g op => step op g) ops g.

(** Whether the call runs a PageRank computation in state [g]. *)
Definition ranks (op : Op) g : bool :=
  match op with
  | OpComputePageRank => true
  | OpRankWithGraph _ _ | OpGetTopNodes _ => dirty g
  | _ => false
  end.

(** The structure the graph had when PageRank was last computed during the
    run of [ops] from [g], given the one ([last]) it had before. *)
Fixpoint rankedStructure (ops : list Op) g
  (last : option (JsMap.t (GraphNode R) * JsMap.t (list (GraphEdge R))
                  * JsMap.t JsSet.t))
  : option (JsMap.t (GraphNode R) * JsMap.t (list (GraphEdge R))
            * JsMap.t JsSet.t) :=
  match ops with
  | [] => last
  | op :: ops' =>
      rankedStructure ops' (step op g)
        (if ranks op g then Some (structure (step op g)) else last)
  end.

(** [target] is reached from [source] along [n] consecutive edges. *)
Inductive hops g (source : string) : nat -> string -> Prop :=
  | hops_O : hops g source 0 source
  | hops_S n mid target :
      hops g source n mid -> edgeTo g mid target ->
      hops g source (S n) target.

(** [target] is reachable from [source] within [depth] hops, at least one. *)
Definition within g (source : string) (depth : nat) (target : string) : Prop :=
  exists n, 1 <= n <= depth /\ hops g source n target.

(** The state of the traversal after [d] levels: [visited] holds what is
    within [d] hops, [previous] what was within [d - 1], and the frontier is
    their difference (the start node itself before the first level). *)
Definition level g (id : string) (d : nat) (frontier visited previous : JsSet.t)
  : Prop :=
  (forall x, In x visited <-> x <> id /\ within g id d x)
  /\ (d = 0 -> forall x, In x frontier <-> x = id)
  /\ (0 < d ->
        (forall x, In x previous <-> x <> id /\ within g id (d - 1) x)
        /\ (forall x, In x frontier <-> In x visited /\ ~ In x previous)).

(** An entry with no metadata, references or embedding. *)
Definition plainEntry (id : string) : MemoryEntry R := {|
  entry_id := id;
  entry_metadata := None;
  entry_accessCount := zero;
  entry_createdAt := zero;
  entry_references := [];
  entry_embedding := None
|}.

(** A backing store that holds nothing. *)
Definition emptyBackend : IMemoryBackend R := {|
  backend_get := fun _ => Fulfilled None;
  backend_query := fun _ _ => Fulfilled [];
  backend_search := fun _ _ _ => Fulfilled []
|}.

(** A backing store in which every id has an embedding and every search
    returns the one neighbour [neighbour], at score 0.9. *)
Definition oneNeighbourBackend (neighbour : string) : IMemoryBackend R := {|
  backend_get := fun id =>
    Fulfilled (Some {| entry_id := id;
                       entry_metadata := None;
                       entry_accessCount := zero;
                       entry_createdAt := zero;
                       entry_references := [];
                       entry_embedding := Some [one] |});
  backend_query := fun _ _ => Fulfilled [];
  backend_search := fun _ _ _ =>
    Fulfilled [{| result_entry := plainEntry neighbour;
                  result_score := num_lit 9 10 |}]
|}.

(** The chain [A -> B -> C -> D] of scenario 6. *)
Definition chainABCD : MemoryGraph R :=
  exec [OpAddNode (plainEntry "A"); OpAddNode (plainEntry "B");
        OpAddNode (plainEntry "C"); OpAddNode (plainEntry "D");
        OpAddEdge "A" "B" reference one; OpAddEdge "B" "C" reference one;
        OpAddEdge "C" "D" reference one]
       (newGraph None).

(** An entry whose metadata carries a zero confidence and an empty
    category. *)
Definition falsyEntry (id : string) : MemoryEntry R := {|
  entry_id := id;
  entry_metadata :=
    Some {| md_category := Some EmptyString; md_confidence := Some zero |};
  entry_accessCount := zero;
  entry_createdAt := zero;
  entry_references := [];
  entry_embedding := None
|}.

End Vocabulary.

Arguments OpRemoveNode {R} id.
Arguments OpComputePageRank {R}.
Arguments OpDetectCommunities {R} draws.
Arguments OpGetTopNodes {R} n.
Arguments plainEntry {R _} id.
Arguments falsyEntry {R _} id.
Arguments chainABCD {R _}.
Arguments oneNeighbourBackend {R _} neighbour.

(** [Math.max] over the weights of a run of calls. *)
Definition maxWeight (w : Qc) (ws : list Qc) : Qc := fold_left Qc_max ws w.

(** Scenario 3: [A -> B] and [A -> C], with [B] and [C] dangling. *)
Definition danglingABC {R : Type} `{JsNumber R} : MemoryGraph R :=
  exec [OpAddNode (plainEntry "A"); OpAddNode (plainEntry "B");
        OpAddNode (plainEntry "C");
        OpAddEdge "A" "B" reference one; OpAddEdge "A" "C" reference one]
       (newGraph None).

(** Scenario 2: the triangle [A -> B -> C -> A]. *)
Definition triangleABC {R : Type} `{JsNumber R} : MemoryGraph R :=
  exec [OpAddNode (plainEntry "A"); OpAddNode (plainEntry "B");
        OpAddNode (plainEntry "C");
        OpAddEdge "A" "B" reference one; OpAddEdge "B" "C" reference one;
        OpAddEdge "C" "A" reference one]
       (newGraph None).

(** Two nodes, not joined yet (exact arithmetic). *)
Definition pairUV : MemoryGraph Qc :=
  exec [OpAddNode (plainEntry "U"); OpAddNode (plainEntry "V")] (newGraph None).


(** Scenario 4: a graph of capacity 3 offered the entries [e1] to [e5]
    (binary64 arithmetic). *)
Definition capacityThree : MemoryGraph float :=
  addNodes
    [plainEntry "e1"; plainEntry "e2"; plainEntry "e3"; plainEntry "e4";
     plainEntry "e5"]
    (newGraph
       (Some {| opt_similarityThreshold := None;
                opt_pageRankDamping := None;
                opt_pageRankIterations := None;
                opt_pageRankConvergence := None;
                opt_maxNodes := Some 3;
                opt_enableAutoEdges := None;
                opt_communityAlgorithm := None |})).

(** The sum of a binary64 rank map, in the order of the map. *)
Definition totalRank64 (ranks : JsMap.t float) : float :=
  fold_left PrimFloat.add (JsMap.values ranks) 0%float.

(** * Further operations and vocabulary *)

(** [Infinity], for the number models that have one. *)
Class JsInfinity (R : Type) : Type := {
  num_infinity : R
}.

#[export] Instance float_infinity : JsInfinity float := {
  num_infinity := PrimFloat.infinity
}.

Section Statistics.
Variable R : Type.
Context `{JsNumber R} `{JsInfinity R}.

Record GraphStats : Type := {
  stats_nodeCount : nat;
  stats_edgeCount : nat;
  stats_avgDegree : R;
  stats_communityCount : nat;
  stats_pageRankComputed : bool;
  stats_maxPageRank : R;
  stats_minPageRank : R
}.

(** The sum of the lengths of the edge lists, as [getStats] totals it. *)
Definition totalEdges (g : MemoryGraph R) : nat :=
  fold_left (fun total edgeList => total + length edgeList)
    (JsMap.values (edges g)) 0.

(** The loop of [getStats] over the ranks: the largest and the smallest. *)
Definition rankExtrema (ranks : list R) : R * R :=
  fold_left
    (fun ext rank =>
       (if num_gt rank (fst ext) then rank else fst ext,
        if num_lt rank (snd ext) then rank else snd ext))
    ranks (zero, num_infinity).

(** [getStats()] *)
Definition getStats (g : MemoryGraph R) : GraphStats :=
  let nodeCount := JsMap.size (nodes g) in
  let extrema :=
    if 0 <? JsMap.size (pageRanks g)
    then rankExtrema (JsMap.values (pageRanks g))
    else (zero, zero) in
  {| stats_nodeCount := nodeCount;
     stats_edgeCount := totalEdges g;
     stats_avgDegree :=
       if 0 <? nodeCount
       then num_div (num_of_nat (totalEdges g)) (num_of_nat nodeCount)
       else zero;
     stats_communityCount := distinctCount (JsMap.values (communities g));
     stats_pageRankComputed := negb (dirty g);
     stats_maxPageRank := fst extrema;
     stats_minPageRank := snd extrema |}.

End Statistics.

Section MoreVocabulary.
Variable R : Type.
Context `{JsNumber R}.
Implicit Types g : MemoryGraph R.

(** Communities are kept for nodes only. *)
Definition labelsNodes g : Prop :=
  forall k, In k (JsMap.keys (communities g)) -> In k (JsMap.keys (nodes g)).

(** Once the flag is down, the ranks on record cover the nodes. *)
Definition cached g : Prop :=
  dirty g = false -> covers g (pageRanks g).

(** The number of entries of all reverse sets together. *)
Definition totalSources g : nat :=
  fold_left (fun total sources => total + JsSet.size sources)
    (JsMap.values (reverseEdges g)) 0.

(** [entries] declares the reference [source -> target]. *)
Definition declares (entries : list (MemoryEntry R)) (source target : string)
  : Prop :=
  exists entry, In entry entries /\ entry_id entry = source
                /\ In target (entry_references entry).

(** The labels are node ids, one for every node, in the order of the
    nodes. *)
Definition labelled g (labels : JsMap.t string) : Prop :=
  JsMap.keys labels = JsMap.keys (nodes g)
  /\ forall k l, JsMap.get k labels = Some l -> In l (JsMap.keys (nodes g)).

(** [g'] differs from [g] in its edges, their reverse index and the flag
    at most. *)
Definition sameButEdges g g' : Prop :=
  nodes g' = nodes g /\ pageRanks g' = pageRanks g
  /\ communities g' = communities g /\ config g' = config g
  /\ emitted g' = emitted g.

(** The search result [r] passes the filter of [addSimilarityEdges] for the
    entry [entryId] in the graph [g]. *)
Definition similarTo g (entryId : string) (r : SearchResult R) : Prop :=
  entry_id (result_entry r) <> entryId
  /\ num_ge (result_score r) (similarityThreshold (config g)) = true.

(** The ordered pairs of nodes that [hasEdge] finds joined. *)
Definition joinedPairs g : list (string * string) :=
  filter (fun st => hasEdge (fst st) (snd st) g)
    (list_prod (JsMap.keys (nodes g)) (JsMap.keys (nodes g))).

(** [b] is in the component of [a]: a path joins them, along edges taken
    in either direction. *)
Inductive connected g (a : string) : string -> Prop :=
  | connected_refl : connected g a a
  | connected_step b c :
      connected g a b -> edgeTo g b c \/ edgeTo g c b -> connected g a c.

(** The search result [r] makes [addSimilarityEdges] call [addEdge] past
    its guard. *)
Definition linksSimilar g (entryId : string) (r : SearchResult R) : bool :=
  negb (String.eqb (entry_id (result_entry r)) entryId)
  && num_ge (result_score r) (similarityThreshold (config g))
  && negb (skips entryId (entry_id (result_entry r)) g).

(** The call is one of the five that write to the store, and it gets past
    its guard: the entry is taken, both end points are nodes, the node is
    there, the query is fulfilled, a neighbour is linked. *)
Definition accepted (op : Op R) g : bool :=
  match op with
  | OpAddNode entry => negb (rejects entry g)
  | OpAddEdge sourceId targetId _ _ => negb (skips sourceId targetId g)
  | OpRemoveNode id => JsMap.has id (nodes g)
  | OpBuildFromBackend backend namespace =>
      match backend_query backend namespace (maxNodes (config g)) with
      | Fulfilled _ => true
      | Rejected _ => false
      end
  | OpAddSimilarityEdges backend entryId =>
      match backend_get backend entryId with
      | Fulfilled (Some entry) =>
          match entry_embedding entry with
          | Some embedding =>
              match backend_search backend embedding 20
                      (similarityThreshold (config g)) with
              | Fulfilled results => existsb (linksSimilar g entryId) results
              | Rejected _ => false
              end
          | None => false
          end
      | _ => false
      end
  | _ => false
  end.

(** The update rule of the specification, written from its words:
    [rank'[u] = (1 - d) / N + d * (sum over v in in[u] of rank[v] / |out[v]|
    + dangling_sum / N)], where [dangling_sum] adds up the ranks of the
    nodes without outgoing edges. *)
Definition noOutEdges g (v : string) : bool :=
  match outEdges g v with [] => true | _ :: _ => false end.

Definition danglingMass g (ranks : JsMap.t R) : R :=
  fold_left
    (fun sum v => if noOutEdges g v then num_add sum (rankOf ranks v) else sum)
    (JsMap.keys (nodes g)) zero.

Definition inflow g (ranks : JsMap.t R) (u : string) : R :=
  fold_left
    (fun sum v =>
       num_add sum
         (num_div (rankOf ranks v) (num_of_nat (length (outEdges g v)))))
    (inSources g u) zero.

Definition specifiedRank g (ranks : JsMap.t R) (u : string) : R :=
  let d := pageRankDamping (config g) in
  let N := num_of_nat (JsMap.size (nodes g)) in
  num_add (num_div (num_sub one d) N)
          (num_mul d (num_add (inflow g ranks u)
                              (num_div (danglingMass g ranks) N))).

(** The keys of the list compare as real numbers do: the sign of a
    difference is the order of its terms, and [<] is asymmetric and
    negatively transitive on them.  IEEE doubles other than [NaN] do. *)
Definition comparableKeys {A : Type} (key : A -> R) (l : list A) : Prop :=
  (forall a b, In a l -> In b l ->
     num_gt (num_sub (key b) (key a)) zero = num_lt (key a) (key b))
  /\ (forall a b, In a l -> In b l ->
        num_lt (key a) (key b) = true -> num_lt (key b) (key a) = false)
  /\ (forall a b c, In a l -> In b l -> In c l ->
        num_lt (key a) (key b) = false -> num_lt (key b) (key c) = false ->
        num_lt (key a) (key c) = false).

(** A list in descending order of its keys: no element is below a later
    one. *)
Definition descendingBy {A : Type} (key : A -> R) (l : list A) : Prop :=
  StronglySorted (fun a b => num_lt (key a) (key b) = false) l.


(** Sums over a list of keys. *)
Definition sumOver {A : Type} (f : A -> R) (l : list A) : R :=
  fold_right (fun x acc => num_add (f x) acc) zero l.

(** What a node passes to each of its targets in an iteration. *)
Definition share g (ranks : JsMap.t R) (v : string) : R :=
  num_div (rankOf ranks v) (num_of_nat (outDegree g v)).

(** The total of the values of a rank map. *)
Definition totalRank (ranks : JsMap.t R) : R :=
  sumOver (fun x => x) (JsMap.values ranks).

End MoreVocabulary.

(** Exact arithmetic: the operations of the number model form a field, the
    naturals embed in it without collapsing, and zero is its only falsy
    number.  The exact rationals are such a model; IEEE binary64 is not. *)
Class ExactArithmetic (R : Type) `{JsNumber R} : Prop := {
  exact_field :
    field_theory zero one num_add num_mul num_sub
      (fun x => num_sub zero x) num_div (fun x => num_div one x) (@eq R);
  exact_succ :
    forall n : nat, num_of_nat (S n) = num_add one (num_of_nat n);
  exact_nonzero : forall n : nat, n <> 0 -> num_of_nat n <> zero;
  exact_falsy : forall x : R, num_truthy x = false -> x = zero
}.
Arguments ExactArithmetic R {_}.

(** The dangling scenario with a tolerance of [1e-17] (binary64
    arithmetic). *)
Definition danglingTight : MemoryGraph float :=
  exec [OpAddNode (plainEntry "A"); OpAddNode (plainEntry "B");
        OpAddNode (plainEntry "C");
        OpAddEdge "A" "B" reference one; OpAddEdge "A" "C" reference one]
       (newGraph
          (Some {| opt_similarityThreshold := None;
                   opt_pageRankDamping := None;
                   opt_pageRankIterations := None;
                   opt_pageRankConvergence :=
                     Some (num_lit 1 100000000000000000);
                   opt_maxNodes := None;
                   opt_enableAutoEdges := None;
                   opt_communityAlgorithm := None |})).

(** * Properties *)

(** ** Maps and sets *)

Ltac string_cases k k' :=
  let E := fresh "Heqb" in
  destruct (String.eqb k k') eqn:E;
  [ apply String.eqb_eq in E; subst; simpl; rewrite ?String.eqb_refl
  | simpl; rewrite ?E; let N := fresh "Hneq" in
    pose proof E as N; apply String.eqb_neq in N ];
  simpl; try congruence.

Module JsMapFacts.
Import JsMap.
Section Facts.
Context {V : Type}.
Implicit Types (m : JsMap.t V) (k : string) (v : V).

Lemma get_set_eq k v m : get k (set k v m) = Some v.
Proof.
  induction m as [|[k' v'] m IH]; simpl.
  - now rewrite String.eqb_refl.
  - string_cases k' k; now rewrite ?String.eqb_refl.
Qed.

Lemma get_set_neq k k' v m : k <> k' -> get k' (set k v m) = get k' m.
Proof.
  intros Hk. induction m as [|[k0 v0] m IH]; simpl.
  - string_cases k k'.
  - string_cases k0 k; simpl.
    + string_cases k k'.
    + string_cases k0 k'.
Qed.

Lemma get_set k k' v m :
  get k' (set k v m) = if String.eqb k k' then Some v else get k' m.
Proof.
  string_cases k k'.
  - apply get_set_eq.
  - now apply get_set_neq.
Qed.

Lemma get_delete k k' m :
  get k' (delete k m) = if String.eqb k k' then None else get k' m.
Proof.
  unfold delete. induction m as [|[k0 v0] m IH]; simpl.
  - now destruct (String.eqb k k').
  - string_cases k0 k.
    + rewrite IH. string_cases k k'.
    + string_cases k0 k'. string_cases k k'.
Qed.

Lemma get_delete_eq k m : get k (delete k m) = None.
Proof. rewrite get_delete. now rewrite String.eqb_refl. Qed.

Lemma has_In k m : has k m = true <-> In k (keys m).
Proof.
  unfold has, keys. induction m as [|[k0 v0] m IH]; simpl.
  - split; [discriminate | tauto].
  - string_cases k0 k.
    + split; auto.
    + rewrite IH. split; [auto | intros [ | ]; congruence].
Qed.

Lemma has_false_In k m : has k m = false <-> ~ In k (keys m).
Proof.
  rewrite <- has_In. destruct (has k m); split; congruence.
Qed.

Lemma get_Some_In k v m : get k m = Some v -> In k (keys m).
Proof. intros E. apply has_In. unfold has. now rewrite E. Qed.

Lemma get_None_In k m : get k m = None <-> ~ In k (keys m).
Proof.
  rewrite <- has_false_In. unfold has.
  destruct (get k m); split; congruence.
Qed.

Lemma In_get k m : In k (keys m) -> exists v, get k m = Some v.
Proof.
  intros Hin. apply has_In in Hin. unfold has in Hin.
  destruct (get k m) as [v|]; [now exists v | discriminate].
Qed.

Lemma has_set k k' v m :
  has k' (set k v m) = String.eqb k k' || has k' m.
Proof. unfold has. rewrite get_set. now destruct (String.eqb k k'). Qed.

Lemma has_delete k k' m :
  has k' (delete k m) = negb (String.eqb k k') && has k' m.
Proof. unfold has. rewrite get_delete. now destruct (String.eqb k k'). Qed.

Lemma keys_set_old k v m : has k m = true -> keys (set k v m) = keys m.
Proof.
  unfold has, keys. induction m as [|[k0 v0] m IH]; simpl; [discriminate|].
  string_cases k0 k. intros Hg. now rewrite IH.
Qed.

Lemma keys_set_new k v m : has k m = false -> keys (set k v m) = keys m ++ [k].
Proof.
  unfold has, keys. induction m as [|[k0 v0] m IH]; simpl; [reflexivity|].
  string_cases k0 k. intros Hg. now rewrite IH.
Qed.

Lemma keys_set k v m :
  keys (set k v m) = if has k m then keys m else keys m ++ [k].
Proof.
  destruct (has k m) eqn:E; [now apply keys_set_old | now apply keys_set_new].
Qed.

Lemma In_keys_set k k' v m :
  In k' (keys (set k v m)) <-> k' = k \/ In k' (keys m).
Proof.
  rewrite <- !has_In, has_set, orb_true_iff, String.eqb_eq.
  split; intros [|]; auto.
Qed.

Lemma keys_delete k m :
  keys (delete k m) = filter (fun k' => negb (String.eqb k' k)) (keys m).
Proof.
  unfold keys, delete. induction m as [|[k0 v0] m IH]; simpl; [reflexivity|].
  destruct (String.eqb k0 k); simpl; now rewrite IH.
Qed.

Lemma size_keys m : size m = length (keys m).
Proof. unfold size, keys. now rewrite length_map. Qed.

Lemma size_set k v m :
  size (set k v m) = if has k m then size m else S (size m).
Proof.
  rewrite !size_keys, keys_set. destruct (has k m); [reflexivity|].
  rewrite length_app. simpl. lia.
Qed.

Lemma NoDup_keys_set k v m : NoDup (keys m) -> NoDup (keys (set k v m)).
Proof.
  intros Hnd. rewrite keys_set. destruct (has k m) eqn:E; [assumption|].
  apply has_false_In in E.
  apply NoDup_app; [assumption | repeat constructor; intros [] | ].
  intros x Hx [<-|[]]. contradiction.
Qed.

Lemma NoDup_keys_delete k m : NoDup (keys m) -> NoDup (keys (delete k m)).
Proof. intros Hnd. rewrite keys_delete. now apply NoDup_filter. Qed.

Lemma In_keys_delete k k' m :
  In k' (keys (delete k m)) <-> k' <> k /\ In k' (keys m).
Proof.
  rewrite keys_delete, filter_In, negb_true_iff, String.eqb_neq. tauto.
Qed.

Lemma set_same k v m : get k m = Some v -> set k v m = m.
Proof.
  induction m as [|[k0 v0] m IH]; simpl; [discriminate|].
  string_cases k0 k. intros Hg. now rewrite IH.
Qed.

Lemma set_set k v v' m : set k v (set k v' m) = set k v m.
Proof.
  induction m as [|[k0 v0] m IH]; simpl.
  - now rewrite String.eqb_refl.
  - string_cases k0 k.
Qed.

Lemma delete_absent k m : has k m = false -> delete k m = m.
Proof.
  unfold has, delete. induction m as [|[k0 v0] m IH]; simpl; [reflexivity|].
  string_cases k0 k. intros Hg. now rewrite IH.
Qed.

Lemma get_adjust (f : V -> V) k k' m :
  get k' (adjust f k m) =
  if String.eqb k k' then option_map f (get k' m) else get k' m.
Proof.
  unfold adjust. destruct (get k m) as [v|] eqn:E.
  - rewrite get_set. string_cases k k'. now rewrite E.
  - string_cases k k'. now rewrite E.
Qed.

Lemma keys_adjust (f : V -> V) k m : keys (adjust f k m) = keys m.
Proof.
  unfold adjust. destruct (get k m) as [v|] eqn:E; [|reflexivity].
  apply keys_set_old. unfold has. now rewrite E.
Qed.

Lemma has_adjust (f : V -> V) k k' m : has k' (adjust f k m) = has k' m.
Proof.
  unfold has. rewrite get_adjust.
  destruct (String.eqb k k'); [|reflexivity]. now destruct (get k' m).
Qed.

Lemma get_fold_adjust {A : Type} (f : V -> V) (key : A -> string)
  (l : list A) m k :
  (forall v, f (f v) = f v) ->
  get k (fold_left (fun m a => adjust f (key a) m) l m) =
  if existsb (fun a => String.eqb (key a) k) l
  then option_map f (get k m) else get k m.
Proof.
  intros Hf. revert m. induction l as [|a l IH]; intros m; simpl.
  - reflexivity.
  - rewrite IH, get_adjust.
    destruct (String.eqb (key a) k); simpl.
    + destruct (get k m) as [v|]; simpl.
      * rewrite Hf. now destruct (existsb _ l).
      * now destruct (existsb _ l).
    + reflexivity.
Qed.

Lemma keys_fold_adjust {A : Type} (f : V -> V) (key : A -> string)
  (l : list A) m :
  keys (fold_left (fun m a => adjust f (key a) m) l m) = keys m.
Proof.
  revert m. induction l as [|a l IH]; intros m; simpl.
  - reflexivity.
  - now rewrite IH, keys_adjust.
Qed.

(** The slot a node is given when it has none. *)
Lemma get_ensure k k' (d : V) m :
  get k' (if has k m then m else set k d m) =
  if String.eqb k k' && negb (has k m) then Some d else get k' m.
Proof.
  destruct (has k m) eqn:E; simpl.
  - now rewrite andb_false_r.
  - rewrite get_set, andb_true_r. reflexivity.
Qed.

Lemma In_keys_ensure k k' (d : V) m :
  In k' (keys (if has k m then m else set k d m)) <->
  k' = k \/ In k' (keys m).
Proof.
  destruct (has k m) eqn:E.
  - apply has_In in E. split; [auto | intros [-> |]; assumption].
  - apply In_keys_set.
Qed.

Lemma NoDup_keys_ensure k (d : V) m :
  NoDup (keys m) -> NoDup (keys (if has k m then m else set k d m)).
Proof.
  intros Hnd. destruct (has k m); [assumption | now apply NoDup_keys_set].
Qed.

Lemma exists_ensure k k' (d : V) m (P : V -> Prop) :
  ~ P d ->
  (exists v, get k' (if has k m then m else set k d m) = Some v /\ P v) <->
  (exists v, get k' m = Some v /\ P v).
Proof.
  intros Hd. rewrite get_ensure.
  destruct (String.eqb k k' && negb (has k m)) eqn:C; [|reflexivity].
  apply andb_true_iff in C. destruct C as [E1 E2].
  apply String.eqb_eq in E1. subst k'.
  apply negb_true_iff in E2. unfold has in E2.
  split; intros [v [E HP]].
  - inversion E. subst v. contradiction.
  - rewrite E in E2. discriminate.
Qed.

Lemma set_absent k v m : ~ In k (keys m) -> set k v m = m ++ [(k, v)].
Proof.
  unfold keys. induction m as [|[k0 v0] m IH]; simpl; [reflexivity|].
  intros Hn. string_cases k0 k.
  - exfalso. apply Hn. now left.
  - rewrite IH; [reflexivity | tauto].
Qed.

(** A map filled key by key, as a loop over [keys()] does. *)
Lemma In_keys_fold_set (f : string -> V) (l : list string) m k :
  In k (keys (fold_left (fun m k => set k (f k) m) l m)) <->
  In k l \/ In k (keys m).
Proof.
  revert m. induction l as [|a l IH]; intros m; simpl; [tauto|].
  rewrite IH, In_keys_set. intuition congruence.
Qed.

Lemma NoDup_keys_fold_set (f : string -> V) (l : list string) m :
  NoDup (keys m) -> NoDup (keys (fold_left (fun m k => set k (f k) m) l m)).
Proof.
  revert m. induction l as [|a l IH]; intros m Hnd; simpl; [assumption|].
  apply IH. now apply NoDup_keys_set.
Qed.

Lemma get_fold_set (f : string -> V) (l : list string) m k :
  get k (fold_left (fun m k => set k (f k) m) l m) =
  if existsb (String.eqb k) l then Some (f k) else get k m.
Proof.
  revert m. induction l as [|a l IH]; intros m; simpl; [reflexivity|].
  rewrite IH, get_set. rewrite (String.eqb_sym k a).
  string_cases a k. now destruct (existsb _ l).
Qed.

Lemma fold_set_fresh (f : string -> V) (l : list string) m :
  NoDup (keys m ++ l) ->
  fold_left (fun m k => set k (f k) m) l m = m ++ map (fun k => (k, f k)) l.
Proof.
  revert m. induction l as [|a l IH]; intros m Hnd; simpl.
  - now rewrite app_nil_r.
  - assert (Ha : ~ In a (keys m)).
    { intros Hin. apply NoDup_remove_2 in Hnd. apply Hnd.
      apply in_or_app. now left. }
    rewrite set_absent by assumption. rewrite IH.
    + now rewrite <- app_assoc.
    + unfold keys in *. rewrite map_app. simpl. rewrite <- app_assoc. exact Hnd.
Qed.

End Facts.
End JsMapFacts.

Module JsSetFacts.
Import JsSet.

Lemma mem_In x s : has x s = true <-> In x s.
Proof.
  unfold has. rewrite existsb_exists. split.
  - intros [y [Hy E]]. apply String.eqb_eq in E. now subst.
  - intros Hx. exists x. split; [assumption | apply String.eqb_refl].
Qed.

Lemma mem_false_In x s : has x s = false <-> ~ In x s.
Proof. rewrite <- mem_In. destruct (has x s); split; congruence. Qed.

Lemma In_add x y s : In y (add x s) <-> y = x \/ In y s.
Proof.
  unfold add. destruct (has x s) eqn:E.
  - apply mem_In in E. split; [auto | intros [-> |]; assumption].
  - rewrite in_app_iff. simpl. split; intros [|]; auto.
    + destruct H as [|[]]; auto.
Qed.

Lemma NoDup_add x s : NoDup s -> NoDup (add x s).
Proof.
  intros Hnd. unfold add. destruct (has x s) eqn:E; [assumption|].
  apply mem_false_In in E.
  apply NoDup_app; [assumption | repeat constructor; intros [] | ].
  intros y Hy [<-|[]]. contradiction.
Qed.

Lemma In_delete x y s : In y (delete x s) <-> y <> x /\ In y s.
Proof.
  unfold delete. rewrite filter_In, negb_true_iff, String.eqb_neq. tauto.
Qed.

Lemma NoDup_delete x s : NoDup s -> NoDup (delete x s).
Proof. intros Hnd. now apply NoDup_filter. Qed.

Lemma add_present x s : In x s -> add x s = s.
Proof. intros Hin. unfold add. apply mem_In in Hin. now rewrite Hin. Qed.

Lemma delete_not_In x s : ~ In x s -> delete x s = s.
Proof.
  unfold delete. induction s as [|y s IH]; simpl; [reflexivity|].
  intros Hn. string_cases y x.
  - exfalso. apply Hn. now left.
  - rewrite IH; [reflexivity | tauto].
Qed.

End JsSetFacts.

(** ** The graph store keeps its invariants *)

Section StoreFacts.
Variable R : Type.
Context `{JsNumber R}.
Implicit Types g : MemoryGraph R.
Import JsMapFacts.

Lemma wf_newGraph cfg : wf (newGraph (R := R) cfg).
Proof.
  constructor; simpl; try (constructor; fail); try tauto;
    try discriminate.
  - intros s t [l [E _]]. discriminate.
  - intros s t. split; intros [l [E _]]; discriminate.
Qed.

Lemma addNode_rejected entry g : rejects entry g = true -> addNode entry g = g.
Proof. unfold rejects, addNode. now intros ->. Qed.

Lemma addNode_accepted entry g :
  rejects entry g = false ->
  addNode entry g = {|
    nodes := JsMap.set (entry_id entry) (nodeOfEntry entry) (nodes g);
    edges :=
      if JsMap.has (entry_id entry) (edges g) then edges g
      else JsMap.set (entry_id entry) [] (edges g);
    reverseEdges :=
      if JsMap.has (entry_id entry) (reverseEdges g) then reverseEdges g
      else JsMap.set (entry_id entry) JsSet.empty (reverseEdges g);
    pageRanks := pageRanks g;
    communities := communities g;
    config := config g;
    dirty := true;
    emitted := emitted g
  |}.
Proof. unfold rejects, addNode. now intros ->. Qed.

Lemma edgeTo_addNode entry g s t :
  edgeTo (addNode entry g) s t <-> edgeTo g s t.
Proof.
  destruct (rejects entry g) eqn:C.
  - now rewrite addNode_rejected.
  - rewrite addNode_accepted by assumption. unfold edgeTo. simpl.
    apply (exists_ensure (entry_id entry) s [] (edges g)
             (fun l => In t (targets l))).
    simpl. tauto.
Qed.

Lemma inReverse_addNode entry g s t :
  inReverse (addNode entry g) s t <-> inReverse g s t.
Proof.
  destruct (rejects entry g) eqn:C.
  - now rewrite addNode_rejected.
  - rewrite addNode_accepted by assumption. unfold inReverse. simpl.
    apply (exists_ensure (entry_id entry) t JsSet.empty (reverseEdges g)
             (fun l => In s l)).
    simpl. tauto.
Qed.

Lemma wf_addNode entry g : wf g -> wf (addNode entry g).
Proof.
  intros W. destruct (rejects entry g) eqn:C.
  { now rewrite addNode_rejected. }
  constructor.
  9: { intros s t Hst. apply edgeTo_addNode in Hst.
       rewrite addNode_accepted by assumption. simpl.
       apply In_keys_set. right. now apply (wf_targets_nodes W Hst). }
  10: { intros s t. rewrite inReverse_addNode, edgeTo_addNode. apply W. }
  all: rewrite addNode_accepted by assumption; simpl.
  - apply NoDup_keys_set, W.
  - apply NoDup_keys_ensure, W.
  - apply NoDup_keys_ensure, W.
  - apply W.
  - intros k. rewrite In_keys_ensure, In_keys_set, (wf_edges_dom W). tauto.
  - intros k. rewrite In_keys_ensure, In_keys_set, (wf_reverse_dom W). tauto.
  - intros k Hk. apply In_keys_set. right. now apply (wf_ranks_dom W).
  - intros s l. rewrite get_ensure.
    destruct (_ && _); [intros [= <-]; constructor | apply (wf_targets_nodup W)].
  - intros t s. rewrite get_ensure.
    destruct (_ && _); [intros [= <-]; constructor | apply (wf_sources_nodup W)].
Qed.

Lemma find_target_None t0 (l : list (GraphEdge R)) :
  find (fun e => String.eqb (edge_targetId e) t0) l = None <->
  ~ In t0 (targets l).
Proof.
  induction l as [|e l IH]; simpl; [tauto|].
  string_cases (edge_targetId e) t0.
  - split; [discriminate | intros Hn; exfalso; auto].
  - rewrite IH. tauto.
Qed.

Lemma existsb_target t0 (l : list (GraphEdge R)) :
  existsb (fun e => String.eqb (edge_targetId e) t0) l = true <->
  In t0 (targets l).
Proof.
  induction l as [|e l IH]; simpl; [split; [discriminate | tauto]|].
  string_cases (edge_targetId e) t0.
  - split; auto.
  - rewrite IH. tauto.
Qed.

Lemma targets_raiseWeight t0 w (l : list (GraphEdge R)) :
  targets (raiseWeight t0 w l) = targets l.
Proof.
  induction l as [|e l IH]; simpl; [reflexivity|].
  destruct (String.eqb (edge_targetId e) t0); simpl; [reflexivity|].
  now rewrite IH.
Qed.

Lemma targets_upsertEdge t0 ty w (l : list (GraphEdge R)) :
  targets (upsertEdge t0 ty w l) =
  if existsb (fun e => String.eqb (edge_targetId e) t0) l then targets l
  else targets l ++ [t0].
Proof.
  unfold upsertEdge.
  destruct (find _ l) as [e|] eqn:F.
  - rewrite targets_raiseWeight.
    destruct (existsb _ l) eqn:X; [reflexivity|].
    assert (Hin : In t0 (targets l)).
    { destruct (in_dec string_dec t0 (targets l)) as [|Hn]; [assumption|].
      apply find_target_None in Hn. congruence. }
    apply existsb_target in Hin. congruence.
  - apply find_target_None in F.
    destruct (existsb _ l) eqn:X.
    + apply existsb_target in X. contradiction.
    + unfold targets. now rewrite map_app.
Qed.

Lemma In_targets_upsertEdge t t0 ty w (l : list (GraphEdge R)) :
  In t (targets (upsertEdge t0 ty w l)) <-> In t (targets l) \/ t = t0.
Proof.
  rewrite targets_upsertEdge. destruct (existsb _ l) eqn:X.
  - apply existsb_target in X. split; [auto | intros [| ->]; assumption].
  - rewrite in_app_iff. simpl. split; intros [|]; auto.
    destruct H0 as [|[]]; auto.
Qed.

Lemma NoDup_targets_upsertEdge t0 ty w (l : list (GraphEdge R)) :
  NoDup (targets l) -> NoDup (targets (upsertEdge t0 ty w l)).
Proof.
  intros Hnd. rewrite targets_upsertEdge. destruct (existsb _ l) eqn:X.
  - assumption.
  - assert (Hn : ~ In t0 (targets l)).
    { intros Hin. apply existsb_target in Hin. congruence. }
    apply NoDup_app; [assumption | repeat constructor; intros [] | ].
    intros y Hy [<-|[]]. contradiction.
Qed.

Lemma addEdge_skipped s0 t0 ty w g :
  skips s0 t0 g = true -> addEdge s0 t0 ty w g = g.
Proof. unfold skips, addEdge. now intros ->. Qed.

Lemma addEdge_accepted s0 t0 ty w g :
  skips s0 t0 g = false ->
  addEdge s0 t0 ty w g = {|
    nodes := nodes g;
    edges :=
      JsMap.set s0
        (upsertEdge t0 ty w (spread [] (JsMap.get s0 (edges g)))) (edges g);
    reverseEdges :=
      JsMap.adjust (JsSet.add s0) t0
        (if JsMap.has t0 (reverseEdges g) then reverseEdges g
         else JsMap.set t0 JsSet.empty (reverseEdges g));
    pageRanks := pageRanks g;
    communities := communities g;
    config := config g;
    dirty := true;
    emitted := emitted g
  |}.
Proof. unfold skips, addEdge. now intros ->. Qed.

Lemma skips_false s0 t0 g :
  skips s0 t0 g = false <->
  In s0 (JsMap.keys (nodes g)) /\ In t0 (JsMap.keys (nodes g)).
Proof.
  unfold skips. rewrite orb_false_iff, !negb_false_iff, !has_In. tauto.
Qed.

Lemma edgeTo_addEdge s0 t0 ty w g s t :
  skips s0 t0 g = false ->
  edgeTo (addEdge s0 t0 ty w g) s t <-> edgeTo g s t \/ (s = s0 /\ t = t0).
Proof.
  intros C. rewrite addEdge_accepted by assumption. unfold edgeTo. simpl.
  rewrite get_set. string_cases s0 s.
  - split.
    + intros [l [[= <-] Hin]]. apply In_targets_upsertEdge in Hin.
      destruct Hin as [Hin| ->]; [left | now right].
      destruct (JsMap.get s (edges g)) as [l|]; [|contradiction].
      now exists l.
    + intros Hor. eexists. split; [reflexivity|].
      apply In_targets_upsertEdge.
      destruct Hor as [[l [-> Hin]]|[_ ->]]; [now left | now right].
  - split; [auto | intros [|[]]; [assumption | congruence]].
Qed.

Lemma inReverse_addEdge s0 t0 ty w g s t :
  skips s0 t0 g = false ->
  inReverse (addEdge s0 t0 ty w g) s t <->
  inReverse g s t \/ (s = s0 /\ t = t0).
Proof.
  intros C. rewrite addEdge_accepted by assumption. unfold inReverse. simpl.
  rewrite get_adjust, get_ensure. string_cases t0 t.
  - destruct (negb (JsMap.has t (reverseEdges g))) eqn:X; simpl.
    + apply negb_true_iff in X. unfold JsMap.has in X.
      destruct (JsMap.get t (reverseEdges g)); [discriminate|].
      split.
      * intros [l [[= <-] Hin]]. apply JsSetFacts.In_add in Hin.
        destruct Hin as [-> |[]]. now right.
      * intros [[l [[=] _]]|[-> _]]. eexists. split; [reflexivity|].
        apply JsSetFacts.In_add. now left.
    + destruct (JsMap.get t (reverseEdges g)) as [l|] eqn:G; simpl.
      * split.
        -- intros [l' [[= <-] Hin]]. apply JsSetFacts.In_add in Hin.
           destruct Hin as [-> |Hin]; [now right | left; now exists l].
        -- intros Hor. eexists. split; [reflexivity|].
           apply JsSetFacts.In_add.
           destruct Hor as [[l' [[= <-] Hin]]|[-> _]]; [now right | now left].
      * apply negb_false_iff in X. unfold JsMap.has in X.
        rewrite G in X. discriminate.
  - split; [auto | intros [|[]]; [assumption | congruence]].
Qed.

Lemma wf_addEdge s0 t0 ty w g : wf g -> wf (addEdge s0 t0 ty w g).
Proof.
  intros W. destruct (skips s0 t0 g) eqn:C.
  { now rewrite addEdge_skipped. }
  pose proof C as [Hs0 Ht0]%skips_false.
  constructor.
  9: { intros s t Hst. apply edgeTo_addEdge in Hst; [|assumption].
       rewrite addEdge_accepted by assumption. simpl.
       destruct Hst as [Hst|[_ ->]];
         [now apply (wf_targets_nodes W Hst) | assumption]. }
  10: { intros s t.
        rewrite inReverse_addEdge, edgeTo_addEdge by assumption.
        now rewrite (wf_reverse_index W). }
  all: rewrite addEdge_accepted by assumption; simpl.
  - apply W.
  - apply NoDup_keys_set, W.
  - rewrite keys_adjust. apply NoDup_keys_ensure, W.
  - apply W.
  - intros k. rewrite In_keys_set, (wf_edges_dom W).
    split; [intros [-> |]; assumption | auto].
  - intros k. rewrite keys_adjust, In_keys_ensure, (wf_reverse_dom W).
    split; [intros [-> |]; assumption | auto].
  - apply (wf_ranks_dom W).
  - intros s l. rewrite get_set. string_cases s0 s.
    + intros [= <-]. apply NoDup_targets_upsertEdge.
      destruct (JsMap.get s (edges g)) as [l|] eqn:G; simpl;
        [apply (wf_targets_nodup W _ G) | constructor].
    + apply (wf_targets_nodup W).
  - intros t s. rewrite get_adjust, get_ensure. string_cases t0 t.
    + destruct (negb (JsMap.has t (reverseEdges g))); simpl.
      * intros [= <-]. apply JsSetFacts.NoDup_add. constructor.
      * destruct (JsMap.get t (reverseEdges g)) as [l|] eqn:G; simpl;
          [|discriminate].
        intros [= <-]. apply JsSetFacts.NoDup_add.
        apply (wf_sources_nodup W _ G).
    + apply (wf_sources_nodup W).
Qed.

(** *** Removal *)

Lemma filter_idem {A : Type} (p : A -> bool) (l : list A) :
  filter p (filter p l) = filter p l.
Proof.
  induction l as [|a l IH]; simpl; [reflexivity|].
  destruct (p a) eqn:E; simpl; rewrite ?E, IH; reflexivity.
Qed.

Lemma targets_dropTarget x (l : list (GraphEdge R)) :
  targets (dropTarget x l) =
  filter (fun t => negb (String.eqb t x)) (targets l).
Proof.
  unfold dropTarget, targets. induction l as [|e l IH]; simpl; [reflexivity|].
  destruct (String.eqb (edge_targetId e) x); simpl; now rewrite IH.
Qed.

Lemma In_targets_dropTarget x t (l : list (GraphEdge R)) :
  In t (targets (dropTarget x l)) <-> t <> x /\ In t (targets l).
Proof.
  rewrite targets_dropTarget, filter_In, negb_true_iff, String.eqb_neq. tauto.
Qed.

Lemma dropTarget_absent x (l : list (GraphEdge R)) :
  ~ In x (targets l) -> dropTarget x l = l.
Proof.
  unfold dropTarget, targets. induction l as [|e l IH]; simpl; [reflexivity|].
  intros Hn. string_cases (edge_targetId e) x.
  - exfalso. apply Hn. now left.
  - rewrite IH; [reflexivity | tauto].
Qed.

Lemma existsb_eqb_In s (l : list string) :
  existsb (fun a => String.eqb a s) l = true <-> In s l.
Proof.
  rewrite existsb_exists. split.
  - intros [y [Hy E]]. apply String.eqb_eq in E. now subst.
  - intros Hx. exists s. split; [assumption | apply String.eqb_refl].
Qed.

Lemma get_unlinkTargets x (out : list (GraphEdge R)) rev t :
  JsMap.get t (unlinkTargets x out rev) =
  if existsb (fun e => String.eqb (edge_targetId e) t) out
  then option_map (JsSet.delete x) (JsMap.get t rev)
  else JsMap.get t rev.
Proof.
  unfold unlinkTargets.
  apply (get_fold_adjust (JsSet.delete x) (@edge_targetId R)).
  intros v. apply filter_idem.
Qed.

Lemma get_unlinkSources x (inc : JsSet.t) (es : JsMap.t (list (GraphEdge R))) s :
  JsMap.get s (unlinkSources x inc es) =
  if existsb (fun a => String.eqb a s) inc
  then option_map (dropTarget x) (JsMap.get s es)
  else JsMap.get s es.
Proof.
  unfold unlinkSources.
  apply (get_fold_adjust (dropTarget x) (fun a : string => a)).
  intros v. apply filter_idem.
Qed.

Lemma removeNode_missing x g :
  JsMap.has x (nodes g) = false -> removeNode x g = g.
Proof. unfold removeNode. now intros ->. Qed.

Lemma removeNode_present x g :
  JsMap.has x (nodes g) = true ->
  removeNode x g = {|
    nodes := JsMap.delete x (nodes g);
    edges :=
      match JsMap.get x
              (unlinkTargets x (spread [] (JsMap.get x (edges g)))
                 (reverseEdges g)) with
      | Some incoming => unlinkSources x incoming (JsMap.delete x (edges g))
      | None => JsMap.delete x (edges g)
      end;
    reverseEdges :=
      JsMap.delete x
        (unlinkTargets x (spread [] (JsMap.get x (edges g))) (reverseEdges g));
    pageRanks := JsMap.delete x (pageRanks g);
    communities := JsMap.delete x (communities g);
    config := config g;
    dirty := true;
    emitted := emitted g
  |}.
Proof. unfold removeNode. now intros ->. Qed.

(** In a well-formed graph the first loop clears [x] from every reverse
    set. *)
Lemma get_unlinkTargets_wf x g t :
  wf g ->
  JsMap.get t
    (unlinkTargets x (spread [] (JsMap.get x (edges g))) (reverseEdges g)) =
  option_map (JsSet.delete x) (JsMap.get t (reverseEdges g)).
Proof.
  intros W. rewrite get_unlinkTargets.
  destruct (existsb _ _) eqn:X; [reflexivity|].
  destruct (JsMap.get t (reverseEdges g)) as [s|] eqn:G; [|reflexivity].
  simpl. f_equal. symmetry. apply JsSetFacts.delete_not_In. intros Hin.
  assert (Hr : inReverse g x t) by (now exists s).
  apply (wf_reverse_index W) in Hr. destruct Hr as [l [E Hl]].
  rewrite E in X. simpl in X.
  apply existsb_target in Hl. congruence.
Qed.

(** In a well-formed graph the second loop clears [x] from every edge
    list. *)
Lemma get_edges_removeNode x g s :
  wf g -> JsMap.has x (nodes g) = true ->
  JsMap.get s (edges (removeNode x g)) =
  if String.eqb x s then None
  else option_map (dropTarget x) (JsMap.get s (edges g)).
Proof.
  intros W Hx. rewrite removeNode_present by assumption. simpl.
  rewrite get_unlinkTargets_wf by assumption.
  destruct (JsMap.get x (reverseEdges g)) as [inc|] eqn:G; simpl.
  - rewrite get_unlinkSources, get_delete.
    string_cases x s.
    + now destruct (existsb _ _).
    + destruct (existsb _ _) eqn:X; [reflexivity|].
      destruct (JsMap.get s (edges g)) as [l|] eqn:E; [|reflexivity].
      simpl. f_equal. symmetry. apply dropTarget_absent. intros Hin.
      assert (He : edgeTo g s x) by (now exists l).
      apply (wf_reverse_index W) in He. destruct He as [inc' [G' Hs]].
      rewrite G in G'. injection G' as <-.
      assert (Hd : In s (JsSet.delete x inc)).
      { apply JsSetFacts.In_delete. split; [congruence | assumption]. }
      apply existsb_eqb_In in Hd. congruence.
  - apply has_In, (wf_reverse_dom W), In_get in Hx.
    destruct Hx as [v Hv]. congruence.
Qed.

Lemma get_reverse_removeNode x g t :
  wf g -> JsMap.has x (nodes g) = true ->
  JsMap.get t (reverseEdges (removeNode x g)) =
  if String.eqb x t then None
  else option_map (JsSet.delete x) (JsMap.get t (reverseEdges g)).
Proof.
  intros W Hx. rewrite removeNode_present by assumption. simpl.
  rewrite get_delete, get_unlinkTargets_wf by assumption. reflexivity.
Qed.

Lemma edgeTo_removeNode x g s t :
  wf g -> JsMap.has x (nodes g) = true ->
  edgeTo (removeNode x g) s t <-> s <> x /\ t <> x /\ edgeTo g s t.
Proof.
  intros W Hx. unfold edgeTo. setoid_rewrite get_edges_removeNode; try assumption.
  string_cases x s.
  - split; [intros [l [[=] _]] | tauto].
  - split.
    + intros [l [E Hin]].
      destruct (JsMap.get s (edges g)) as [l0|]; [|discriminate].
      injection E as <-. apply In_targets_dropTarget in Hin.
      repeat split; try tauto; try congruence. exists l0. tauto.
    + intros [_ [Ht [l [-> Hin]]]]. eexists. split; [reflexivity|].
      apply In_targets_dropTarget. tauto.
Qed.

Lemma inReverse_removeNode x g s t :
  wf g -> JsMap.has x (nodes g) = true ->
  inReverse (removeNode x g) s t <-> s <> x /\ t <> x /\ inReverse g s t.
Proof.
  intros W Hx. unfold inReverse.
  setoid_rewrite get_reverse_removeNode; try assumption.
  string_cases x t.
  - split; [intros [l [[=] _]] | tauto].
  - split.
    + intros [l [E Hin]].
      destruct (JsMap.get t (reverseEdges g)) as [l0|]; [|discriminate].
      injection E as <-. apply JsSetFacts.In_delete in Hin.
      repeat split; try tauto; try congruence. exists l0. tauto.
    + intros [Hs [_ [l [-> Hin]]]]. eexists. split; [reflexivity|].
      apply JsSetFacts.In_delete. tauto.
Qed.

Lemma keys_edges_removeNode x g :
  JsMap.has x (nodes g) = true ->
  JsMap.keys (edges (removeNode x g)) = JsMap.keys (JsMap.delete x (edges g)).
Proof.
  intros Hx. rewrite removeNode_present by assumption. simpl.
  destruct (JsMap.get x _); [|reflexivity].
  apply keys_fold_adjust.
Qed.

Lemma keys_reverse_removeNode x g :
  JsMap.has x (nodes g) = true ->
  JsMap.keys (reverseEdges (removeNode x g)) =
  JsMap.keys (JsMap.delete x (reverseEdges g)).
Proof.
  intros Hx. rewrite removeNode_present by assumption. simpl.
  rewrite !keys_delete. f_equal. apply keys_fold_adjust.
Qed.

Lemma wf_removeNode x g : wf g -> wf (removeNode x g).
Proof.
  intros W. destruct (JsMap.has x (nodes g)) eqn:Hx.
  2: { now rewrite removeNode_missing. }
  constructor.
  - rewrite removeNode_present by assumption. simpl.
    apply NoDup_keys_delete, W.
  - rewrite keys_edges_removeNode by assumption. apply NoDup_keys_delete, W.
  - rewrite keys_reverse_removeNode by assumption. apply NoDup_keys_delete, W.
  - rewrite removeNode_present by assumption. simpl.
    apply NoDup_keys_delete, W.
  - intros k. rewrite keys_edges_removeNode by assumption.
    rewrite removeNode_present by assumption. simpl.
    now rewrite !In_keys_delete, (wf_edges_dom W).
  - intros k. rewrite keys_reverse_removeNode by assumption.
    rewrite removeNode_present by assumption. simpl.
    now rewrite !In_keys_delete, (wf_reverse_dom W).
  - intros k. rewrite removeNode_present by assumption. simpl.
    rewrite !In_keys_delete. intros [Hk Hin]. split; [assumption|].
    now apply (wf_ranks_dom W).
  - intros s l. rewrite get_edges_removeNode by assumption.
    destruct (String.eqb x s); [discriminate|].
    destruct (JsMap.get s (edges g)) as [l0|] eqn:E; [|discriminate].
    intros [= <-]. rewrite targets_dropTarget. apply NoDup_filter.
    apply (wf_targets_nodup W _ E).
  - intros s t Hst. apply edgeTo_removeNode in Hst; try assumption.
    destruct Hst as [_ [Ht Hst]].
    rewrite removeNode_present by assumption. simpl.
    apply In_keys_delete. split; [assumption|].
    apply (wf_targets_nodes W Hst).
  - intros t s. rewrite get_reverse_removeNode by assumption.
    destruct (String.eqb x t); [discriminate|].
    destruct (JsMap.get t (reverseEdges g)) as [l0|] eqn:E; [|discriminate].
    intros [= <-]. apply JsSetFacts.NoDup_delete.
    apply (wf_sources_nodup W _ E).
  - intros s t.
    rewrite inReverse_removeNode, edgeTo_removeNode by assumption.
    now rewrite (wf_reverse_index W).
Qed.

End StoreFacts.

(** ** Every operation keeps the invariants *)

Section OperationFacts.
Variable R : Type.
Context `{JsNumber R}.
Implicit Types g : MemoryGraph R.
Import JsMapFacts.

Lemma wf_same_store g g' :
  nodes g' = nodes g -> edges g' = edges g ->
  reverseEdges g' = reverseEdges g -> pageRanks g' = pageRanks g ->
  wf g -> wf g'.
Proof.
  intros En Ee Er Ep W. destruct W.
  constructor; unfold edgeTo, inReverse in *; rewrite ?En, ?Ee, ?Er, ?Ep;
    assumption.
Qed.

Lemma wf_set_dirty b g : wf g -> wf (set_dirty b g).
Proof. now apply wf_same_store. Qed.

Lemma wf_emit e g : wf g -> wf (emit e g).
Proof. now apply wf_same_store. Qed.

Lemma wf_set_pageRanks ranks g :
  wf g -> NoDup (JsMap.keys ranks) ->
  (forall k, In k (JsMap.keys ranks) -> In k (JsMap.keys (nodes g))) ->
  wf (set_pageRanks ranks g).
Proof.
  intros W Hnd Hdom. destruct W.
  constructor; unfold edgeTo, inReverse in *; simpl; assumption.
Qed.

Lemma wf_addNodes entries g : wf g -> wf (addNodes entries g).
Proof.
  unfold addNodes. revert g.
  induction entries as [|e entries IH]; intros g W; simpl; [assumption|].
  now apply IH, wf_addNode.
Qed.

Lemma wf_addReferenceEdges entries g :
  wf g -> wf (addReferenceEdges entries g).
Proof.
  unfold addReferenceEdges. revert g.
  induction entries as [|e entries IH]; intros g W; simpl; [assumption|].
  apply IH. clear IH. generalize (entry_references e). intros refs.
  revert g W. induction refs as [|r refs IHr]; intros g W; simpl;
    [assumption|].
  now apply IHr, wf_addEdge.
Qed.

Lemma wf_buildFromBackend backend namespace g :
  wf g -> wf (fst (buildFromBackend backend namespace g)).
Proof.
  intros W. unfold buildFromBackend.
  destruct (backend_query _ _ _); simpl; [|assumption].
  now apply wf_emit, wf_set_dirty, wf_addReferenceEdges, wf_addNodes.
Qed.

Lemma wf_similarityStep entryId st result :
  wf (fst st) -> wf (fst (similarityStep entryId st result)).
Proof.
  destruct st as [g added]. simpl. intros W.
  destruct (String.eqb _ entryId); [assumption|].
  destruct (num_ge _ _); [|assumption].
  simpl. now apply wf_addEdge.
Qed.

Lemma wf_addSimilarityEdges backend entryId g :
  wf g -> wf (fst (addSimilarityEdges backend entryId g)).
Proof.
  intros W. unfold addSimilarityEdges.
  destruct (backend_get _ _) as [[entry|]|]; simpl; try assumption.
  destruct (entry_embedding entry); simpl; try assumption.
  destruct (backend_search _ _ _ _) as [results|]; simpl; try assumption.
  assert (Hfold : forall st, wf (fst st) ->
            wf (fst (fold_left (similarityStep entryId) results st))).
  { induction results as [|r results IH]; intros st Wst; simpl; [assumption|].
    now apply IH, wf_similarityStep. }
  specialize (Hfold (g, 0) W).
  now destruct (fold_left _ results (g, 0)).
Qed.

Lemma fst_fold_left_pair {A B C : Type} (F : A -> C -> A) (G : A * B -> C -> B)
  (l : list C) (st : A * B) :
  fst (fold_left (fun st c => (F (fst st) c, G st c)) l st) =
  fold_left F l (fst st).
Proof.
  revert st. induction l as [|c l IH]; intros st; simpl; [reflexivity|].
  now rewrite IH.
Qed.

Lemma fst_pageRankSweep g ranks dangling :
  fst (pageRankSweep g ranks dangling) =
  fold_left
    (fun m k => JsMap.set k (newRankOf g ranks (danglingSum ranks dangling) k) m)
    (JsMap.keys (nodes g)) JsMap.empty.
Proof.
  unfold pageRankSweep.
  exact (fst_fold_left_pair
           (fun m k =>
              JsMap.set k (newRankOf g ranks (danglingSum ranks dangling) k) m)
           _ _ _).
Qed.

Lemma covers_pageRankSweep g ranks dangling :
  covers g (fst (pageRankSweep g ranks dangling)).
Proof.
  rewrite fst_pageRankSweep. split.
  - apply NoDup_keys_fold_set. constructor.
  - intros k. rewrite In_keys_fold_set. simpl. tauto.
Qed.

Lemma covers_initialRanks g : wf g -> covers g (initialRanks g).
Proof.
  intros W. unfold initialRanks. split.
  - apply NoDup_keys_fold_set, W.
  - intros k. rewrite In_keys_fold_set.
    split; [intros [|]; [assumption | now apply (wf_ranks_dom W)] | auto].
Qed.

Lemma covers_pageRankLoop g dangling fuel iter ranks :
  covers g ranks -> covers g (fst (pageRankLoop g dangling fuel iter ranks)).
Proof.
  revert iter ranks.
  induction fuel as [|fuel IH]; intros iter ranks C; simpl; [assumption|].
  pose proof (covers_pageRankSweep g ranks dangling) as C'.
  destruct (pageRankSweep g ranks dangling) as [newRanks maxDelta].
  destruct (num_lt _ _); [exact C' | now apply IH].
Qed.

Lemma wf_computePageRank g : wf g -> wf (fst (computePageRank g)).
Proof.
  intros W. unfold computePageRank.
  destruct (JsMap.size (nodes g) =? 0).
  - simpl. now apply wf_emit, wf_set_dirty.
  - pose proof (covers_pageRankLoop (danglingNodes g)
                  (pageRankIterations (config g)) 0 (covers_initialRanks W))
      as [Hnd Hdom].
    destruct (pageRankLoop _ _ _ _ _) as [ranks iterations]. simpl in *.
    apply wf_emit, wf_set_dirty, wf_set_pageRanks; try assumption.
    intros k. apply Hdom.
Qed.

Lemma wf_detectCommunities draws g :
  wf g -> wf (fst (detectCommunities draws g)).
Proof.
  intros W. unfold detectCommunities. simpl.
  apply wf_emit. revert W. now apply wf_same_store.
Qed.

Lemma wf_ensurePageRank g : wf g -> wf (ensurePageRank g).
Proof.
  intros W. unfold ensurePageRank.
  destruct (dirty g); [now apply wf_computePageRank | assumption].
Qed.

Lemma wf_step op g : wf g -> wf (step op g).
Proof.
  intros W. destruct op; simpl.
  - now apply wf_addNode.
  - now apply wf_addEdge.
  - now apply wf_removeNode.
  - now apply wf_buildFromBackend.
  - now apply wf_addSimilarityEdges.
  - now apply wf_computePageRank.
  - now apply wf_detectCommunities.
  - now apply wf_ensurePageRank.
  - now apply wf_ensurePageRank.
Qed.

Lemma wf_exec ops g : wf g -> wf (exec ops g).
Proof.
  unfold exec. revert g.
  induction ops as [|op ops IH]; intros g W; simpl; [assumption|].
  now apply IH, wf_step.
Qed.

(** Every state a program reaches from a new graph is well formed. *)
Lemma wf_reachable cfg ops : wf (exec ops (newGraph (R := R) cfg)).
Proof. apply wf_exec, wf_newGraph. Qed.

End OperationFacts.

(** ** What each operation leaves alone *)

Section FrameFacts.
Variable R : Type.
Context `{JsNumber R}.
Implicit Types g : MemoryGraph R.
Import JsMapFacts.

Lemma nodes_addEdge s t ty w g : nodes (addEdge s t ty w g) = nodes g.
Proof. unfold addEdge. now destruct (_ || _). Qed.

Lemma config_addNode e g : config (addNode e g) = config g.
Proof. unfold addNode. now destruct (_ && _). Qed.

Lemma config_addEdge s t ty w g : config (addEdge s t ty w g) = config g.
Proof. unfold addEdge. now destruct (_ || _). Qed.

Lemma config_removeNode x g : config (removeNode x g) = config g.
Proof. unfold removeNode. now destruct (negb _). Qed.

Lemma nodes_removeNode x g :
  nodes (removeNode x g) = JsMap.delete x (nodes g).
Proof.
  unfold removeNode. destruct (negb _) eqn:E; [|reflexivity].
  apply negb_true_iff in E. now rewrite delete_absent.
Qed.

(** A property of the node map and the configuration that the three
    mutators of the store keep is kept by every operation. *)
Lemma step_invariant (P : MemoryGraph R -> Prop) :
  (forall g g', nodes g' = nodes g -> config g' = config g -> P g -> P g') ->
  (forall e g, P g -> P (addNode e g)) ->
  (forall x g, P g -> P (removeNode x g)) ->
  forall op g, P g -> P (step op g).
Proof.
  intros Hframe Hadd Hrem.
  assert (Hedge : forall s t ty w g, P g -> P (addEdge s t ty w g)).
  { intros s t ty w g. apply Hframe;
      [apply nodes_addEdge | apply config_addEdge]. }
  assert (Hrank : forall g, P g -> P (fst (computePageRank g))).
  { intros g. apply Hframe; unfold computePageRank;
      destruct (_ =? 0); try reflexivity;
      now destruct (pageRankLoop _ _ _ _ _). }
  assert (Hensure : forall g, P g -> P (ensurePageRank g)).
  { intros g Pg. unfold ensurePageRank. destruct (dirty g); auto. }
  intros op g Pg. destruct op; simpl; auto.
  - unfold buildFromBackend. destruct (backend_query _ _ _); simpl; auto.
    apply (Hframe (addReferenceEdges a (addNodes a g))); try reflexivity.
    assert (Pn : P (addNodes a g)).
    { unfold addNodes. clear Hrank Hensure. revert g Pg.
      induction a as [|e a IH]; intros g Pg; simpl; auto. }
    unfold addReferenceEdges. revert Pn. generalize (addNodes a g).
    generalize a.
    intros es. induction es as [|e es IH]; intros g0 Pg0; simpl; auto.
    apply IH. generalize (entry_references e). intros refs.
    revert g0 Pg0. induction refs as [|r refs IHr]; intros g0 Pg0; simpl; auto.
  - unfold addSimilarityEdges.
    destruct (backend_get _ _) as [[entry|]|]; simpl; auto.
    destruct (entry_embedding entry); simpl; auto.
    destruct (backend_search _ _ _ _) as [results|]; simpl; auto.
    assert (Hfold : forall st, P (fst st) ->
              P (fst (fold_left (similarityStep entryId) results st))).
    { induction results as [|r results IH]; intros st Pst; simpl; auto.
      apply IH. destruct st as [g0 added]. simpl in *.
      destruct (String.eqb _ entryId); auto.
      destruct (num_ge _ _); simpl; auto. }
    specialize (Hfold (g, 0) Pg).
    now destruct (fold_left _ results (g, 0)).
  - now apply (Hframe g).
Qed.

Lemma exec_invariant (P : MemoryGraph R -> Prop) :
  (forall g g', nodes g' = nodes g -> config g' = config g -> P g -> P g') ->
  (forall e g, P g -> P (addNode e g)) ->
  (forall x g, P g -> P (removeNode x g)) ->
  forall ops g, P g -> P (exec ops g).
Proof.
  intros Hframe Hadd Hrem ops. unfold exec.
  induction ops as [|op ops IH]; intros g Pg; simpl; [assumption|].
  now apply IH, step_invariant.
Qed.

End FrameFacts.

(** ** Capacity, defaults and removal *)

Section StoreClaims.
Variable R : Type.
Context `{JsNumber R}.
Implicit Types g : MemoryGraph R.
Import JsMapFacts.

Lemma withinCapacity_addNode e g :
  withinCapacity g -> withinCapacity (addNode e g).
Proof.
  unfold withinCapacity. intros Hc. destruct (rejects e g) eqn:C.
  - now rewrite addNode_rejected.
  - rewrite addNode_accepted by assumption. simpl. rewrite size_set.
    unfold rejects in C. destruct (JsMap.has (entry_id e) (nodes g));
      [assumption|].
    rewrite andb_true_r in C. apply Nat.leb_gt in C. lia.
Qed.

Lemma size_delete {V : Type} k (m : JsMap.t V) :
  JsMap.size (JsMap.delete k m) <= JsMap.size m.
Proof. apply filter_length_le. Qed.

Lemma withinCapacity_removeNode x g :
  withinCapacity g -> withinCapacity (removeNode x g).
Proof.
  unfold withinCapacity. rewrite nodes_removeNode, config_removeNode.
  pose proof (size_delete x (nodes g)). lia.
Qed.

Lemma withinCapacity_exec ops g :
  withinCapacity g -> withinCapacity (exec ops g).
Proof.
  apply exec_invariant.
  - unfold withinCapacity. now intros g0 g' -> ->.
  - apply withinCapacity_addNode.
  - apply withinCapacity_removeNode.
Qed.

Lemma addNode_stores e g :
  rejects e g = false ->
  JsMap.get (entry_id e) (nodes (addNode e g)) = Some (nodeOfEntry e).
Proof.
  intros C. rewrite addNode_accepted by assumption. simpl. apply get_set_eq.
Qed.

Lemma rejects_present e g :
  JsMap.has (entry_id e) (nodes g) = true -> rejects e g = false.
Proof. unfold rejects. intros ->. apply andb_false_r. Qed.

(** C3: in every state reached from a new graph (by [addNode] calls or any
    other operation) the node count is at most [maxNodes]; an [addNode] of a
    new id at capacity returns the graph unchanged, whole; an [addNode] of an
    id already present is accepted whatever the count: the node is replaced
    in place, the key set is unchanged and the graph is marked dirty. *)
Theorem capacity_bound_and_gate :
  forall (cfg : option (MemoryGraphConfig R)) (ops : list (Op R)),
    let g := exec ops (newGraph cfg) in
    JsMap.size (nodes g) <= maxNodes (config g)
    /\ (forall entry,
          maxNodes (config g) <= JsMap.size (nodes g) ->
          JsMap.has (entry_id entry) (nodes g) = false ->
          addNode entry g = g)
    /\ (forall entry,
          JsMap.has (entry_id entry) (nodes g) = true ->
          JsMap.get (entry_id entry) (nodes (addNode entry g))
            = Some (nodeOfEntry entry)
          /\ JsMap.keys (nodes (addNode entry g)) = JsMap.keys (nodes g)
          /\ dirty (addNode entry g) = true).
Proof.
  intros cfg ops g. repeat split.
  - apply withinCapacity_exec. unfold withinCapacity. simpl. lia.
  - intros entry Hfull Hnew. apply addNode_rejected. unfold rejects.
    rewrite Hnew. simpl. rewrite andb_true_r. now apply Nat.leb_le.
  - now apply addNode_stores, rejects_present.
  - rewrite addNode_accepted by now apply rejects_present.
    simpl. now apply keys_set_old.
  - rewrite addNode_accepted by now apply rejects_present. reflexivity.
Qed.

(** *** Defaults of the metadata fields *)

Lemma confident_exec ops g :
  num_truthy (num_lit (R := R) 5 10) = true ->
  confident g -> confident (exec ops g).
Proof.
  intros Hhalf. apply exec_invariant.
  - unfold confident. now intros g0 g' -> _.
  - intros e g0 Pg k n. destruct (rejects e g0) eqn:C.
    + rewrite addNode_rejected by assumption. apply Pg.
    + rewrite addNode_accepted by assumption. simpl. rewrite get_set.
      destruct (String.eqb (entry_id e) k); [|apply Pg].
      intros [= <-]. simpl. unfold num_or.
      destruct (match entry_metadata e with
                | Some md => md_confidence md
                | None => None
                end) as [c|]; [|assumption].
      destruct (num_truthy c) eqn:T; assumption.
  - intros x g0 Pg k n. rewrite nodes_removeNode, get_delete.
    destruct (String.eqb x k); [discriminate | apply Pg].
Qed.

(** C10: when [addNode] stores an entry, a falsy confidence in its metadata
    (a zero, or [NaN]) is replaced by the default 0.5 and an empty category
    by ['general'], exactly as a missing field is; hence no node of a
    reachable graph carries a falsy confidence, 0 in particular. *)
Theorem falsy_metadata_takes_defaults :
  num_truthy (num_lit (R := R) 5 10) = true ->
  (forall (entry : MemoryEntry R) g md,
     rejects entry g = false ->
     entry_metadata entry = Some md ->
     exists n,
       JsMap.get (entry_id entry) (nodes (addNode entry g)) = Some n
       /\ (forall c, md_confidence md = Some c -> num_truthy c = false ->
             node_confidence n = num_lit 5 10)
       /\ (md_category md = Some EmptyString ->
             node_category n = "general"%string))
  /\ (forall cfg ops k n,
        JsMap.get k (nodes (exec ops (newGraph cfg))) = Some n ->
        num_truthy (node_confidence n) = true).
Proof.
  intros Hhalf. split.
  - intros entry g md C Hmd. exists (nodeOfEntry entry). split; [|split].
    + now apply addNode_stores.
    + intros c Hc Hfalsy. unfold nodeOfEntry. simpl.
      rewrite Hmd, Hc. simpl. now rewrite Hfalsy.
    + intros Hcat. unfold nodeOfEntry. simpl. now rewrite Hmd, Hcat.
  - intros cfg ops. apply confident_exec; [assumption|].
    intros k n. discriminate.
Qed.

(** *** Removal *)

(** C5: removing a node [x] of a well-formed graph (every reachable graph is
    one, [wf_reachable]) leaves no edge to [x] in any edge list, no edge
    list and no reverse set for [x], no occurrence of [x] in a reverse set,
    and no rank or community for [x]; removing a missing id returns the
    graph unchanged. *)
Theorem removeNode_erases :
  forall g x,
    wf g ->
    (JsMap.has x (nodes g) = true ->
       JsMap.has x (nodes (removeNode x g)) = false
       /\ (forall s l, JsMap.get s (edges (removeNode x g)) = Some l ->
             ~ In x (targets l))
       /\ JsMap.get x (edges (removeNode x g)) = None
       /\ JsMap.get x (reverseEdges (removeNode x g)) = None
       /\ (forall t s, JsMap.get t (reverseEdges (removeNode x g)) = Some s ->
             ~ In x s)
       /\ JsMap.get x (pageRanks (removeNode x g)) = None
       /\ JsMap.get x (communities (removeNode x g)) = None)
    /\ (JsMap.has x (nodes g) = false -> removeNode x g = g).
Proof.
  intros g x W. split; [|apply removeNode_missing].
  intros Hx. repeat split.
  - rewrite nodes_removeNode. unfold JsMap.has. now rewrite get_delete_eq.
  - intros s l. rewrite get_edges_removeNode by assumption.
    destruct (String.eqb x s); [discriminate|].
    destruct (JsMap.get s (edges g)); [|discriminate].
    intros [= <-] Hin. apply In_targets_dropTarget in Hin. tauto.
  - rewrite get_edges_removeNode by assumption. now rewrite String.eqb_refl.
  - rewrite get_reverse_removeNode by assumption. now rewrite String.eqb_refl.
  - intros t s. rewrite get_reverse_removeNode by assumption.
    destruct (String.eqb x t); [discriminate|].
    destruct (JsMap.get t (reverseEdges g)); [|discriminate].
    intros [= <-] Hin. apply JsSetFacts.In_delete in Hin. tauto.
  - rewrite removeNode_present by assumption. simpl. apply get_delete_eq.
  - rewrite removeNode_present by assumption. simpl. apply get_delete_eq.
Qed.

End StoreClaims.

(** Scenario 4: the graph holds the first three entries, in insertion
    order; [e1] is still accepted. *)
Example capacity_scenario :
  JsMap.keys (nodes capacityThree) = ["e1"; "e2"; "e3"]%string
  /\ addNode (plainEntry "e4") capacityThree = capacityThree
  /\ rejects (plainEntry "e1") capacityThree = false.
Proof. vm_compute. repeat split. Qed.

(** The defaults at work on an entry with confidence 0 and category [""]. *)
Lemma falsy_metadata_takes_defaults_witness :
  num_truthy (num_lit (R := float) 5 10) = true
  /\ exists n,
       JsMap.get "A" (nodes (addNode (falsyEntry "A") (newGraph (R := float) None)))
         = Some n
       /\ node_confidence n = num_lit 5 10
       /\ node_category n = "general"%string.
Proof.
  assert (Hhalf : num_truthy (num_lit (R := float) 5 10) = true)
    by reflexivity.
  split; [exact Hhalf|].
  destruct (falsy_metadata_takes_defaults Hhalf) as [Hadd _].
  destruct (Hadd (falsyEntry "A") (newGraph None)
              {| md_category := Some EmptyString; md_confidence := Some zero |}
              eq_refl eq_refl) as [n [Hget [Hc Hcat]]].
  exists n. split; [exact Hget|]. split.
  - apply (Hc zero); reflexivity.
  - apply Hcat. reflexivity.
Defined.

(** Removal of the inner node [B] of the chain [A -> B -> C -> D]. *)
Lemma removeNode_erases_witness :
  wf (chainABCD (R := float))
  /\ JsMap.has "B" (nodes (chainABCD (R := float))) = true
  /\ JsMap.get "B" (edges (removeNode "B" (chainABCD (R := float)))) = None
  /\ JsMap.get "B" (reverseEdges (removeNode "B" (chainABCD (R := float))))
       = None
  /\ JsMap.get "B" (pageRanks (removeNode "B" (chainABCD (R := float))))
       = None.
Proof.
  assert (W : wf (chainABCD (R := float))) by apply wf_reachable.
  split; [exact W|]. split; [reflexivity|].
  destruct (removeNode_erases "B" W) as [Hpresent _].
  destruct (Hpresent eq_refl) as [_ [_ [He [Hr [_ [Hp _]]]]]].
  repeat split; assumption.
Defined.

(** ** One edge per ordered pair *)

Lemma Qc_ltb_lt a b : Qc_ltb a b = true <-> (a < b)%Qc.
Proof.
  unfold Qc_ltb, Qclt, Qccompare. rewrite Qlt_alt.
  destruct (this a ?= this b)%Q; split; congruence.
Qed.

Lemma Qc_ltb_ge a b : Qc_ltb a b = false <-> (b <= a)%Qc.
Proof.
  rewrite <- Bool.not_true_iff_false, Qc_ltb_lt. split.
  - apply Qcnot_lt_le.
  - apply Qcle_not_lt.
Qed.

Lemma Qc_ltb_irrefl a : Qc_ltb a a = false.
Proof. apply Qc_ltb_ge, Qcle_refl. Qed.

Lemma Qc_max_idem a b : Qc_max (Qc_max a b) b = Qc_max a b.
Proof.
  unfold Qc_max. destruct (Qc_ltb a b) eqn:E.
  - now rewrite Qc_ltb_irrefl.
  - now rewrite E.
Qed.

Lemma Qc_max_self a : Qc_max a a = a.
Proof. unfold Qc_max. now destruct (Qc_ltb a a). Qed.

Lemma Qc_max_ge_l a b : (a <= Qc_max a b)%Qc.
Proof.
  unfold Qc_max. destruct (Qc_ltb a b) eqn:E.
  - apply Qclt_le_weak. now apply Qc_ltb_lt.
  - apply Qcle_refl.
Qed.

Lemma Qc_max_ge_r a b : (b <= Qc_max a b)%Qc.
Proof.
  unfold Qc_max. destruct (Qc_ltb a b) eqn:E.
  - apply Qcle_refl.
  - now apply Qc_ltb_ge.
Qed.

Lemma maxWeight_ge_first w ws : (w <= maxWeight w ws)%Qc.
Proof.
  unfold maxWeight. revert w. induction ws as [|x ws IH]; intros w; simpl.
  - apply Qcle_refl.
  - eapply Qcle_trans; [apply (Qc_max_ge_l w x) | apply IH].
Qed.

(** [maxWeight] is the largest of the weights, and one of them. *)
Lemma maxWeight_spec w ws :
  In (maxWeight w ws) (w :: ws)
  /\ forall x, In x (w :: ws) -> (x <= maxWeight w ws)%Qc.
Proof.
  unfold maxWeight. revert w. induction ws as [|y ws IH]; intros w; simpl.
  - split; [now left | intros x [<-|[]]; apply Qcle_refl].
  - destruct (IH (Qc_max w y)) as [Hin Hle]. split.
    + destruct Hin as [E|Hin]; [|now right; right].
      rewrite <- E. unfold Qc_max.
      destruct (Qc_ltb w y); [right; now left | now left].
    + intros x [<-|[<-|Hx]].
      * eapply Qcle_trans; [apply (Qc_max_ge_l w y) | apply Hle; now left].
      * eapply Qcle_trans; [apply (Qc_max_ge_r w y) | apply Hle; now left].
      * apply Hle. now right.
Qed.

Section EdgeClaims.
Implicit Types g : MemoryGraph Qc.
Import JsMapFacts.

Lemma raiseWeight_idem t w (l : list (GraphEdge Qc)) :
  raiseWeight t w (raiseWeight t w l) = raiseWeight t w l.
Proof.
  induction l as [|e l IH]; simpl; [reflexivity|].
  destruct (String.eqb (edge_targetId e) t) eqn:E; simpl; rewrite E.
  - now rewrite Qc_max_idem.
  - now rewrite IH.
Qed.

Lemma raiseWeight_app_absent t w (l l' : list (GraphEdge Qc)) :
  ~ In t (targets l) ->
  raiseWeight t w (l ++ l') = l ++ raiseWeight t w l'.
Proof.
  induction l as [|e l IH]; simpl; [reflexivity|].
  intros Hn. string_cases (edge_targetId e) t.
  - exfalso. apply Hn. now left.
  - rewrite IH; [reflexivity | tauto].
Qed.

Lemma upsertEdge_idem t ty w (l : list (GraphEdge Qc)) :
  upsertEdge t ty w (upsertEdge t ty w l) = upsertEdge t ty w l.
Proof.
  assert (Hin : In t (targets (upsertEdge t ty w l))).
  { apply In_targets_upsertEdge. now right. }
  unfold upsertEdge at 1.
  destruct (find _ (upsertEdge t ty w l)) eqn:F.
  2: { apply find_target_None in F. contradiction. }
  clear F Hin. unfold upsertEdge.
  destruct (find _ l) eqn:F.
  - apply raiseWeight_idem.
  - apply find_target_None in F.
    rewrite raiseWeight_app_absent by assumption. simpl.
    now rewrite String.eqb_refl, Qc_max_self.
Qed.

Lemma add_idem x s : JsSet.add x (JsSet.add x s) = JsSet.add x s.
Proof. apply JsSetFacts.add_present, JsSetFacts.In_add. now left. Qed.

Lemma adjust_idem {V : Type} (f : V -> V) k (m : JsMap.t V) :
  (forall v, f (f v) = f v) ->
  JsMap.adjust f k (JsMap.adjust f k m) = JsMap.adjust f k m.
Proof.
  intros Hf. unfold JsMap.adjust.
  destruct (JsMap.get k m) as [v|] eqn:G.
  - rewrite get_set_eq, Hf. apply set_set.
  - now rewrite G.
Qed.

Lemma addEdge_idem s t ty w g :
  addEdge s t ty w (addEdge s t ty w g) = addEdge s t ty w g.
Proof.
  destruct (skips s t g) eqn:C.
  { now rewrite !(addEdge_skipped s t ty w g C). }
  assert (C' : skips s t (addEdge s t ty w g) = false).
  { unfold skips. rewrite nodes_addEdge. exact C. }
  rewrite (addEdge_accepted s t ty w (addEdge s t ty w g)) by assumption.
  rewrite addEdge_accepted by assumption. simpl. f_equal.
  - rewrite get_set_eq. simpl. rewrite upsertEdge_idem. apply set_set.
  - rewrite has_adjust.
    assert (Hhas : JsMap.has t
              (if JsMap.has t (reverseEdges g) then reverseEdges g
               else JsMap.set t JsSet.empty (reverseEdges g)) = true).
    { destruct (JsMap.has t (reverseEdges g)) eqn:E; [assumption|].
      rewrite has_set. now rewrite String.eqb_refl. }
    rewrite Hhas. apply adjust_idem. apply add_idem.
Qed.

Lemma filter_raiseWeight t w (l : list (GraphEdge Qc)) :
  filter (fun e => String.eqb (edge_targetId e) t) (raiseWeight t w l) =
  match filter (fun e => String.eqb (edge_targetId e) t) l with
  | [] => []
  | e :: rest =>
      {| edge_targetId := edge_targetId e;
         edge_type := edge_type e;
         edge_weight := Qc_max (edge_weight e) w |} :: rest
  end.
Proof.
  induction l as [|e l IH]; simpl; [reflexivity|].
  destruct (String.eqb (edge_targetId e) t) eqn:E; simpl; rewrite E.
  - reflexivity.
  - apply IH.
Qed.

Lemma edgesBetween_addEdge_again u v ty w g e :
  skips u v g = false ->
  edgesBetween g u v = [e] ->
  edgesBetween (addEdge u v ty w g) u v =
  [{| edge_targetId := edge_targetId e;
      edge_type := edge_type e;
      edge_weight := Qc_max (edge_weight e) w |}].
Proof.
  intros C Hone. unfold edgesBetween in *.
  rewrite addEdge_accepted by assumption. simpl. rewrite get_set_eq. simpl.
  unfold upsertEdge.
  destruct (find _ _) eqn:F.
  - rewrite filter_raiseWeight. now rewrite Hone.
  - apply find_target_None in F. exfalso. apply F.
    apply existsb_target. apply existsb_exists.
    assert (Hin : In e (filter (fun e => String.eqb (edge_targetId e) v)
                          (spread [] (JsMap.get u (edges g)))))
      by (rewrite Hone; now left).
    apply filter_In in Hin. now exists e.
Qed.

Lemma edgesBetween_addEdge_first u v ty w g :
  skips u v g = false ->
  hasEdge u v g = false ->
  edgesBetween (addEdge u v ty w g) u v =
  [{| edge_targetId := v; edge_type := ty; edge_weight := w |}].
Proof.
  intros C Hno. unfold edgesBetween.
  rewrite addEdge_accepted by assumption. simpl. rewrite get_set_eq. simpl.
  assert (Hn : ~ In v (targets (spread [] (JsMap.get u (edges g))))).
  { unfold hasEdge in Hno. destruct (JsMap.get u (edges g)); simpl; [|tauto].
    intros Hin. apply existsb_target in Hin. congruence. }
  unfold upsertEdge. pose proof Hn as F. apply find_target_None in F.
  rewrite F, filter_app. simpl. rewrite String.eqb_refl.
  replace (filter _ (spread [] (JsMap.get u (edges g)))) with (@nil (GraphEdge Qc));
    [reflexivity|].
  symmetry. generalize dependent (spread [] (JsMap.get u (edges g))).
  intros l Hl _. induction l as [|e l IH]; simpl; [reflexivity|].
  simpl in Hl. string_cases (edge_targetId e) v.
  - exfalso. apply Hl. now left.
  - apply IH. tauto.
Qed.

Lemma edgesBetween_addEdges u v calls g e :
  skips u v g = false ->
  edgesBetween g u v = [e] ->
  edgesBetween (addEdges u v calls g) u v =
  [{| edge_targetId := edge_targetId e;
      edge_type := edge_type e;
      edge_weight := maxWeight (edge_weight e) (map snd calls) |}].
Proof.
  unfold addEdges, maxWeight. revert g e.
  induction calls as [|[ty w] calls IH]; intros g e C Hone; simpl.
  - rewrite Hone. now destruct e.
  - assert (C' : skips u v (addEdge u v ty w g) = false).
    { unfold skips. now rewrite nodes_addEdge. }
    rewrite (IH _ _ C' (edgesBetween_addEdge_again u v ty w g C Hone)).
    reflexivity.
Qed.

Lemma addNode_idem (e : MemoryEntry Qc) g :
  addNode e (addNode e g) = addNode e g.
Proof.
  destruct (rejects e g) eqn:C.
  { now rewrite !(addNode_rejected e g C). }
  assert (C' : rejects e (addNode e g) = false).
  { apply rejects_present. unfold JsMap.has.
    now rewrite addNode_stores. }
  rewrite (addNode_accepted e (addNode e g)) by assumption.
  rewrite addNode_accepted by assumption. simpl. f_equal.
  - apply set_set.
  - destruct (JsMap.has (entry_id e) (edges g)) eqn:E; [now rewrite E|].
    now rewrite has_set, String.eqb_refl.
  - destruct (JsMap.has (entry_id e) (reverseEdges g)) eqn:E; [now rewrite E|].
    now rewrite has_set, String.eqb_refl.
Qed.

(** C4: in exact arithmetic.  For nodes [u] and [v] not yet joined, after a
    run of [addEdge(u, v, t, w)] calls the pair has exactly one edge, with
    the type of the first call and the largest weight of the run (which is
    one of the weights passed and bounds them all); every edge list of a
    reachable graph names a target at most once; [addEdge] with the same
    arguments twice, and [addNode] with the same entry twice, leave the
    state one call leaves. *)
Theorem one_edge_per_pair :
  (forall g u v t1 w1 calls,
     skips u v g = false ->
     hasEdge u v g = false ->
     edgesBetween (addEdges u v ((t1, w1) :: calls) g) u v =
       [{| edge_targetId := v;
           edge_type := t1;
           edge_weight := maxWeight w1 (map snd calls) |}]
     /\ In (maxWeight w1 (map snd calls)) (w1 :: map snd calls)
     /\ (forall w, In w (w1 :: map snd calls) ->
           (w <= maxWeight w1 (map snd calls))%Qc))
  /\ (forall cfg ops s l,
        JsMap.get s (edges (exec ops (newGraph (R := Qc) cfg))) = Some l ->
        NoDup (targets l))
  /\ (forall g s t ty w,
        addEdge s t ty w (addEdge s t ty w g) = addEdge s t ty w g)
  /\ (forall g (e : MemoryEntry Qc), addNode e (addNode e g) = addNode e g).
Proof.
  repeat split.
  - simpl.
    rewrite (@edgesBetween_addEdges u v calls (addEdge u v t1 w1 g)
               {| edge_targetId := v; edge_type := t1; edge_weight := w1 |}).
    + reflexivity.
    + unfold skips. now rewrite nodes_addEdge.
    + now apply edgesBetween_addEdge_first.
  - apply maxWeight_spec.
  - apply maxWeight_spec.
  - intros cfg ops s l. apply (wf_targets_nodup (wf_reachable cfg ops)).
  - intros. apply addEdge_idem.
  - intros. apply addNode_idem.
Qed.

End EdgeClaims.

(** Three calls on the pair [(U, V)]: one edge, of the first type, at the
    largest weight. *)
Lemma one_edge_per_pair_witness :
  skips "U" "V" pairUV = false
  /\ hasEdge "U" "V" pairUV = false
  /\ edgesBetween
       (addEdges "U" "V"
          [(reference, Qc_of_Z 1); (similar, Qc_of_Z 3); (causal, Qc_of_Z 2)]
          pairUV) "U" "V"
     = [{| edge_targetId := "V"; edge_type := reference;
           edge_weight :=
             maxWeight (Qc_of_Z 1) [Qc_of_Z 3; Qc_of_Z 2] |}].
Proof.
  split; [reflexivity|]. split; [reflexivity|].
  destruct one_edge_per_pair as [Hrun _].
  apply (Hrun pairUV "U"%string "V"%string reference (Qc_of_Z 1)
           [(similar, Qc_of_Z 3); (causal, Qc_of_Z 2)]); reflexivity.
Defined.

(** ** The dirty flag *)

Section DirtyFacts.
Variable R : Type.
Context `{JsNumber R}.
Implicit Types g : MemoryGraph R.

Lemma dirty_addNode e g : dirty (addNode e g) = false -> addNode e g = g.
Proof. unfold addNode. destruct (_ && _); [reflexivity | discriminate]. Qed.

Lemma dirty_addEdge s t ty w g :
  dirty (addEdge s t ty w g) = false -> addEdge s t ty w g = g.
Proof. unfold addEdge. destruct (_ || _); [reflexivity | discriminate]. Qed.

Lemma dirty_removeNode x g :
  dirty (removeNode x g) = false -> removeNode x g = g.
Proof. unfold removeNode. destruct (negb _); [reflexivity | discriminate]. Qed.

Lemma dirty_similarityStep entryId st result :
  dirty (fst (similarityStep entryId st result)) = false ->
  fst (similarityStep entryId st result) = fst st.
Proof.
  destruct st as [g added]. simpl.
  destruct (String.eqb _ entryId); [reflexivity|].
  destruct (num_ge _ _); [|reflexivity].
  simpl. apply dirty_addEdge.
Qed.

Lemma dirty_similarityFold entryId results st :
  dirty (fst (fold_left (similarityStep entryId) results st)) = false ->
  fst (fold_left (similarityStep entryId) results st) = fst st.
Proof.
  revert st. induction results as [|r results IH]; intros st; simpl;
    [reflexivity|].
  intros Hd. rewrite (IH _ Hd). apply dirty_similarityStep.
  rewrite <- (IH _ Hd). exact Hd.
Qed.

Lemma structure_computePageRank g :
  structure (fst (computePageRank g)) = structure g.
Proof.
  unfold computePageRank. destruct (_ =? 0); [reflexivity|].
  now destruct (pageRankLoop _ _ _ _ _).
Qed.

Lemma dirty_computePageRank g : dirty (fst (computePageRank g)) = false.
Proof.
  unfold computePageRank. destruct (_ =? 0); [reflexivity|].
  now destruct (pageRankLoop _ _ _ _ _).
Qed.

(** A call that ends with the flag down either ran PageRank or left the
    structure as it was, with the flag already down. *)
Lemma dirty_false_step op g :
  dirty (step op g) = false ->
  ranks op g = true
  \/ (structure (step op g) = structure g /\ dirty g = false).
Proof.
  destruct op; simpl; intros Hd.
  - right. pose proof (dirty_addNode _ _ Hd) as E. rewrite E in *. auto.
  - right. pose proof (dirty_addEdge _ _ _ _ _ Hd) as E. rewrite E in *. auto.
  - right. pose proof (dirty_removeNode _ _ Hd) as E. rewrite E in *. auto.
  - right. unfold buildFromBackend in *.
    destruct (backend_query _ _ _); simpl in *; [discriminate | auto].
  - right. unfold addSimilarityEdges in *.
    destruct (backend_get _ _) as [[entry|]|]; simpl in *; auto.
    destruct (entry_embedding entry); simpl in *; auto.
    destruct (backend_search _ _ _ _) as [results|]; simpl in *; auto.
    pose proof (dirty_similarityFold entryId results (g, 0)) as Hfold.
    destruct (fold_left _ results (g, 0)) as [g' added]. simpl in *.
    pose proof (Hfold Hd) as E. subst g'. auto.
  - now left.
  - right. unfold detectCommunities in *. simpl in *. auto.
  - unfold ensurePageRank in *. destruct (dirty g); [now left | now right].
  - unfold ensurePageRank in *. destruct (dirty g); [now left | now right].
Qed.

Lemma rankedStructure_exec ops g last :
  (dirty g = false -> last = Some (structure g)) ->
  dirty (exec ops g) = false ->
  rankedStructure ops g last = Some (structure (exec ops g)).
Proof.
  unfold exec. revert g last.
  induction ops as [|op ops IH]; intros g last Hlast Hd; simpl in *.
  - now apply Hlast.
  - apply IH; [|assumption]. intros Hstep.
    destruct (dirty_false_step op g Hstep) as [Hr|[Hs Hg]].
    + now rewrite Hr.
    + destruct (ranks op g); [reflexivity|]. rewrite Hs. now apply Hlast.
Qed.

Lemma linksSimilar_same g g' entryId r :
  nodes g' = nodes g -> config g' = config g ->
  linksSimilar g' entryId r = linksSimilar g entryId r.
Proof. unfold linksSimilar, skips. now intros -> ->. Qed.

Lemma flag_similarityStep entryId g added r :
  let g' := fst (similarityStep entryId (g, added) r) in
  dirty g' = dirty g || linksSimilar g entryId r
  /\ nodes g' = nodes g /\ config g' = config g
  /\ (linksSimilar g entryId r = false -> g' = g).
Proof.
  unfold similarityStep, linksSimilar.
  destruct (String.eqb (entry_id (result_entry r)) entryId); cbn [negb andb fst].
  { now rewrite orb_false_r. }
  destruct (num_ge (result_score r) (similarityThreshold (config g)));
    cbn [andb fst].
  2: { now rewrite orb_false_r. }
  rewrite nodes_addEdge, config_addEdge.
  destruct (skips entryId (entry_id (result_entry r)) g) eqn:C; cbn [negb].
  - rewrite addEdge_skipped by assumption. now rewrite orb_false_r.
  - rewrite addEdge_accepted by assumption. cbn [dirty].
    rewrite orb_true_r. repeat split. discriminate.
Qed.

Lemma flag_similarityFold entryId results g added :
  let g' := fst (fold_left (similarityStep entryId) results (g, added)) in
  dirty g' = dirty g || existsb (linksSimilar g entryId) results
  /\ (existsb (linksSimilar g entryId) results = false -> g' = g).
Proof.
  revert g added. induction results as [|r results IH]; intros g added.
  - cbn [fold_left fst existsb]. now rewrite orb_false_r.
  - cbn [fold_left existsb].
    pose proof (flag_similarityStep entryId g added r) as Hstep.
    destruct (similarityStep entryId (g, added) r) as [g1 added1].
    cbv zeta in Hstep. cbn [fst] in Hstep.
    destruct Hstep as [Hd [Hn [Hc Hsame]]].
    specialize (IH g1 added1). cbv zeta in IH. destruct IH as [IHd IHsame].
    assert (Hlinks : existsb (linksSimilar g1 entryId) results
                     = existsb (linksSimilar g entryId) results).
    { clear IHd IHsame. induction results as [|r' results IHr];
        [reflexivity|].
      cbn [existsb]. now rewrite IHr, (@linksSimilar_same g g1 entryId r' Hn Hc). }
    rewrite Hlinks in IHd, IHsame. split.
    + now rewrite IHd, Hd, orb_assoc.
    + intros Hnone. apply orb_false_iff in Hnone. destruct Hnone as [H1 H2].
      rewrite (IHsame H2). now apply Hsame.
Qed.

(** The flag after a call: a ranking clears it, a call accepted by the
    store raises it, and every other call leaves it as it was. *)
Lemma flag_step op g :
  dirty (step op g) = negb (ranks op g) && (dirty g || accepted op g).
Proof.
  destruct op; cbn [step ranks accepted negb andb].
  - unfold addNode. fold (rejects entry g).
    destruct (rejects entry g); cbn [negb dirty];
      [now rewrite orb_false_r | now rewrite orb_true_r].
  - unfold addEdge. fold (skips sourceId targetId g).
    destruct (skips sourceId targetId g); cbn [negb dirty];
      [now rewrite orb_false_r | now rewrite orb_true_r].
  - unfold removeNode.
    destruct (JsMap.has id (nodes g)); cbn [negb dirty];
      [now rewrite orb_true_r | now rewrite orb_false_r].
  - unfold buildFromBackend.
    destruct (backend_query _ _ _); cbn [fst emit set_dirty dirty];
      [now rewrite orb_true_r | now rewrite orb_false_r].
  - unfold addSimilarityEdges.
    destruct (backend_get backend entryId) as [[entry|]|why]; cbn [fst];
      try now rewrite orb_false_r.
    destruct (entry_embedding entry) as [embedding|]; cbn [fst];
      try now rewrite orb_false_r.
    destruct (backend_search backend embedding 20
                (similarityThreshold (config g))) as [results|why];
      cbn [fst]; try now rewrite orb_false_r.
    pose proof (flag_similarityFold entryId results g 0) as Hfold.
    destruct (fold_left (similarityStep entryId) results (g, 0))
      as [g' added].
    apply Hfold.
  - apply dirty_computePageRank.
  - unfold detectCommunities. cbn [fst emit dirty]. now rewrite orb_false_r.
  - unfold rankWithGraph, ensurePageRank. cbn [fst].
    destruct (dirty g) eqn:D; cbn [negb andb orb];
      [apply dirty_computePageRank | exact D].
  - unfold getTopNodes, ensurePageRank. cbn [fst].
    destruct (dirty g) eqn:D; cbn [negb andb orb];
      [apply dirty_computePageRank | exact D].
Qed.

(** A call that the store does not accept leaves nodes and edges alone. *)
Lemma structure_step op g :
  accepted op g = false -> structure (step op g) = structure g.
Proof.
  destruct op; cbn [step accepted].
  - intros C. apply negb_false_iff in C. now rewrite addNode_rejected.
  - intros C. apply negb_false_iff in C. now rewrite addEdge_skipped.
  - intros C. unfold removeNode. now rewrite C.
  - unfold buildFromBackend.
    destruct (backend_query _ _ _); [discriminate | reflexivity].
  - unfold addSimilarityEdges.
    destruct (backend_get backend entryId) as [[entry|]|why]; cbn [fst];
      try reflexivity.
    destruct (entry_embedding entry) as [embedding|]; cbn [fst];
      try reflexivity.
    destruct (backend_search backend embedding 20
                (similarityThreshold (config g))) as [results|why];
      cbn [fst]; try reflexivity.
    intros Hnone.
    pose proof (flag_similarityFold entryId results g 0) as Hfold.
    destruct (fold_left (similarityStep entryId) results (g, 0))
      as [g' added].
    cbv zeta in Hfold. cbn [fst] in *. destruct Hfold as [_ Hsame].
    now rewrite (Hsame Hnone).
  - intros _. apply structure_computePageRank.
  - reflexivity.
  - intros _. unfold rankWithGraph, ensurePageRank. cbn [fst].
    destruct (dirty g); [apply structure_computePageRank | reflexivity].
  - intros _. unfold getTopNodes, ensurePageRank. cbn [fst].
    destruct (dirty g); [apply structure_computePageRank | reflexivity].
Qed.

(** C6, as amended.  In every reachable state: the flag is down right after
    a PageRank computation, which leaves nodes and edges alone; whenever
    the flag is down PageRank has been computed and the node and edge
    structure is the one it was computed on; the flag after a call is down
    when the call ran PageRank, and otherwise it is up exactly when it was
    up before or the call is one of [addNode], [addEdge], [removeNode],
    [buildFromBackend] and [addSimilarityEdges] and got past its guard, so
    nothing else raises it; and a call that changes nodes or edges is such
    a call and leaves the flag up.  (The flag may be raised with no
    change: by [buildFromBackend], by an accepted [addNode] or [addEdge]
    that changed nothing.) *)
Theorem dirty_down_means_ranked :
  forall (cfg : option (MemoryGraphConfig R)) (ops : list (Op R)),
    let g := exec ops (newGraph cfg) in
    dirty (fst (computePageRank g)) = false
    /\ structure (fst (computePageRank g)) = structure g
    /\ (dirty g = false ->
          rankedStructure ops (newGraph cfg) None = Some (structure g))
    /\ (forall op,
          dirty (step op g) = negb (ranks op g) && (dirty g || accepted op g))
    /\ (forall op,
          structure (step op g) <> structure g ->
          accepted op g = true /\ dirty (step op g) = true).
Proof.
  intros cfg ops g. split; [|split; [|split; [|split]]].
  - apply dirty_computePageRank.
  - apply structure_computePageRank.
  - apply rankedStructure_exec. simpl. discriminate.
  - intros op. apply flag_step.
  - intros op Hchange.
    destruct (accepted op g) eqn:Hacc.
    2: { exfalso. apply Hchange. now apply structure_step. }
    split; [reflexivity|]. rewrite flag_step, Hacc, orb_true_r.
    destruct op; try discriminate Hacc; reflexivity.
Qed.

End DirtyFacts.

(** A graph of two nodes and one edge on which PageRank has been computed
    (binary64 arithmetic). *)
Definition rankedPair : MemoryGraph float :=
  exec [OpAddNode (plainEntry "A"); OpAddNode (plainEntry "B");
        OpAddEdge "A" "B" reference one; OpComputePageRank]
       (newGraph None).

(** C6 fails as stated: on [rankedPair], whose flag is down, adding the edge
    it already has, or building from an empty store, changes neither nodes
    nor edges and raises the flag. *)
Lemma dirty_raised_without_mutation :
  dirty rankedPair = false
  /\ structure (step (OpAddEdge "A" "B" reference one) rankedPair)
       = structure rankedPair
  /\ dirty (step (OpAddEdge "A" "B" reference one) rankedPair) = true
  /\ structure (step (OpBuildFromBackend (emptyBackend float) None) rankedPair)
       = structure rankedPair
  /\ dirty (step (OpBuildFromBackend (emptyBackend float) None) rankedPair)
       = true.
Proof. vm_compute. repeat split. Qed.

(** The amended statement at work: after the run that builds [rankedPair]
    the structure on record is the structure of the graph, detecting
    communities keeps the flag down, and adding the edge [B -> A] raises
    it. *)
Lemma dirty_down_means_ranked_witness :
  dirty rankedPair = false
  /\ rankedStructure
       [OpAddNode (plainEntry "A"); OpAddNode (plainEntry "B");
        OpAddEdge "A" "B" reference one; OpComputePageRank]
       (newGraph (R := float) None) None
     = Some (structure rankedPair)
  /\ dirty (step (OpDetectCommunities [0; 0]) rankedPair) = false
  /\ dirty (step (OpAddEdge "B" "A" reference one) rankedPair) = true.
Proof.
  destruct (dirty_down_means_ranked (R := float) None
              [OpAddNode (plainEntry "A"); OpAddNode (plainEntry "B");
               OpAddEdge "A" "B" reference one; OpComputePageRank])
    as [_ [_ [Hranked [Hflag _]]]].
  split; [reflexivity|]. split; [now apply Hranked|].
  split; rewrite Hflag; reflexivity.
Defined.

(** ** Similarity edges *)

Section SimilarityFacts.
Variable R : Type.
Context `{JsNumber R}.
Implicit Types g : MemoryGraph R.
Import JsMapFacts.

(** An entry the store does not hold, or one without an embedding, adds
    nothing and leaves the graph as it is. *)
Lemma addSimilarityEdges_nothing_to_search backend entryId g :
  (backend_get backend entryId = Fulfilled None
   \/ exists entry, backend_get backend entryId = Fulfilled (Some entry)
                    /\ entry_embedding entry = None) ->
  addSimilarityEdges backend entryId g = (g, Fulfilled 0).
Proof.
  unfold addSimilarityEdges. intros [-> | [entry [-> ->]]]; reflexivity.
Qed.

Lemma hasEdge_outEdges s t g :
  hasEdge s t g =
  existsb (fun e => String.eqb (edge_targetId e) t) (outEdges g s).
Proof. unfold hasEdge, outEdges. now destruct (JsMap.get s (edges g)). Qed.

Lemma length_upsertEdge t ty w (l : list (GraphEdge R)) :
  length (upsertEdge t ty w l) =
  if existsb (fun e => String.eqb (edge_targetId e) t) l then length l
  else S (length l).
Proof.
  rewrite <- !(length_map (@edge_targetId R)).
  fold (targets (upsertEdge t ty w l)). fold (targets l).
  rewrite targets_upsertEdge. destruct (existsb _ l); [reflexivity|].
  rewrite length_app. simpl. lia.
Qed.

Lemma outEdges_addEdge s t ty w g :
  skips s t g = false ->
  outEdges (addEdge s t ty w g) s = upsertEdge t ty w (outEdges g s).
Proof.
  intros C. unfold outEdges. rewrite addEdge_accepted by assumption. simpl.
  now rewrite get_set_eq.
Qed.

(** When both end points are nodes, a turn of the loop counts exactly the
    edges it pushes. *)
Lemma similarityStep_counts entryId g added result :
  In entryId (JsMap.keys (nodes g)) ->
  In (entry_id (result_entry result)) (JsMap.keys (nodes g)) ->
  let st := similarityStep entryId (g, added) result in
  nodes (fst st) = nodes g
  /\ length (outEdges (fst st) entryId) + added
     = length (outEdges g entryId) + snd st.
Proof.
  intros Hs Ht. simpl.
  destruct (String.eqb _ entryId); [split; reflexivity|].
  destruct (num_ge _ _); [|split; reflexivity].
  simpl. split; [apply nodes_addEdge|].
  rewrite outEdges_addEdge by now apply skips_false.
  rewrite length_upsertEdge, hasEdge_outEdges.
  destruct (existsb _ _); lia.
Qed.

Lemma similarityFold_counts entryId results g added :
  In entryId (JsMap.keys (nodes g)) ->
  (forall r, In r results ->
     In (entry_id (result_entry r)) (JsMap.keys (nodes g))) ->
  let st := fold_left (similarityStep entryId) results (g, added) in
  length (outEdges (fst st) entryId) + added
  = length (outEdges g entryId) + snd st.
Proof.
  revert g added.
  induction results as [|r results IH]; intros g added Hs Hall;
    cbn [fold_left fst snd]; [lia|].
  destruct (similarityStep_counts entryId g added r Hs (Hall r (or_introl eq_refl)))
    as [Hn Hc].
  destruct (similarityStep entryId (g, added) r) as [g1 added1] eqn:E.
  simpl in Hn, Hc.
  specialize (IH g1 added1). simpl in IH. rewrite Hn in IH.
  specialize (IH Hs (fun r' Hr' => Hall r' (or_intror Hr'))).
  lia.
Qed.

(** Where the count is right: the entry and all the neighbours found are
    nodes of the graph.  The number returned is then the number of edges the
    call pushed on the edge list of [entryId]. *)
Lemma addSimilarityEdges_counts_pushed backend entryId g entry embedding results :
  backend_get backend entryId = Fulfilled (Some entry) ->
  entry_embedding entry = Some embedding ->
  backend_search backend embedding 20 (similarityThreshold (config g))
    = Fulfilled results ->
  In entryId (JsMap.keys (nodes g)) ->
  (forall r, In r results ->
     In (entry_id (result_entry r)) (JsMap.keys (nodes g))) ->
  exists g' added,
    addSimilarityEdges backend entryId g = (g', Fulfilled added)
    /\ length (outEdges g' entryId) = length (outEdges g entryId) + added.
Proof.
  intros Hget Hemb Hsearch Hs Hall. unfold addSimilarityEdges.
  rewrite Hget, Hemb, Hsearch.
  pose proof (similarityFold_counts entryId results g 0 Hs Hall) as Hc.
  destruct (fold_left _ results (g, 0)) as [g' added]. simpl in Hc.
  exists g', added. split; [reflexivity | lia].
Qed.

End SimilarityFacts.

(** C1 fails on the code: the graph holds the node [A] only, the store
    returns the neighbour [B] at score 0.9 (binary64 arithmetic).  [addEdge]
    drops the edge, [B] being no node, and the graph is left as it was, yet
    the call returns 1. *)
Theorem similarity_counts_dropped_edge :
  let g := exec [OpAddNode (plainEntry "A")] (newGraph (R := float) None) in
  addSimilarityEdges (oneNeighbourBackend "B") "A" g = (g, Fulfilled 1)
  /\ outEdges g "A" = [].
Proof. vm_compute. split; reflexivity. Qed.

(** ** Neighbourhoods *)

Section NeighborFacts.
Variable R : Type.
Context `{JsNumber R}.
Implicit Types g : MemoryGraph R.
Import JsMapFacts.

Lemma edgeTo_outEdges g s t : edgeTo g s t <-> In t (targets (outEdges g s)).
Proof.
  unfold edgeTo, outEdges. destruct (JsMap.get s (edges g)) as [l|]; simpl.
  - split; [intros [l' [[= <-] Hin]]; assumption | intros Hin; now exists l].
  - split; [intros [l' [[=] _]] | tauto].
Qed.

(** What the inner loop adds: the targets other than [id], to the visited
    set; to the next frontier, those that were not visited before. *)
Lemma visitEdges_spec id (out : list (GraphEdge R)) visited next :
  let st := visitEdges id out (visited, next) in
  (forall x, In x (fst st) <->
     In x visited \/ (In x (targets out) /\ x <> id))
  /\ (forall x, In x (snd st) <->
        In x next \/ (In x (fst st) /\ ~ In x visited))
  /\ (NoDup visited -> NoDup (fst st))
  /\ (NoDup next -> NoDup (snd st)).
Proof.
  unfold visitEdges. revert visited next.
  induction out as [|e out IH]; intros visited next; simpl.
  - repeat split; tauto.
  - destruct (negb (JsSet.has (edge_targetId e) visited)
              && negb (String.eqb (edge_targetId e) id)) eqn:C.
    + apply andb_true_iff in C. destruct C as [Cv Ci].
      apply negb_true_iff in Cv, Ci.
      apply JsSetFacts.mem_false_In in Cv. apply String.eqb_neq in Ci.
      destruct (IH (JsSet.add (edge_targetId e) visited)
                   (JsSet.add (edge_targetId e) next))
        as [HV [HN [HdV HdN]]].
      simpl in *. split; [|split; [|split]].
      * intros x. rewrite HV, JsSetFacts.In_add.
        split; [intros [[->|]|[]] | intros [|[[<-|] ]]]; auto.
      * intros x. rewrite HN, HV, !JsSetFacts.In_add.
        destruct (string_dec x (edge_targetId e)) as [->|Hne].
        -- split; [|auto]. intros _. right. split; [|assumption]. auto.
        -- tauto.
      * intros Hnd. now apply HdV, JsSetFacts.NoDup_add.
      * intros Hnd. now apply HdN, JsSetFacts.NoDup_add.
    + destruct (IH visited next) as [HV [HN [HdV HdN]]].
      simpl in *. split; [|split; [|split]]; try assumption.
      intros x. rewrite HV.
      split; [intros [|[]]; auto|].
      intros [|[[<-|] Hx]]; auto.
      apply andb_false_iff in C. destruct C as [C|C].
      * apply negb_false_iff, JsSetFacts.mem_In in C. now left.
      * apply negb_false_iff, String.eqb_eq in C. contradiction.
Qed.

(** One depth level: the targets of the frontier's edges join the visited
    set; the next frontier is what is new in it. *)
Lemma expandFrontier_spec g id frontier visited :
  let st := expandFrontier g id frontier visited in
  (forall x, In x (fst st) <->
     In x visited \/ (exists s, In s frontier /\ edgeTo g s x /\ x <> id))
  /\ (forall x, In x (snd st) <-> In x (fst st) /\ ~ In x visited)
  /\ (NoDup visited -> NoDup (fst st))
  /\ NoDup (snd st).
Proof.
  unfold expandFrontier.
  assert (Hgen : forall next,
    let st := fold_left
                (fun st nodeId =>
                   visitEdges id (spread [] (JsMap.get nodeId (edges g))) st)
                frontier (visited, next) in
    (forall x, In x (fst st) <->
       In x visited \/ (exists s, In s frontier /\ edgeTo g s x /\ x <> id))
    /\ (forall x, In x (snd st) <->
          In x next \/ (In x (fst st) /\ ~ In x visited))
    /\ (NoDup visited -> NoDup (fst st))
    /\ (NoDup next -> NoDup (snd st))).
  { revert visited. induction frontier as [|s frontier IH];
      intros visited next; simpl.
    - repeat split; try tauto. intros [|[s [[] _]]]; tauto.
    - pose proof (visitEdges_spec id (outEdges g s) visited next)
        as [HV [HN [HdV HdN]]].
      unfold outEdges in *.
      destruct (visitEdges id (spread [] (JsMap.get s (edges g)))
                  (visited, next)) as [v1 n1].
      destruct (IH v1 n1) as [HV' [HN' [HdV' HdN']]].
      simpl in *. split; [|split; [|split]].
      + intros x. rewrite HV', HV. split.
        * intros [[|[Hin Hx]]|[s' [Hs' Hrest]]]; auto.
          -- right. exists s. split; [now left|]. split; [|assumption].
             now apply edgeTo_outEdges.
          -- right. exists s'. split; [now right | assumption].
        * intros [|[s' [[<-|Hs'] [He Hx]]]]; auto.
          -- left. right. split; [|assumption]. now apply edgeTo_outEdges in He.
          -- right. exists s'. auto.
      + intros x. rewrite HN', HN.
        assert (Hmono : In x visited -> In x v1) by (intros; apply HV; auto).
        assert (Hmono' : In x v1 ->
                  In x (fst (fold_left
                    (fun st nodeId =>
                       visitEdges id (spread [] (JsMap.get nodeId (edges g))) st)
                    frontier (v1, n1)))) by (intros; apply HV'; auto).
        destruct (in_dec string_dec x v1); tauto.
      + auto.
      + auto. }
  destruct (Hgen JsSet.empty) as [HV [HN [HdV HdN]]].
  split; [exact HV|]. split; [|split; [exact HdV | apply HdN; constructor]].
  intros x. rewrite HN. simpl. tauto.
Qed.

Lemma neighborsLoop_empty g id depth visited :
  neighborsLoop g id depth [] visited = visited.
Proof. destruct depth; reflexivity. Qed.

(** The early exit changes nothing: with an empty frontier the remaining
    levels visit nothing. *)
Lemma neighborsLoop_step g id depth frontier visited :
  neighborsLoop g id (S depth) frontier visited =
  neighborsLoop g id depth
    (snd (expandFrontier g id frontier visited))
    (fst (expandFrontier g id frontier visited)).
Proof.
  simpl. destruct (expandFrontier g id frontier visited) as [v n]. simpl.
  destruct n; simpl; [now rewrite neighborsLoop_empty | reflexivity].
Qed.

Lemma within_le g id d d' x : d <= d' -> within g id d x -> within g id d' x.
Proof. intros Hle [n [Hn Hh]]. exists n. split; [lia | assumption]. Qed.

Lemma within_edge g id d s x :
  within g id d s -> edgeTo g s x -> within g id (S d) x.
Proof.
  intros [n [Hn Hh]] He. exists (S n). split; [lia|].
  now apply hops_S with s.
Qed.

Lemma level_next g id d frontier visited previous :
  level g id d frontier visited previous ->
  level g id (S d)
    (snd (expandFrontier g id frontier visited))
    (fst (expandFrontier g id frontier visited))
    visited.
Proof.
  intros [HV [H0 HS]].
  destruct (expandFrontier_spec g id frontier visited) as [HV' [HN' _]].
  simpl in HV', HN'.
  split; [|split; [lia|]].
  - intros x. rewrite HV', HV. split.
    + intros [[Hx Hw]|[s [Hs [He Hx]]]].
      * split; [assumption|]. apply within_le with d; [lia | assumption].
      * split; [assumption|].
        destruct d as [|d].
        -- apply (H0 eq_refl) in Hs. subst s.
           exists 1. split; [lia|]. apply hops_S with id; [constructor | assumption].
        -- destruct (HS (Nat.lt_0_succ d)) as [_ HF].
           apply HF in Hs. destruct Hs as [Hs _]. apply HV in Hs.
           apply within_edge with s; tauto.
    + intros [Hx [n [Hn Hh]]].
      destruct n as [|m]; [lia|].
      inversion Hh as [|m' mid x' Hm He]; subst.
      destruct (Nat.eq_dec d 0) as [->|Hd].
      * (* first level: the path is the single edge from [id] *)
        assert (m = 0) by lia. subst m.
        inversion Hm; subst.
        right. exists mid. split; [now apply H0 | auto].
      * destruct (HS ltac:(lia)) as [HP HF].
        destruct (string_dec mid id) as [->|Hmid].
        -- (* a path back through [id]: its last edge alone reaches [x] *)
           left. split; [assumption|]. exists 1. split; [lia|].
           apply hops_S with id; [constructor | assumption].
        -- destruct m as [|m].
           { inversion Hm; subst. congruence. }
           destruct (in_dec string_dec mid previous) as [Hp|Hp].
           ++ left. split; [assumption|].
              apply HP in Hp. destruct Hp as [_ Hw].
              replace d with (S (d - 1)) by lia.
              now apply within_edge with mid.
           ++ right. exists mid. split; [|auto].
              apply HF. split; [|assumption].
              apply HV. split; [assumption|].
              exists (S m). split; [lia | assumption].
  - intros _. split.
    + intros x. replace (S d - 1) with d by lia. apply HV.
    + exact HN'.
Qed.

Lemma neighborsLoop_spec g id depth d frontier visited previous :
  level g id d frontier visited previous ->
  forall x, In x (neighborsLoop g id depth frontier visited) <->
            x <> id /\ within g id (d + depth) x.
Proof.
  revert d frontier visited previous.
  induction depth as [|depth IH]; intros d frontier visited previous L x.
  - simpl. rewrite Nat.add_0_r. apply L.
  - rewrite neighborsLoop_step.
    rewrite (IH (S d) _ _ visited (level_next L)).
    now replace (S d + depth) with (d + S depth) by lia.
Qed.

Lemma level_start g id : level g id 0 [id] JsSet.empty JsSet.empty.
Proof.
  split; [|split].
  - intros x. simpl. split; [tauto|]. intros [_ [n [Hn _]]]. lia.
  - intros _ x. simpl. split; [intros [|[]]; auto | auto].
  - lia.
Qed.

Lemma NoDup_neighborsLoop g id depth frontier visited :
  NoDup visited -> NoDup (neighborsLoop g id depth frontier visited).
Proof.
  revert frontier visited.
  induction depth as [|depth IH]; intros frontier visited Hnd;
    [assumption|].
  rewrite neighborsLoop_step. apply IH.
  now apply expandFrontier_spec.
Qed.

Lemma getNeighbors_none g id depth :
  JsMap.get id (edges g) = None -> getNeighbors id depth g = [].
Proof.
  intros Hnone.
  assert (Hall : forall x, ~ In x (getNeighbors id depth g)).
  { intros x Hin. unfold getNeighbors in Hin.
    apply (neighborsLoop_spec depth (level_start g id)) in Hin.
    destruct Hin as [Hx [n [Hn Hh]]].
    assert (Hstuck : forall k y, hops g id k y -> y = id).
    { intros k y Hk. induction Hk as [|k mid y Hk IHk He]; [reflexivity|].
      subst mid. destruct He as [l [E _]]. congruence. }
    apply Hstuck in Hh. contradiction. }
  destruct (getNeighbors id depth g) as [|y l]; [reflexivity|].
  exfalso. apply (Hall y). now left.
Qed.

(** C9: [getNeighbors(id, depth)] holds exactly the ids other than [id] that
    are reached from [id] along at least one and at most [depth] outgoing
    edges, each once; it is empty for an id with no edge list, so for an id
    that is no node of a well-formed graph; on the chain [A -> B -> C -> D]
    it is [{B}], [{B, C}] and [{B, C, D}] at depths 1, 2 and 10. *)
Theorem getNeighbors_reachable_within_depth :
  (forall g id depth x,
     In x (getNeighbors id depth g) <-> x <> id /\ within g id depth x)
  /\ (forall g id depth, NoDup (getNeighbors id depth g))
  /\ (forall g id depth,
        wf g -> JsMap.has id (nodes g) = false ->
        getNeighbors id depth g = [])
  /\ getNeighbors "A" 1 (chainABCD (R := R)) = ["B"%string]
  /\ getNeighbors "A" 2 (chainABCD (R := R)) = ["B"%string; "C"%string]
  /\ getNeighbors "A" 10 (chainABCD (R := R))
       = ["B"%string; "C"%string; "D"%string].
Proof.
  split; [|split; [|split; [|repeat split]]].
  - intros g id depth x. unfold getNeighbors.
    apply (neighborsLoop_spec depth (level_start g id)).
  - intros g id depth. unfold getNeighbors.
    apply NoDup_neighborsLoop. constructor.
  - intros g id depth W Hid. apply getNeighbors_none.
    apply get_None_In. rewrite (wf_edges_dom W). now apply has_false_In.
Qed.

End NeighborFacts.

(** On the chain: nothing is reached from the id [Z], which is no node. *)
Lemma getNeighbors_reachable_within_depth_witness :
  wf (chainABCD (R := float))
  /\ JsMap.has "Z" (nodes (chainABCD (R := float))) = false
  /\ getNeighbors "Z" 3 (chainABCD (R := float)) = []
  /\ (In "D"%string (getNeighbors "A" 3 (chainABCD (R := float)))
      <-> "D"%string <> "A"%string
          /\ within (chainABCD (R := float)) "A" 3 "D").
Proof.
  assert (W : wf (chainABCD (R := float))) by apply wf_reachable.
  destruct (@getNeighbors_reachable_within_depth float _)
    as [Hspec [_ [Hmissing _]]].
  split; [exact W|]. split; [reflexivity|]. split.
  - apply (Hmissing chainABCD "Z"%string 3 W). reflexivity.
  - apply Hspec.
Defined.

(** ** Ranking *)

Section SortFacts.
Variable R : Type.
Context `{JsNumber R}.
Variable A : Type.
Variable key : A -> R.

Lemma sortInsert_perm (comparefn : A -> A -> R) x (l : list A) :
  Permutation (sortInsert comparefn x l) (x :: l).
Proof.
  induction l as [|y l IH]; [reflexivity|].
  cbn [sortInsert]. destruct (num_gt (comparefn x y) zero); [|reflexivity].
  rewrite IH. apply perm_swap.
Qed.

Lemma arraySort_perm (comparefn : A -> A -> R) (l : list A) :
  Permutation (arraySort comparefn l) l.
Proof.
  unfold arraySort. induction l as [|x l IH]; cbn [fold_right]; [reflexivity|].
  rewrite sortInsert_perm. now constructor.
Qed.

Lemma arraySort_cons (comparefn : A -> A -> R) x (l : list A) :
  arraySort comparefn (x :: l) = sortInsert comparefn x (arraySort comparefn l).
Proof. reflexivity. Qed.

(** [x] passes the elements above it and stops at the first that is not. *)
Lemma sortInsert_descending (domain : list A) x (l : list A) :
  comparableKeys key domain ->
  In x domain -> (forall y, In y l -> In y domain) ->
  descendingBy key l ->
  descendingBy key (sortInsert (fun a b => num_sub (key b) (key a)) x l).
Proof.
  intros [Hsign [Hasym Htrans]] Hx. unfold descendingBy.
  induction l as [|y l IH]; intros Hl Hs.
  - repeat constructor.
  - cbn [sortInsert].
    assert (Hy : In y domain) by (apply Hl; now left).
    assert (Hl' : forall z, In z l -> In z domain)
      by (intros z Hz; apply Hl; now right).
    apply StronglySorted_inv in Hs. destruct Hs as [Hs Hall].
    rewrite (Hsign x y Hx Hy).
    destruct (num_lt (key x) (key y)) eqn:E.
    + constructor; [now apply IH|].
      rewrite Forall_forall in *. intros z Hz.
      apply (Permutation_in _ (sortInsert_perm _ x l)) in Hz.
      destruct Hz as [<-|Hz]; [now apply Hasym | now apply Hall].
    + constructor; [now constructor|].
      constructor; [assumption|].
      rewrite Forall_forall in *. intros z Hz.
      apply (Htrans x y z); auto.
Qed.

Lemma arraySort_descending (l : list A) :
  comparableKeys key l ->
  descendingBy key (arraySort (fun a b => num_sub (key b) (key a)) l).
Proof.
  intros Hc.
  assert (Hgen : forall l', (forall y, In y l' -> In y l) ->
            descendingBy key
              (arraySort (fun a b => num_sub (key b) (key a)) l')).
  { induction l' as [|x l' IH]; intros Hsub; [constructor|].
    rewrite arraySort_cons.
    apply sortInsert_descending with l; try assumption.
    - apply Hsub. now left.
    - intros y Hy. apply Hsub. right.
      now apply (Permutation_in _ (arraySort_perm _ l')) in Hy.
    - apply IH. intros y Hy. apply Hsub. now right. }
  now apply Hgen.
Qed.



End SortFacts.

Section RankingClaims.
Variable R : Type.
Context `{JsNumber R}.
Implicit Types g : MemoryGraph R.
Import JsMapFacts.




End RankingClaims.


(** ** PageRank under exact arithmetic *)

(** The exact rationals are a model of exact arithmetic. *)
Lemma Qc_of_nat_S n :
  Qc_of_Z (Z.of_nat (S n)) = (1 + Qc_of_Z (Z.of_nat n))%Qc.
Proof.
  unfold Qc_of_Z, Qcplus. apply Q2Qc_eq_iff.
  change (this (Q2Qc (inject_Z (Z.of_nat n))))
    with (Qred (inject_Z (Z.of_nat n))).
  change (this 1%Qc) with 1%Q.
  rewrite Qred_correct, Nat2Z.inj_succ. unfold Z.succ.
  rewrite inject_Z_plus. ring.
Qed.

Lemma Qc_of_nat_nonzero n : n <> 0 -> Qc_of_Z (Z.of_nat n) <> 0%Qc.
Proof.
  intros Hn E. unfold Qc_of_Z in E. apply Q2Qc_eq_iff in E.
  unfold Qeq in E. simpl in E. lia.
Qed.

#[export] Instance Qc_exact : ExactArithmetic Qc.
Proof.
  constructor.
  - change (field_theory 0%Qc 1%Qc Qcplus Qcmult Qcminus
              (fun x => Qcminus 0%Qc x) Qcdiv (fun x => Qcdiv 1%Qc x) eq).
    constructor.
    + constructor; intros; ring.
    + discriminate.
    + intros p q. unfold Qcdiv. now rewrite Qcmult_1_l.
    + intros p Hp. unfold Qcdiv. rewrite Qcmult_1_l.
      rewrite Qcmult_comm. now apply Qcmult_inv_r.
  - exact Qc_of_nat_S.
  - exact Qc_of_nat_nonzero.
  - intros x. cbn [num_truthy Qc_number]. unfold Qc_nonzero.
    destruct (Qc_eq_dec x (Qc_of_Z 0)) as [E|E]; [intros _; exact E|].
    discriminate.
Qed.

Section ExactPageRank.
Variable R : Type.
Context `{JsNumber R}.
Context {exact : ExactArithmetic R}.
Implicit Types (g : MemoryGraph R) (r : JsMap.t R).
Import JsMapFacts.

Add Field exactField : exact_field.

Lemma num_of_nat_0 : num_of_nat 0 = zero (R := R).
Proof. reflexivity. Qed.

Lemma sumOver_zero {A : Type} (l : list A) :
  sumOver (fun _ => zero (R := R)) l = zero.
Proof.
  induction l as [|x l IH]; cbn [sumOver fold_right]; [reflexivity|].
  fold (sumOver (fun _ : A => zero (R := R)) l). rewrite IH. ring.
Qed.

Lemma sumOver_cons {A : Type} (f : A -> R) x (l : list A) :
  sumOver f (x :: l) = num_add (f x) (sumOver f l).
Proof. reflexivity. Qed.

Lemma sumOver_ext {A : Type} (f f' : A -> R) (l : list A) :
  (forall x, In x l -> f x = f' x) -> sumOver f l = sumOver f' l.
Proof.
  induction l as [|x l IH]; intros Hext; [reflexivity|].
  rewrite !sumOver_cons. rewrite (Hext x) by now left.
  rewrite IH; [reflexivity|]. intros y Hy. apply Hext. now right.
Qed.

Lemma sumOver_plus {A : Type} (f f' : A -> R) (l : list A) :
  sumOver (fun x => num_add (f x) (f' x)) l
  = num_add (sumOver f l) (sumOver f' l).
Proof.
  induction l as [|x l IH]; [cbn [sumOver fold_right]; ring|].
  rewrite !sumOver_cons, IH. ring.
Qed.

Lemma sumOver_scale {A : Type} (c : R) (f : A -> R) (l : list A) :
  sumOver (fun x => num_mul c (f x)) l = num_mul c (sumOver f l).
Proof.
  induction l as [|x l IH]; [cbn [sumOver fold_right]; ring|].
  rewrite !sumOver_cons, IH. ring.
Qed.

Lemma sumOver_perm {A : Type} (f : A -> R) (l l' : list A) :
  Permutation l l' -> sumOver f l = sumOver f l'.
Proof.
  induction 1 as [|x l l' _ IH|x y l|l l' l'' _ IH1 _ IH2].
  - reflexivity.
  - rewrite !sumOver_cons. now rewrite IH.
  - rewrite !sumOver_cons. ring.
  - now rewrite IH1.
Qed.

Lemma sumOver_filter {A : Type} (p : A -> bool) (f : A -> R) (l : list A) :
  sumOver f (filter p l) = sumOver (fun x => if p x then f x else zero) l.
Proof.
  induction l as [|x l IH]; [reflexivity|].
  rewrite sumOver_cons. cbn [filter].
  destruct (p x); [rewrite sumOver_cons|]; rewrite IH; ring.
Qed.

Lemma sumOver_map {A B : Type} (h : B -> A) (f : A -> R) (l : list B) :
  sumOver f (map h l) = sumOver (fun b => f (h b)) l.
Proof.
  induction l as [|x l IH]; [reflexivity|].
  cbn [map]. rewrite !sumOver_cons. now rewrite IH.
Qed.

Lemma sumOver_exchange {A B : Type} (F : A -> B -> R) (l : list A)
  (m : list B) :
  sumOver (fun x => sumOver (F x) m) l =
  sumOver (fun y => sumOver (fun x => F x y) l) m.
Proof.
  induction l as [|x l IH].
  - exact (eq_sym (sumOver_zero m)).
  - rewrite sumOver_cons, IH, <- sumOver_plus. reflexivity.
Qed.

Lemma fold_left_sum {A : Type} (f : A -> R) (l : list A) (a : R) :
  fold_left (fun acc x => num_add acc (f x)) l a = num_add a (sumOver f l).
Proof.
  revert a. induction l as [|x l IH]; intros a.
  - cbn [fold_left sumOver fold_right]. ring.
  - cbn [fold_left]. rewrite IH, sumOver_cons. ring.
Qed.

Lemma sumOver_const {A : Type} (c : R) (l : list A) :
  sumOver (fun _ => c) l = num_mul (num_of_nat (length l)) c.
Proof.
  induction l as [|x l IH].
  - cbn [sumOver fold_right length]. rewrite num_of_nat_0. ring.
  - rewrite sumOver_cons, IH. cbn [length]. rewrite exact_succ. ring.
Qed.

(** A sum over a duplicate-free list, taken over a larger one. *)
Lemma sumOver_within (f : string -> R) (l m : list string) :
  NoDup l -> NoDup m -> (forall x, In x l -> In x m) ->
  sumOver f l = sumOver (fun y => if JsSet.has y l then f y else zero) m.
Proof.
  intros Hl Hm Hsub. rewrite <- sumOver_filter. apply sumOver_perm.
  apply NoDup_Permutation; [assumption | now apply NoDup_filter|].
  intros x. rewrite filter_In, JsSetFacts.mem_In. split; [auto | tauto].
Qed.

(** [rank || 0] is the rank: zero is the only falsy number. *)
Lemma rankOf_exact r k :
  rankOf r k = match JsMap.get k r with Some v => v | None => zero end.
Proof.
  unfold rankOf, num_or. destruct (JsMap.get k r) as [v|]; [|reflexivity].
  destruct (num_truthy v) eqn:E; [reflexivity|].
  symmetry. now apply exact_falsy.
Qed.

Lemma incomingSum_sum g r u :
  incomingSum g r u = sumOver (share g r) (inSources g u).
Proof.
  unfold incomingSum, inSources.
  destruct (JsMap.get u (reverseEdges g)) as [incoming|]; cbn [spread];
    [|reflexivity].
  etransitivity; [exact (fold_left_sum (share g r) incoming zero) | ring].
Qed.

Lemma danglingSum_sum r dangling :
  danglingSum r dangling = sumOver (rankOf r) dangling.
Proof.
  unfold danglingSum.
  etransitivity; [exact (fold_left_sum (rankOf r) dangling zero) | ring].
Qed.

Lemma In_inSources g s t : In s (inSources g t) <-> inReverse g s t.
Proof.
  unfold inSources, inReverse.
  destruct (JsMap.get t (reverseEdges g)) as [l|]; simpl.
  - split; [intros Hin; now exists l | intros [l' [[= <-] Hin]]; assumption].
  - split; [tauto | intros [l' [[=] _]]].
Qed.

Lemma In_outTargets g s t : In t (outTargets g s) <-> edgeTo g s t.
Proof. symmetry. apply edgeTo_outEdges. Qed.

Lemma NoDup_inSources g t : wf g -> NoDup (inSources g t).
Proof.
  intros W. unfold inSources.
  destruct (JsMap.get t (reverseEdges g)) as [l|] eqn:G; simpl;
    [apply (wf_sources_nodup W _ G) | constructor].
Qed.

Lemma NoDup_outTargets g s : wf g -> NoDup (outTargets g s).
Proof.
  intros W. unfold outTargets, outEdges.
  destruct (JsMap.get s (edges g)) as [l|] eqn:G; simpl;
    [apply (wf_targets_nodup W _ G) | constructor].
Qed.

Lemma inSources_nodes g s t :
  wf g -> In s (inSources g t) -> In s (JsMap.keys (nodes g)).
Proof.
  intros W Hin. apply In_inSources, (wf_reverse_index W) in Hin.
  destruct Hin as [l [G _]]. apply (wf_edges_dom W).
  now apply get_Some_In with l.
Qed.

Lemma outTargets_nodes g s t :
  wf g -> In t (outTargets g s) -> In t (JsMap.keys (nodes g)).
Proof.
  intros W Hin. apply In_outTargets in Hin. apply (wf_targets_nodes W Hin).
Qed.

Lemma has_inSources_outTargets g s t :
  wf g -> JsSet.has s (inSources g t) = JsSet.has t (outTargets g s).
Proof.
  intros W. apply Bool.eq_iff_eq_true.
  rewrite !JsSetFacts.mem_In, In_inSources, In_outTargets.
  apply (wf_reverse_index W).
Qed.

(** What a node hands out along its edges, or holds as dangling mass, is
    its rank. *)
Lemma node_mass g r v :
  wf g -> In v (JsMap.keys (nodes g)) ->
  num_add (num_mul (num_of_nat (length (outTargets g v))) (share g r v))
          (if isDangling g v then rankOf r v else zero)
  = rankOf r v.
Proof.
  intros W Hv. apply (wf_edges_dom W), In_get in Hv. destruct Hv as [l G].
  unfold outTargets, outEdges, share, outDegree, isDangling, targets.
  rewrite G. cbn [spread]. rewrite length_map.
  destruct (length l =? 0) eqn:E.
  - apply Nat.eqb_eq in E. rewrite E. rewrite num_of_nat_0. ring.
  - apply Nat.eqb_neq in E. field. now apply exact_nonzero.
Qed.

(** The mass that flows along the edges plus the dangling mass is the total
    mass: the double sum over targets and their sources is turned into the
    sum over sources of their out-degree times their share. *)
Lemma mass_conservation g r :
  wf g ->
  num_add (sumOver (incomingSum g r) (JsMap.keys (nodes g)))
          (danglingSum r (danglingNodes g))
  = sumOver (rankOf r) (JsMap.keys (nodes g)).
Proof.
  intros W. set (K := JsMap.keys (nodes g)).
  assert (HK : NoDup K) by apply W.
  rewrite danglingSum_sum. unfold danglingNodes. fold K.
  rewrite sumOver_filter.
  rewrite (sumOver_ext (incomingSum g r)
             (fun u => sumOver
                (fun v => if JsSet.has u (outTargets g v)
                          then share g r v else zero) K)).
  2: { intros u Hu. rewrite incomingSum_sum.
       rewrite (@sumOver_within (share g r) (inSources g u) K
                  (@NoDup_inSources g u W) HK
                  (fun s Hs => @inSources_nodes g s u W Hs)).
       apply sumOver_ext. intros v Hv.
       now rewrite has_inSources_outTargets. }
  rewrite sumOver_exchange, <- sumOver_plus.
  apply sumOver_ext. intros v Hv.
  rewrite <- (@node_mass g r v W Hv) at 2. f_equal.
  rewrite <- (@sumOver_within (fun _ => share g r v) (outTargets g v) K
                (@NoDup_outTargets g v W) HK
                (fun t Ht => @outTargets_nodes g v t W Ht)).
  apply sumOver_const.
Qed.

Lemma sweep_as_map g r dangling :
  wf g ->
  fst (pageRankSweep g r dangling) =
  map (fun k => (k, newRankOf g r (danglingSum r dangling) k))
    (JsMap.keys (nodes g)).
Proof.
  intros W. rewrite fst_pageRankSweep.
  rewrite fold_set_fresh; [reflexivity|]. simpl. apply W.
Qed.

(** An iteration keeps the total: [sum rank' = (1 - d) + d * sum rank]. *)
Lemma totalRank_sweep g r :
  wf g -> JsMap.size (nodes g) <> 0 ->
  sumOver (rankOf r) (JsMap.keys (nodes g)) = one ->
  totalRank (fst (pageRankSweep g r (danglingNodes g))) = one.
Proof.
  intros W HN Hone.
  pose proof (mass_conservation r W) as Hm. rewrite Hone in Hm.
  unfold totalRank, JsMap.values.
  rewrite sweep_as_map by assumption. rewrite map_map. cbn [snd].
  rewrite sumOver_map.
  set (D := danglingSum r (danglingNodes g)) in *.
  set (N := num_of_nat (JsMap.size (nodes g))).
  set (d := pageRankDamping (config g)).
  assert (HN' : N <> zero) by now apply exact_nonzero.
  rewrite (sumOver_ext _
             (fun k =>
                num_add
                  (num_add (num_div (num_sub one d) N)
                           (num_mul d (num_div D N)))
                  (num_mul d (incomingSum g r k)))).
  2: { intros k _. unfold newRankOf. fold N d. field. exact HN'. }
  rewrite sumOver_plus, sumOver_const, sumOver_scale.
  replace (num_of_nat (length (JsMap.keys (nodes g)))) with N
    by (unfold N; now rewrite size_keys).
  replace (sumOver (incomingSum g r) (JsMap.keys (nodes g)))
    with (num_sub one D) by (rewrite <- Hm; ring).
  field. exact HN'.
Qed.

Lemma totalRank_keys r :
  NoDup (JsMap.keys r) -> totalRank r = sumOver (rankOf r) (JsMap.keys r).
Proof.
  unfold totalRank. induction r as [|[k v] r IH]; intros Hnd; [reflexivity|].
  inversion Hnd as [|k' l Hk Hnd']; subst.
  change (num_add v (sumOver (fun x : R => x) (JsMap.values r))
          = num_add (rankOf ((k, v) :: r) k)
              (sumOver (rankOf ((k, v) :: r)) (JsMap.keys r))).
  rewrite IH by assumption. f_equal.
  - rewrite rankOf_exact. simpl. now rewrite String.eqb_refl.
  - apply sumOver_ext. intros k' Hk'. rewrite !rankOf_exact. simpl.
    destruct (String.eqb_spec k k') as [->|]; [contradiction | reflexivity].
Qed.

Lemma totalRank_covers g r :
  wf g -> covers g r ->
  totalRank r = sumOver (rankOf r) (JsMap.keys (nodes g)).
Proof.
  intros W [Hnd Hdom]. rewrite totalRank_keys by assumption.
  apply sumOver_perm, NoDup_Permutation; [assumption | apply W | exact Hdom].
Qed.

Lemma rankOf_initialRanks g k :
  In k (JsMap.keys (nodes g)) ->
  rankOf (initialRanks g) k
  = num_div one (num_of_nat (JsMap.size (nodes g))).
Proof.
  intros Hk. rewrite rankOf_exact. unfold initialRanks. rewrite get_fold_set.
  apply JsSetFacts.mem_In in Hk. unfold JsSet.has in Hk. now rewrite Hk.
Qed.

Lemma totalRank_initialRanks g :
  wf g -> JsMap.size (nodes g) <> 0 -> totalRank (initialRanks g) = one.
Proof.
  intros W HN.
  rewrite (totalRank_covers W (covers_initialRanks W)).
  rewrite (sumOver_ext _
             (fun _ => num_div one (num_of_nat (JsMap.size (nodes g)))))
    by (intros k Hk; now apply rankOf_initialRanks).
  rewrite sumOver_const, <- size_keys. field.
  now apply exact_nonzero.
Qed.

Lemma totalRank_pageRankLoop g fuel iter r :
  wf g -> JsMap.size (nodes g) <> 0 ->
  covers g r -> totalRank r = one ->
  totalRank (fst (pageRankLoop g (danglingNodes g) fuel iter r)) = one.
Proof.
  intros W HN. revert iter r.
  induction fuel as [|fuel IH]; intros iter r C Hone; simpl; [assumption|].
  pose proof (covers_pageRankSweep g r (danglingNodes g)) as C'.
  assert (Hone' : totalRank (fst (pageRankSweep g r (danglingNodes g))) = one).
  { apply totalRank_sweep; try assumption.
    now rewrite <- (totalRank_covers W C). }
  destruct (pageRankSweep g r (danglingNodes g)) as [newRanks maxDelta].
  match goal with |- context [if ?b then _ else _] => destruct b end;
    [exact Hone' | now apply IH].
Qed.

(** C2, as amended: under exact arithmetic, that is for every number model
    whose operations obey the laws of a field ([ExactArithmetic]; the exact
    rationals are one, binary64 is none).  On a well-formed graph with at
    least one node (dangling nodes and self-loops included) the rank map
    [computePageRank] returns, which is the one it stores, holds one rank
    per node and sums to exactly 1, whatever the damping, the tolerance and
    the iteration cap; and every iteration maps a rank map of total 1 to a
    rank map of total 1.  (In floating point the total is off by rounding
    errors that the tolerance does not bound.) *)
Theorem pageRank_sums_to_one :
  forall g,
    wf g -> 1 <= JsMap.size (nodes g) ->
    totalRank (snd (computePageRank g)) = one
    /\ pageRanks (fst (computePageRank g)) = snd (computePageRank g)
    /\ covers g (snd (computePageRank g))
    /\ (forall r, covers g r -> totalRank r = one ->
          totalRank (fst (pageRankSweep g r (danglingNodes g))) = one).
Proof.
  intros g W HN. assert (HN' : JsMap.size (nodes g) <> 0) by lia.
  unfold computePageRank. destruct (Nat.eqb_spec (JsMap.size (nodes g)) 0);
    [contradiction|].
  pose proof (totalRank_pageRankLoop (pageRankIterations (config g)) 0 W HN'
                (covers_initialRanks W) (totalRank_initialRanks W HN')) as Ht.
  pose proof (covers_pageRankLoop (danglingNodes g)
                (pageRankIterations (config g)) 0 (covers_initialRanks W)) as Hc.
  destruct (pageRankLoop _ _ _ _ _) as [ranks iterations]. simpl in *.
  repeat split; try assumption; try apply Hc.
  intros r C Hone. apply totalRank_sweep; try assumption.
  now rewrite <- (totalRank_covers W C).
Qed.

End ExactPageRank.

(** The exact rationals are a model of exact arithmetic, and there the
    ranks of the dangling scenario sum to 1. *)
Lemma pageRank_sums_to_one_witness :
  ExactArithmetic Qc
  /\ wf (danglingABC (R := Qc))
  /\ 1 <= JsMap.size (nodes (danglingABC (R := Qc)))
  /\ totalRank (snd (computePageRank (danglingABC (R := Qc)))) = one.
Proof.
  assert (W : wf (danglingABC (R := Qc))) by apply wf_reachable.
  assert (HN : 1 <= JsMap.size (nodes (danglingABC (R := Qc))))
    by (vm_compute; lia).
  split; [exact Qc_exact|]. split; [exact W|]. split; [exact HN|].
  destruct (@pageRank_sums_to_one Qc _ Qc_exact danglingABC W HN)
    as [Htotal _].
  exact Htotal.
Defined.

(** ** The update rule and the PageRank scenarios *)

Lemma fold_left_ext_in {A B : Type} (f f' : A -> B -> A) (l : list B) (a : A) :
  (forall a x, In x l -> f a x = f' a x) ->
  fold_left f l a = fold_left f' l a.
Proof.
  revert a. induction l as [|x l IH]; intros a Hext; simpl; [reflexivity|].
  rewrite (Hext a x) by now left.
  apply IH. intros a' y Hy. apply Hext. now right.
Qed.

Lemma fold_left_filter {A B : Type} (p : B -> bool) (f : A -> B -> A)
  (l : list B) (a : A) :
  fold_left f (filter p l) a
  = fold_left (fun acc x => if p x then f acc x else acc) l a.
Proof.
  revert a. induction l as [|x l IH]; intros a; simpl; [reflexivity|].
  destruct (p x); simpl; apply IH.
Qed.

Section UpdateRule.
Variable R : Type.
Context `{JsNumber R}.
Implicit Types g : MemoryGraph R.
Import JsMapFacts.

Lemma isDangling_noOutEdges g v : isDangling g v = noOutEdges g v.
Proof.
  unfold isDangling, noOutEdges, outEdges.
  destruct (JsMap.get v (edges g)) as [[|e l]|]; reflexivity.
Qed.

Lemma danglingSum_mass g ranks :
  danglingSum ranks (danglingNodes g) = danglingMass g ranks.
Proof.
  unfold danglingSum, danglingNodes, danglingMass. rewrite fold_left_filter.
  apply fold_left_ext_in. intros sum v _. now rewrite isDangling_noOutEdges.
Qed.

(** A source on record has an edge, so its [length || 1] is its length. *)
Lemma incomingSum_inflow g ranks u :
  wf g -> incomingSum g ranks u = inflow g ranks u.
Proof.
  intros W. unfold incomingSum, inflow, inSources.
  destruct (JsMap.get u (reverseEdges g)) as [incoming|] eqn:G;
    [|reflexivity].
  cbn [spread]. apply fold_left_ext_in. intros sum v Hv.
  assert (He : edgeTo g v u).
  { apply (wf_reverse_index W). now exists incoming. }
  destruct He as [l [Gl Hin]]. unfold outDegree, outEdges. rewrite Gl.
  cbn [spread]. destruct l as [|e l]; [destruct Hin | reflexivity].
Qed.

Lemma sweep_specified g ranks :
  wf g ->
  fst (pageRankSweep g ranks (danglingNodes g))
  = map (fun u => (u, specifiedRank g ranks u)) (JsMap.keys (nodes g)).
Proof.
  intros W. rewrite fst_pageRankSweep.
  rewrite fold_set_fresh by (simpl; apply W). cbn [app].
  apply map_ext. intros u. unfold newRankOf, specifiedRank.
  now rewrite danglingSum_mass, (incomingSum_inflow ranks u W).
Qed.

(** The map a run returns comes out of a sweep. *)
Lemma pageRankLoop_last g dangling fuel iter ranks :
  fuel <> 0 ->
  exists previous,
    fst (pageRankLoop g dangling fuel iter ranks)
    = fst (pageRankSweep g previous dangling).
Proof.
  revert iter ranks. induction fuel as [|fuel IH]; intros iter ranks Hfuel;
    [contradiction|].
  cbn [pageRankLoop].
  destruct (pageRankSweep g ranks dangling) as [newRanks maxDelta] eqn:E.
  destruct (num_lt maxDelta (pageRankConvergence (config g))).
  - exists ranks. now rewrite E.
  - destruct fuel as [|fuel'].
    + exists ranks. now rewrite E.
    + now apply IH.
Qed.

Lemma computePageRank_specified g :
  wf g -> JsMap.size (nodes g) <> 0 -> pageRankIterations (config g) <> 0 ->
  exists previous,
    snd (computePageRank g)
    = map (fun u => (u, specifiedRank g previous u)) (JsMap.keys (nodes g)).
Proof.
  intros W HN Hcap. unfold computePageRank.
  destruct (Nat.eqb_spec (JsMap.size (nodes g)) 0); [contradiction|].
  destruct (@pageRankLoop_last g (danglingNodes g)
              (pageRankIterations (config g)) 0 (initialRanks g) Hcap)
    as [previous Hlast].
  destruct (pageRankLoop _ _ _ _ _) as [ranks iterations].
  cbn [fst snd] in *. exists previous.
  rewrite Hlast. now apply sweep_specified.
Qed.

End UpdateRule.

(** C7: the map a run of [computePageRank] returns (on a well-formed graph
    with a node, when an iteration is allowed, in every arithmetic) gives
    every node, in their order, the value of the update rule of the
    specification at the ranks of the iteration before: [(1 - d) / N + d * (inflow + dangling_sum / N)],
    with [dangling_sum] the ranks of the nodes without outgoing edges.  On
    the graph with the edges [A -> B] and [A -> C] only, with damping 0.85
    and the default tolerance and iteration cap, the program (binary64)
    returns after 11 iterations the ranks written below: [B] and [C], the
    dangling nodes, have the same rank, [A] has a strictly smaller one,
    and [A], which has no incoming edge, is above [(1 - d) / N] by its part
    of the dangling mass. *)
Theorem dangling_nodes_outrank_source :
  (forall (R : Type) (number : JsNumber R) (g : MemoryGraph R),
     wf g -> JsMap.size (nodes g) <> 0 ->
     pageRankIterations (config g) <> 0 ->
     exists previous,
       snd (computePageRank g)
       = map (fun u => (u, specifiedRank g previous u))
           (JsMap.keys (nodes g)))
  /\ pageRankDamping (config (danglingABC (R := float)))
     = 0x1.b333333333333p-1%float
  /\ filter (noOutEdges (danglingABC (R := float)))
       (JsMap.keys (nodes (danglingABC (R := float))))
     = ["B"; "C"]%string
  /\ inSources (danglingABC (R := float)) "A" = []
  /\ snd (computePageRank (danglingABC (R := float)))
     = [("A"%string, 0x1.09f95519ce9adp-2%float);
        ("B"%string, 0x1.7b03557318b27p-2%float);
        ("C"%string, 0x1.7b03557318b27p-2%float)]
  /\ emitted (fst (computePageRank (danglingABC (R := float))))
     = [pagerank_computed 11]
  /\ PrimFloat.ltb 0x1.09f95519ce9adp-2 0x1.7b03557318b27p-2 = true
  /\ PrimFloat.ltb
       (PrimFloat.div (PrimFloat.sub 1 0x1.b333333333333p-1) 3)
       0x1.09f95519ce9adp-2 = true.
Proof.
  split.
  { intros R number g. apply computePageRank_specified. }
  repeat split; vm_compute; reflexivity.
Qed.

(** In binary64 the ranks of the triangle and of the dangling scenario sum
    to 1 within ten times the default tolerance. *)
Example pageRank_total_binary64 :
  let tau := pageRankConvergence (DEFAULT_CONFIG (R := float)) in
  let off (g : MemoryGraph float) :=
    PrimFloat.abs (PrimFloat.sub (totalRank64 (snd (computePageRank g))) 1) in
  PrimFloat.leb (off triangleABC) (PrimFloat.mul 10 tau) = true
  /\ PrimFloat.leb (off danglingABC) (PrimFloat.mul 10 tau) = true.
Proof. vm_compute. split; reflexivity. Qed.

(** C2 fails in floating point: on the dangling scenario with the tolerance
    [1e-17], a well-formed graph of three nodes, the program (binary64)
    converges after 29 iterations to ranks whose sum is [2^-52] below 1,
    more than ten times the tolerance away; the rounding error of the sum
    does not shrink with the tolerance. *)
Lemma pageRank_total_misses_tolerance :
  let tau := pageRankConvergence (config danglingTight) in
  let ranks := snd (computePageRank danglingTight) in
  wf danglingTight
  /\ JsMap.size (nodes danglingTight) = 3
  /\ emitted (fst (computePageRank danglingTight)) = [pagerank_computed 29]
  /\ ranks
     = [("A"%string, 0x1.09f959c427e56p-2%float);
        ("B"%string, 0x1.7b03531dec0d3p-2%float);
        ("C"%string, 0x1.7b03531dec0d3p-2%float)]
  /\ PrimFloat.abs (PrimFloat.sub (totalRank64 ranks) 1) = 0x1p-52%float
  /\ PrimFloat.ltb (PrimFloat.mul 10 tau)
       (PrimFloat.abs (PrimFloat.sub (totalRank64 ranks) 1)) = true.
Proof.
  intros tau ranks. split; [apply wf_reachable|].
  repeat split; vm_compute; reflexivity.
Qed.

(** * Further properties *)

(** ** Lookups in the store *)

Section StoreLookups.
Variable R : Type.
Context `{JsNumber R}.
Implicit Types g : MemoryGraph R.
Import JsMapFacts.

Lemma hasEdge_edgeTo s t g : hasEdge s t g = true <-> edgeTo g s t.
Proof.
  rewrite hasEdge_outEdges, existsb_target. symmetry. apply edgeTo_outEdges.
Qed.

Lemma inSources_inReverse g s t : In s (inSources g t) <-> inReverse g s t.
Proof.
  unfold inSources, inReverse.
  destruct (JsMap.get t (reverseEdges g)) as [l|]; simpl.
  - split; [intros Hin; now exists l | intros [l' [[= <-] Hin]]; assumption].
  - split; [tauto | intros [l' [[=] _]]].
Qed.

Lemma has_iff_In {V V' : Type} (m : JsMap.t V) (m' : JsMap.t V') k :
  (In k (JsMap.keys m) <-> In k (JsMap.keys m')) ->
  JsMap.has k m = JsMap.has k m'.
Proof.
  intros Hiff. apply Bool.eq_iff_eq_true. now rewrite !has_In.
Qed.

(** X1: in every state reached from a new graph the reverse index mirrors
    the edge lists ([source] is on record for [target] exactly when
    [hasEdge(source, target)]), an edge joins two nodes, and the edge map and
    the reverse map hold a slot for every node and for nothing else. *)
Theorem reverse_index_mirrors_edges :
  forall (cfg : option (MemoryGraphConfig R)) (ops : list (Op R)),
    let g := exec ops (newGraph cfg) in
    (forall s t, JsSet.has s (inSources g t) = hasEdge s t g)
    /\ (forall s t, hasEdge s t g = true ->
          JsMap.has s (nodes g) = true /\ JsMap.has t (nodes g) = true)
    /\ (forall k, JsMap.has k (edges g) = JsMap.has k (nodes g))
    /\ (forall k, JsMap.has k (reverseEdges g) = JsMap.has k (nodes g)).
Proof.
  intros cfg ops g. pose proof (wf_reachable cfg ops) as W. fold g in W.
  split; [|split; [|split]].
  - intros s t. apply Bool.eq_iff_eq_true.
    rewrite JsSetFacts.mem_In, inSources_inReverse, hasEdge_edgeTo.
    apply (wf_reverse_index W).
  - intros s t He. apply hasEdge_edgeTo in He. split.
    + destruct He as [l [G _]].
      apply has_In, (wf_edges_dom W). now apply get_Some_In with l.
    + apply has_In. apply (wf_targets_nodes W He).
  - intros k. apply has_iff_In, (wf_edges_dom W).
  - intros k. apply has_iff_In, (wf_reverse_dom W).
Qed.

(** X2: [hasEdge] after [addEdge]: the pair asked for is joined exactly when
    it was before or both end points are nodes; no other pair changes. *)
Theorem hasEdge_after_addEdge :
  forall g s t ty w s' t',
    hasEdge s' t' (addEdge s t ty w g) =
    hasEdge s' t' g
    || (String.eqb s' s && String.eqb t' t
        && JsMap.has s (nodes g) && JsMap.has t (nodes g)).
Proof.
  intros g s t ty w s' t'. destruct (skips s t g) eqn:C.
  - rewrite addEdge_skipped by assumption. unfold skips in C.
    destruct (JsMap.has s (nodes g)), (JsMap.has t (nodes g));
      simpl in C; try discriminate;
      now rewrite ?andb_false_r, ?orb_false_r.
  - pose proof C as [Hs Ht]%skips_false. apply has_In in Hs, Ht.
    rewrite Hs, Ht, !andb_true_r. apply Bool.eq_iff_eq_true.
    rewrite orb_true_iff, andb_true_iff, !String.eqb_eq, !hasEdge_edgeTo.
    now apply edgeTo_addEdge.
Qed.

(** X3: [removeNode(x)] on a well-formed graph keeps every other node as it
    was and filters the edges to [x] out of every other edge list, leaving
    the order, type and weight of the remaining edges alone; so a pair is
    joined afterwards exactly when it was and neither end is [x]. *)
Theorem removeNode_keeps_the_rest :
  forall g x,
    wf g ->
    (forall k, JsMap.get k (nodes (removeNode x g)) =
               if String.eqb x k then None else JsMap.get k (nodes g))
    /\ (forall s, s <> x ->
          outEdges (removeNode x g) s = dropTarget x (outEdges g s))
    /\ (forall s t,
          hasEdge s t (removeNode x g) =
          hasEdge s t g && negb (String.eqb s x) && negb (String.eqb t x)).
Proof.
  intros g x W. split; [|split].
  - intros k. rewrite nodes_removeNode. apply get_delete.
  - intros s Hs. destruct (JsMap.has x (nodes g)) eqn:Hx.
    + unfold outEdges. rewrite get_edges_removeNode by assumption.
      destruct (String.eqb_spec x s); [congruence|].
      now destruct (JsMap.get s (edges g)).
    + rewrite removeNode_missing by assumption.
      symmetry. apply dropTarget_absent. intros Hin.
      apply edgeTo_outEdges in Hin. apply (wf_targets_nodes W) in Hin.
      apply has_In in Hin. congruence.
  - intros s t. apply Bool.eq_iff_eq_true.
    rewrite !andb_true_iff, !negb_true_iff, !String.eqb_neq, !hasEdge_edgeTo.
    destruct (JsMap.has x (nodes g)) eqn:Hx.
    + rewrite edgeTo_removeNode by assumption. tauto.
    + rewrite removeNode_missing by assumption.
      split; [|tauto]. intros He. split; [split; [assumption|]|].
      * intros ->. destruct He as [l [G _]].
        apply get_Some_In, (wf_edges_dom W), has_In in G. congruence.
      * intros ->. apply (wf_targets_nodes W), has_In in He. congruence.
Qed.

(** X4: re-adding an entry whose id is a node of a well-formed graph
    replaces the node record in place and nothing else: the edges in both
    directions, the ranks, the communities and the order of the nodes stay;
    only the flag is raised. *)
Theorem addNode_again_keeps_edges :
  forall g (entry : MemoryEntry R),
    wf g ->
    JsMap.has (entry_id entry) (nodes g) = true ->
    addNode entry g = {|
      nodes := JsMap.set (entry_id entry) (nodeOfEntry entry) (nodes g);
      edges := edges g;
      reverseEdges := reverseEdges g;
      pageRanks := pageRanks g;
      communities := communities g;
      config := config g;
      dirty := true;
      emitted := emitted g |}
    /\ JsMap.keys (nodes (addNode entry g)) = JsMap.keys (nodes g).
Proof.
  intros g entry W Hid.
  rewrite addNode_accepted by now apply rejects_present.
  assert (He : JsMap.has (entry_id entry) (edges g) = true).
  { apply has_In, (wf_edges_dom W), has_In, Hid. }
  assert (Hr : JsMap.has (entry_id entry) (reverseEdges g) = true).
  { apply has_In, (wf_reverse_dom W), has_In, Hid. }
  rewrite He, Hr. split; [reflexivity|]. simpl. now apply keys_set_old.
Qed.

End StoreLookups.

(** Re-adding the node [B] of the chain keeps its edges. *)
Lemma addNode_again_keeps_edges_witness :
  wf (chainABCD (R := float))
  /\ JsMap.has "B" (nodes (chainABCD (R := float))) = true
  /\ edges (addNode (falsyEntry "B") (chainABCD (R := float)))
     = edges (chainABCD (R := float)).
Proof.
  assert (W : wf (chainABCD (R := float))) by apply wf_reachable.
  split; [exact W|]. split; [reflexivity|].
  destruct (@addNode_again_keeps_edges float _ chainABCD (falsyEntry "B") W eq_refl)
    as [Heq _].
  rewrite Heq. reflexivity.
Defined.

(** Removing [B] from the chain leaves [C -> D] and drops [A -> B]. *)
Lemma removeNode_keeps_the_rest_witness :
  wf (chainABCD (R := float))
  /\ hasEdge "C" "D" (removeNode "B" (chainABCD (R := float))) = true
  /\ hasEdge "A" "B" (removeNode "B" (chainABCD (R := float))) = false.
Proof.
  assert (W : wf (chainABCD (R := float))) by apply wf_reachable.
  split; [exact W|].
  destruct (@removeNode_keeps_the_rest float chainABCD "B"%string W)
    as [_ [_ Hhas]].
  split; rewrite Hhas; reflexivity.
Defined.

(** ** PageRank: what a run reports and what it depends on *)

Section PageRankRuns.
Variable R : Type.
Context `{JsNumber R}.
Implicit Types g : MemoryGraph R.
Import JsMapFacts.

Lemma pageRankLoop_count g dangling fuel iter ranks :
  iter + Nat.min 1 fuel <= snd (pageRankLoop g dangling fuel iter ranks)
  /\ snd (pageRankLoop g dangling fuel iter ranks) <= iter + fuel.
Proof.
  revert iter ranks. induction fuel as [|fuel IH]; intros iter ranks; simpl.
  - lia.
  - destruct (pageRankSweep g ranks dangling) as [newRanks maxDelta].
    destruct (num_lt maxDelta (pageRankConvergence (config g))); simpl.
    + lia.
    + destruct (IH (S iter) newRanks) as [Hlo Hhi]. lia.
Qed.

(** X5: [computePageRank] leaves nodes, edges, communities and
    configuration alone, clears the flag, and emits exactly one
    [pagerank:computed] event whose iteration count is at most the
    configured cap, is 0 on a graph without nodes (where the map returned
    is empty and the ranks on record stay) and is at least 1 when there are
    nodes and the cap is not 0. *)
Theorem computePageRank_reports_once :
  forall g,
    structure (fst (computePageRank g)) = structure g
    /\ communities (fst (computePageRank g)) = communities g
    /\ config (fst (computePageRank g)) = config g
    /\ dirty (fst (computePageRank g)) = false
    /\ exists iterations,
         emitted (fst (computePageRank g))
           = emitted g ++ [pagerank_computed iterations]
         /\ iterations <= pageRankIterations (config g)
         /\ (JsMap.size (nodes g) = 0 ->
               iterations = 0
               /\ snd (computePageRank g) = JsMap.empty
               /\ pageRanks (fst (computePageRank g)) = pageRanks g)
         /\ (JsMap.size (nodes g) <> 0 ->
               pageRankIterations (config g) <> 0 -> 1 <= iterations).
Proof.
  intros g. unfold computePageRank.
  destruct (Nat.eqb_spec (JsMap.size (nodes g)) 0) as [E|E].
  - do 4 (split; [reflexivity|]). exists 0.
    split; [reflexivity|]. split; [lia|]. split.
    + intros _. repeat split.
    + intros Hn. contradiction.
  - pose proof (pageRankLoop_count g (danglingNodes g)
                  (pageRankIterations (config g)) 0 (initialRanks g))
      as [Hlo Hhi].
    destruct (pageRankLoop _ _ _ _ _) as [ranks iterations].
    cbn [fst snd] in *.
    do 4 (split; [reflexivity|]). exists iterations.
    split; [reflexivity|]. split; [lia|]. split.
    + intros Hn. contradiction.
    + intros _ Hcap. lia.
Qed.

Lemma rankOf_ext (r r' : JsMap.t R) k :
  JsMap.get k r = JsMap.get k r' -> rankOf r k = rankOf r' k.
Proof. unfold rankOf. now intros ->. Qed.

Lemma dangling_nodes g k :
  In k (danglingNodes g) -> In k (JsMap.keys (nodes g)).
Proof. unfold danglingNodes. rewrite filter_In. tauto. Qed.

Lemma sources_nodes g s t :
  wf g -> JsMap.get t (reverseEdges g) = Some s ->
  forall v, In v s -> In v (JsMap.keys (nodes g)).
Proof.
  intros W G v Hv.
  assert (Hr : inReverse g v t) by (now exists s).
  apply (wf_reverse_index W) in Hr. destruct Hr as [l [E _]].
  apply (wf_edges_dom W). now apply get_Some_In with l.
Qed.

(** An iteration reads the old ranks at the nodes only. *)
Lemma pageRankSweep_ext g (r r' : JsMap.t R) :
  wf g ->
  (forall k, In k (JsMap.keys (nodes g)) -> rankOf r k = rankOf r' k) ->
  pageRankSweep g r (danglingNodes g) = pageRankSweep g r' (danglingNodes g).
Proof.
  intros W Hext. unfold pageRankSweep.
  assert (Hd : danglingSum r (danglingNodes g)
               = danglingSum r' (danglingNodes g)).
  { unfold danglingSum. apply fold_left_ext_in. intros a k Hk.
    now rewrite (Hext k (dangling_nodes g k Hk)). }
  rewrite Hd. apply fold_left_ext_in. intros st k Hk.
  assert (Hin : incomingSum g r k = incomingSum g r' k).
  { unfold incomingSum.
    destruct (JsMap.get k (reverseEdges g)) as [s|] eqn:G; [|reflexivity].
    apply fold_left_ext_in. intros a v Hv.
    now rewrite (Hext v (@sources_nodes g s k W G v Hv)). }
  unfold newRankOf. now rewrite Hin, (Hext k Hk).
Qed.

Lemma get_initialRanks g k :
  In k (JsMap.keys (nodes g)) ->
  JsMap.get k (initialRanks g)
  = Some (num_div one (num_of_nat (JsMap.size (nodes g)))).
Proof.
  intros Hk. unfold initialRanks. rewrite get_fold_set.
  apply JsSetFacts.mem_In in Hk. unfold JsSet.has in Hk. now rewrite Hk.
Qed.

Lemma pageRankLoop_set_pageRanks g (old : JsMap.t R) dangling fuel iter r :
  pageRankLoop (set_pageRanks old g) dangling fuel iter r
  = pageRankLoop g dangling fuel iter r.
Proof.
  revert iter r. induction fuel as [|fuel IH]; intros iter r; [reflexivity|].
  cbn [pageRankLoop].
  change (pageRankSweep (set_pageRanks old g)) with (pageRankSweep g).
  destruct (pageRankSweep g r dangling) as [newRanks maxDelta].
  change (config (set_pageRanks old g)) with (config g).
  now rewrite IH.
Qed.

(** X6: on a well-formed graph, when at least one iteration is allowed,
    the ranks [computePageRank] returns do not depend on the ranks on
    record before the call: every run restarts from the uniform
    distribution. *)
Theorem computePageRank_ignores_old_ranks :
  forall g (old : JsMap.t R),
    wf g ->
    pageRankIterations (config g) <> 0 ->
    snd (computePageRank (set_pageRanks old g)) = snd (computePageRank g).
Proof.
  intros g old W Hcap. unfold computePageRank. simpl.
  destruct (JsMap.size (nodes g) =? 0); [reflexivity|].
  change (danglingNodes (set_pageRanks old g)) with (danglingNodes g).
  destruct (pageRankIterations (config g)) as [|fuel]; [contradiction|].
  assert (Hloop : pageRankLoop (set_pageRanks old g) (danglingNodes g)
                    (S fuel) 0 (initialRanks (set_pageRanks old g))
                  = pageRankLoop g (danglingNodes g) (S fuel) 0
                      (initialRanks g)).
  { rewrite pageRankLoop_set_pageRanks. cbn [pageRankLoop].
    rewrite (@pageRankSweep_ext g (initialRanks (set_pageRanks old g))
               (initialRanks g) W).
    - destruct (pageRankSweep g (initialRanks g) (danglingNodes g))
        as [newRanks maxDelta].
      reflexivity.
    - intros k Hk. apply rankOf_ext.
      rewrite (get_initialRanks g k Hk).
      apply (get_initialRanks (set_pageRanks old g) k Hk). }
  rewrite Hloop. now destruct (pageRankLoop _ _ _ _ _).
Qed.

End PageRankRuns.

(** Stale ranks on the dangling scenario do not change the outcome. *)
Lemma computePageRank_ignores_old_ranks_witness :
  wf (danglingABC (R := float))
  /\ pageRankIterations (config (danglingABC (R := float))) <> 0
  /\ snd (computePageRank
            (set_pageRanks [("A"%string, 7%float)] (danglingABC (R := float))))
     = snd (computePageRank (danglingABC (R := float))).
Proof.
  assert (W : wf (danglingABC (R := float))) by apply wf_reachable.
  assert (Hcap : pageRankIterations (config (danglingABC (R := float))) <> 0)
    by (vm_compute; discriminate).
  split; [exact W|]. split; [exact Hcap|].
  exact (@computePageRank_ignores_old_ranks float _ danglingABC
           [("A"%string, 7%float)] W Hcap).
Defined.

(** ** Shuffling and label propagation *)

Lemma update_nth_head_perm {A : Type} (l : list A) j a y :
  nth_error l j = Some y -> Permutation (y :: update_nth j a l) (a :: l).
Proof.
  revert j. induction l as [|b l IH]; intros j Hj.
  - destruct j; discriminate.
  - destruct j as [|j]; simpl in *.
    + injection Hj as ->. apply perm_swap.
    + apply perm_trans with (b :: y :: update_nth j a l); [apply perm_swap|].
      apply perm_trans with (b :: a :: l); [|apply perm_swap].
      apply perm_skip. now apply IH.
Qed.

Lemma swap_perm {A : Type} i j (l : list A) : Permutation (swap i j l) l.
Proof.
  unfold swap.
  destruct (nth_error l i) as [x|] eqn:Hi; [|reflexivity].
  destruct (nth_error l j) as [y|] eqn:Hj; [|reflexivity].
  revert i j Hi Hj. induction l as [|a l IH]; intros i j Hi Hj.
  - destruct i; discriminate.
  - destruct i as [|i], j as [|j]; simpl in *.
    + injection Hi as ->. reflexivity.
    + injection Hi as ->. now apply update_nth_head_perm.
    + injection Hj as ->. now apply update_nth_head_perm.
    + apply perm_skip. now apply IH.
Qed.

Lemma shuffleLoop_spec {A : Type} i draws (l : list A) :
  Permutation (fst (shuffleLoop i draws l)) l
  /\ snd (shuffleLoop i draws l) = skipn i draws.
Proof.
  revert draws l. induction i as [|i IH]; intros draws l; simpl.
  - split; reflexivity.
  - destruct draws as [|r draws]; simpl.
    + destruct (IH [] (swap (S i) 0 l)) as [Hp Hs]. split.
      * rewrite Hp. apply swap_perm.
      * rewrite Hs. now destruct i.
    + destruct (IH draws (swap (S i) (r mod (S i + 1)) l)) as [Hp Hs]. split.
      * rewrite Hp. apply swap_perm.
      * exact Hs.
Qed.

(** X9: whatever the random draws, [shuffleArray] returns a rearrangement
    of its input (the same elements, each as often), and uses up one draw
    per element but the first. *)
Theorem shuffleArray_permutes :
  forall (A : Type) (arr : list A) (draws : list nat),
    Permutation (fst (shuffleArray arr draws)) arr
    /\ length (fst (shuffleArray arr draws)) = length arr
    /\ snd (shuffleArray arr draws) = skipn (length arr - 1) draws.
Proof.
  intros A arr draws. unfold shuffleArray.
  destruct (shuffleLoop_spec (length arr - 1) draws arr) as [Hp Hs].
  split; [exact Hp|]. split; [now apply Permutation_length | exact Hs].
Qed.

Lemma shuffleArray_In {A : Type} (arr : list A) draws x :
  In x (fst (shuffleArray arr draws)) -> In x arr.
Proof.
  apply Permutation_in. unfold shuffleArray.
  apply (shuffleLoop_spec (length arr - 1) draws arr).
Qed.

Section CommunityFacts.
Variable R : Type.
Context `{JsNumber R}.
Implicit Types g : MemoryGraph R.
Import JsMapFacts.

Lemma countLabel_keys g labels neighbor amount (counts : JsMap.t R) :
  labelled g labels ->
  (forall l, In l (JsMap.keys counts) -> In l (JsMap.keys (nodes g))) ->
  forall l,
    In l (JsMap.keys (countLabel (JsMap.get neighbor labels) amount counts)) ->
    In l (JsMap.keys (nodes g)).
Proof.
  intros [_ Hval] Hc l. unfold countLabel.
  destruct (JsMap.get neighbor labels) as [l'|] eqn:G; [|apply Hc].
  rewrite In_keys_set. intros [->|Hin]; [now apply (Hval neighbor) | now apply Hc].
Qed.

Lemma labelCountsOf_keys g labels nodeId :
  labelled g labels ->
  forall l, In l (JsMap.keys (labelCountsOf g labels nodeId)) ->
            In l (JsMap.keys (nodes g)).
Proof.
  intros HL. unfold labelCountsOf.
  assert (Hout : forall (es : list (GraphEdge R)) (counts : JsMap.t R),
    (forall l, In l (JsMap.keys counts) -> In l (JsMap.keys (nodes g))) ->
    forall l,
      In l (JsMap.keys
              (fold_left
                 (fun counts edge =>
                    countLabel (JsMap.get (edge_targetId edge) labels)
                      (edge_weight edge) counts) es counts)) ->
      In l (JsMap.keys (nodes g))).
  { induction es as [|e es IH]; intros counts Hc; simpl; [exact Hc|].
    apply IH. now apply countLabel_keys. }
  assert (Hin : forall (ss : list string) (counts : JsMap.t R),
    (forall l, In l (JsMap.keys counts) -> In l (JsMap.keys (nodes g))) ->
    forall l,
      In l (JsMap.keys
              (fold_left
                 (fun counts sourceId =>
                    countLabel (JsMap.get sourceId labels) one counts)
                 ss counts)) ->
      In l (JsMap.keys (nodes g))).
  { induction ss as [|s ss IH]; intros counts Hc; simpl; [exact Hc|].
    apply IH. now apply countLabel_keys. }
  assert (Hfrom : forall l,
    In l (JsMap.keys
            (fold_left
               (fun counts edge =>
                  countLabel (JsMap.get (edge_targetId edge) labels)
                    (edge_weight edge) counts)
               (spread [] (JsMap.get nodeId (edges g))) JsMap.empty)) ->
    In l (JsMap.keys (nodes g))).
  { apply Hout. intros l []. }
  destruct (JsMap.get nodeId (reverseEdges g)); [now apply Hin | exact Hfrom].
Qed.

Lemma bestLabel_origin current (counts : JsMap.t R) m :
  bestLabel current counts = Some m ->
  current = Some m \/ In m (JsMap.keys counts).
Proof.
  unfold bestLabel.
  assert (Hgen : forall (best : option string * R),
    fst (fold_left
           (fun best kv =>
              if num_gt (snd kv) (snd best) then (Some (fst kv), snd kv)
              else best) counts best) = Some m ->
    fst best = Some m \/ In m (JsMap.keys counts)).
  { induction counts as [|[l c] counts IH]; intros best; simpl; [auto|].
    intros Hm. apply IH in Hm. destruct Hm as [Hm|Hm]; [|auto].
    destruct (num_gt c (snd best)); simpl in Hm; [|auto].
    injection Hm as ->. right. now left. }
  intros Hm. now apply Hgen in Hm.
Qed.

Lemma labelled_relabel g st nodeId :
  In nodeId (JsMap.keys (nodes g)) ->
  labelled g (fst st) -> labelled g (fst (relabel g st nodeId)).
Proof.
  intros Hn HL. unfold relabel.
  destruct (0 <? JsMap.size (labelCountsOf g (fst st) nodeId)); [|assumption].
  destruct (bestLabel _ _) as [maxLabel|] eqn:B; [|assumption].
  destruct (option_string_eqb _ _); [assumption|].
  simpl. destruct HL as [Hkeys Hval]. split.
  - rewrite keys_set_old; [assumption|].
    apply has_In. now rewrite Hkeys.
  - intros k l. rewrite get_set.
    destruct (String.eqb nodeId k); [|apply Hval].
    intros [= <-]. apply bestLabel_origin in B. destruct B as [B|B].
    + now apply (Hval nodeId).
    + exact (@labelCountsOf_keys g (fst st) nodeId (conj Hkeys Hval) _ B).
Qed.

Lemma labelled_sweep g nodeIds st :
  (forall k, In k nodeIds -> In k (JsMap.keys (nodes g))) ->
  labelled g (fst st) ->
  labelled g (fst (fold_left (relabel g) nodeIds st)).
Proof.
  revert st. induction nodeIds as [|k nodeIds IH]; intros st Hsub HL; simpl;
    [assumption|].
  apply IH.
  - intros k' Hk'. apply Hsub. now right.
  - apply labelled_relabel; [|assumption]. apply Hsub. now left.
Qed.

Lemma labelled_propagateLabels g fuel draws labels :
  labelled g labels -> labelled g (propagateLabels g fuel draws labels).
Proof.
  revert draws labels.
  induction fuel as [|fuel IH]; intros draws labels HL; simpl; [assumption|].
  pose proof (@shuffleArray_In _ (JsMap.keys (nodes g)) draws) as Hsh.
  destruct (shuffleArray (JsMap.keys (nodes g)) draws) as [nodeIds draws'].
  pose proof (@labelled_sweep g nodeIds (labels, false) Hsh HL) as Hs.
  destruct (fold_left (relabel g) nodeIds (labels, false))
    as [labels' changed].
  destruct changed; [now apply IH | assumption].
Qed.

Lemma labelled_initial g :
  NoDup (JsMap.keys (nodes g)) ->
  labelled g
    (fold_left (fun labels nodeId => JsMap.set nodeId nodeId labels)
       (JsMap.keys (nodes g)) JsMap.empty).
Proof.
  intros Hnd. split.
  - rewrite (fold_set_fresh (fun k => k)) by assumption.
    unfold JsMap.keys. simpl. rewrite map_map. apply map_id.
  - intros k l. rewrite (get_fold_set (fun k => k)).
    destruct (existsb (String.eqb k) (JsMap.keys (nodes g))) eqn:E;
      [|discriminate].
    intros [= <-]. now apply JsSetFacts.mem_In.
Qed.

Lemma distinct_fold_bounds (l : list string) (s : JsSet.t) :
  let s' := fold_left (fun s x => JsSet.add x s) l s in
  JsSet.size s <= JsSet.size s'
  /\ JsSet.size s' <= JsSet.size s + length l
  /\ (l <> [] -> 1 <= JsSet.size s').
Proof.
  revert s. induction l as [|x l IH]; intros s; simpl.
  - split; [lia|]. split; [lia | congruence].
  - destruct (IH (JsSet.add x s)) as [Hlo [Hhi _]].
    assert (Hadd : JsSet.size s <= JsSet.size (JsSet.add x s)
                   /\ JsSet.size (JsSet.add x s) <= S (JsSet.size s)
                   /\ 1 <= JsSet.size (JsSet.add x s)).
    { unfold JsSet.add, JsSet.size. destruct (JsSet.has x s) eqn:E.
      - apply JsSetFacts.mem_In in E. destruct s; [destruct E | simpl; lia].
      - rewrite length_app. simpl. lia. }
    split; [lia|]. split; [lia|]. intros _. lia.
Qed.

(** X10: on a well-formed graph [detectCommunities] labels every node and
    nothing else, in the order of the nodes, each label being the id of a
    node; it stores the map it returns, touches neither nodes, edges, ranks
    nor the flag, and emits one [communities:detected] event whose count is
    at most the number of nodes, and at least 1 when there is a node. *)
Theorem detectCommunities_labels_every_node :
  forall g (draws : list nat),
    wf g ->
    let labels := snd (detectCommunities draws g) in
    let g' := fst (detectCommunities draws g) in
    JsMap.keys labels = JsMap.keys (nodes g)
    /\ (forall k l, JsMap.get k labels = Some l -> JsMap.has l (nodes g) = true)
    /\ communities g' = labels
    /\ structure g' = structure g
    /\ pageRanks g' = pageRanks g
    /\ dirty g' = dirty g
    /\ exists n,
         emitted g' = emitted g ++ [communities_detected n]
         /\ n <= JsMap.size (nodes g)
         /\ (JsMap.size (nodes g) <> 0 -> 1 <= n).
Proof.
  intros g draws W labels g'.
  assert (HL : labelled g labels).
  { apply labelled_propagateLabels, labelled_initial, W. }
  destruct HL as [Hkeys Hval].
  split; [exact Hkeys|]. split.
  { intros k l G. apply has_In. now apply (Hval k). }
  do 4 (split; [reflexivity|]).
  exists (distinctCount (JsMap.values labels)). split; [reflexivity|].
  destruct (distinct_fold_bounds (JsMap.values labels) JsSet.empty)
    as [_ [Hhi Hlo]].
  assert (Hlen : length (JsMap.values labels) = JsMap.size (nodes g)).
  { rewrite size_keys, <- Hkeys. unfold JsMap.values, JsMap.keys.
    now rewrite !length_map. }
  unfold distinctCount. rewrite <- Hlen. split; [exact Hhi|].
  intros Hn. apply Hlo. destruct (JsMap.values labels); [contradiction | discriminate].
Qed.

End CommunityFacts.

(** Label propagation on the triangle labels [A], [B] and [C]. *)
Lemma detectCommunities_labels_every_node_witness :
  wf (triangleABC (R := float))
  /\ JsMap.keys (snd (detectCommunities [2; 0; 1; 1] (triangleABC (R := float))))
     = ["A"; "B"; "C"]%string.
Proof.
  assert (W : wf (triangleABC (R := float))) by apply wf_reachable.
  split; [exact W|].
  destruct (@detectCommunities_labels_every_node float _ triangleABC
              [2; 0; 1; 1] W) as [Hkeys _].
  rewrite Hkeys. reflexivity.
Defined.

(** ** Building from a store, and similarity edges *)

Section BuilderFacts.
Variable R : Type.
Context `{JsNumber R}.
Implicit Types g : MemoryGraph R.
Import JsMapFacts.

Lemma In_nodes_addNode e g k :
  In k (JsMap.keys (nodes (addNode e g))) <->
  In k (JsMap.keys (nodes g)) \/ (k = entry_id e /\ rejects e g = false).
Proof.
  destruct (rejects e g) eqn:C.
  - rewrite addNode_rejected by assumption. intuition discriminate.
  - rewrite addNode_accepted by assumption. simpl. rewrite In_keys_set.
    intuition.
Qed.

Lemma size_addNode e g :
  JsMap.size (nodes g) <= JsMap.size (nodes (addNode e g))
  /\ JsMap.size (nodes (addNode e g)) <= S (JsMap.size (nodes g)).
Proof.
  destruct (rejects e g) eqn:C.
  - rewrite addNode_rejected by assumption. lia.
  - rewrite addNode_accepted by assumption. simpl. rewrite size_set.
    destruct (JsMap.has _ _); lia.
Qed.

Lemma edgeTo_addNodes entries g s t :
  edgeTo (addNodes entries g) s t <-> edgeTo g s t.
Proof.
  unfold addNodes. revert g.
  induction entries as [|e entries IH]; intros g; simpl; [tauto|].
  rewrite IH. apply edgeTo_addNode.
Qed.

Lemma config_addNodes entries g : config (addNodes entries g) = config g.
Proof.
  unfold addNodes. revert g.
  induction entries as [|e entries IH]; intros g; simpl; [reflexivity|].
  rewrite IH. apply config_addNode.
Qed.

Lemma In_nodes_addNodes entries g k :
  (In k (JsMap.keys (nodes g)) -> In k (JsMap.keys (nodes (addNodes entries g))))
  /\ (In k (JsMap.keys (nodes (addNodes entries g))) ->
      In k (JsMap.keys (nodes g))
      \/ exists e, In e entries /\ entry_id e = k).
Proof.
  unfold addNodes. revert g.
  induction entries as [|e entries IH]; intros g; simpl; [tauto|].
  destruct (IH (addNode e g)) as [Hkeep Horigin]. split.
  - intros Hk. apply Hkeep, In_nodes_addNode. now left.
  - intros Hk. apply Horigin in Hk. destruct Hk as [Hk|[e' [He' Hid]]].
    + apply In_nodes_addNode in Hk. destruct Hk as [Hk|[-> _]]; [now left|].
      right. exists e. split; [now left | reflexivity].
    + right. exists e'. split; [now right | assumption].
Qed.

Lemma addNodes_room entries g :
  JsMap.size (nodes g) + length entries <= maxNodes (config g) ->
  forall e, In e entries ->
    In (entry_id e) (JsMap.keys (nodes (addNodes entries g))).
Proof.
  unfold addNodes. revert g.
  induction entries as [|e entries IH]; intros g Hroom e' He'; simpl in *;
    [contradiction|].
  assert (Hacc : rejects e g = false).
  { unfold rejects. apply andb_false_iff. left. apply Nat.leb_gt. lia. }
  destruct He' as [<-|He'].
  - apply (In_nodes_addNodes entries (addNode e g)).
    apply In_nodes_addNode. right. now split.
  - apply IH; [|assumption]. rewrite config_addNode.
    pose proof (size_addNode e g). lia.
Qed.

(** The references of one entry. *)
Lemma edgeTo_addReferences source refs g s t :
  let g' :=
    fold_left (fun g refId => addEdge source refId reference DEFAULT_WEIGHT g)
      refs g in
  nodes g' = nodes g
  /\ (edgeTo g' s t <->
      edgeTo g s t
      \/ (s = source /\ In t refs
          /\ In s (JsMap.keys (nodes g)) /\ In t (JsMap.keys (nodes g)))).
Proof.
  revert g. induction refs as [|r refs IH]; intros g; simpl.
  - split; [reflexivity | tauto].
  - destruct (IH (addEdge source r reference DEFAULT_WEIGHT g)) as [Hn Hiff].
    cbv zeta in Hn, Hiff. rewrite nodes_addEdge in Hn, Hiff.
    split; [exact Hn|]. rewrite Hiff.
    destruct (skips source r g) eqn:C.
    + rewrite addEdge_skipped by assumption.
      assert (Hno : ~ (In source (JsMap.keys (nodes g))
                       /\ In r (JsMap.keys (nodes g)))).
      { intros Hin. apply skips_false in Hin. congruence. }
      split.
      * intros [He|[-> [Ht [Hs Ht']]]]; [now left|]. right. tauto.
      * intros [He|[-> [[<-|Ht] [Hs Ht']]]]; [now left | tauto |].
        right. tauto.
    + rewrite edgeTo_addEdge by assumption.
      apply skips_false in C. destruct C as [Hs Hr].
      split.
      * intros [[He|[-> ->]]|[-> [Ht [Hs' Ht']]]]; [now left | |]; right; tauto.
      * intros [He|[-> [[<-|Ht] [Hs' Ht']]]]; [tauto | tauto |].
        right. tauto.
Qed.

Lemma edgeTo_addReferenceEdges entries g s t :
  nodes (addReferenceEdges entries g) = nodes g
  /\ (edgeTo (addReferenceEdges entries g) s t <->
      edgeTo g s t
      \/ (declares entries s t
          /\ In s (JsMap.keys (nodes g)) /\ In t (JsMap.keys (nodes g)))).
Proof.
  unfold addReferenceEdges. revert g.
  induction entries as [|e entries IH]; intros g; simpl.
  - split; [reflexivity|]. split; [tauto|].
    intros [He|[[e [[] _]] _]]. assumption.
  - destruct (edgeTo_addReferences (entry_id e) (entry_references e) g s t)
      as [Hn1 Hiff1]. cbv zeta in Hn1, Hiff1.
    destruct (IH (fold_left
                    (fun g refId =>
                       addEdge (entry_id e) refId reference DEFAULT_WEIGHT g)
                    (entry_references e) g)) as [Hn Hiff].
    rewrite Hn1 in Hn, Hiff. split; [exact Hn|].
    rewrite Hiff, Hiff1. unfold declares. split.
    + intros [[He|[-> [Ht [Hs Ht']]]]|[[e' [He' [Hid Ht]]] Hin]].
      * now left.
      * right. split; [|tauto]. exists e. split; [now left | tauto].
      * right. split; [|tauto]. exists e'. split; [now right | tauto].
    + intros [He|[[e' [[<-|He'] [Hid Ht]]] Hin]].
      * left. now left.
      * left. right. subst s. tauto.
      * right. split; [|tauto]. now exists e'.
Qed.

Lemma emitted_addNodes entries g : emitted (addNodes entries g) = emitted g.
Proof.
  unfold addNodes. revert g.
  induction entries as [|e entries IH]; intros g; simpl; [reflexivity|].
  rewrite IH. unfold addNode. now destruct (_ && _).
Qed.

Lemma emitted_addEdge s t ty w g : emitted (addEdge s t ty w g) = emitted g.
Proof. unfold addEdge. now destruct (_ || _). Qed.

Lemma emitted_addReferenceEdges entries g :
  emitted (addReferenceEdges entries g) = emitted g.
Proof.
  unfold addReferenceEdges. revert g.
  induction entries as [|e entries IH]; intros g; simpl; [reflexivity|].
  rewrite IH. generalize (entry_references e). intros refs. revert g.
  induction refs as [|r refs IHr]; intros g; simpl; [reflexivity|].
  rewrite IHr. apply emitted_addEdge.
Qed.

Lemma buildFromBackend_fulfilled :
  forall (backend : IMemoryBackend R) namespace g entries,
    backend_query backend namespace (maxNodes (config g)) = Fulfilled entries ->
    let g' := fst (buildFromBackend backend namespace g) in
    (forall k, In k (JsMap.keys (nodes g)) -> In k (JsMap.keys (nodes g')))
    /\ (forall k, In k (JsMap.keys (nodes g')) ->
          In k (JsMap.keys (nodes g))
          \/ exists e, In e entries /\ entry_id e = k)
    /\ (JsMap.size (nodes g) + length entries <= maxNodes (config g) ->
        forall e, In e entries -> In (entry_id e) (JsMap.keys (nodes g')))
    /\ (forall s t,
          edgeTo g' s t <->
          edgeTo g s t
          \/ (declares entries s t
              /\ In s (JsMap.keys (nodes g')) /\ In t (JsMap.keys (nodes g'))))
    /\ dirty g' = true
    /\ emitted g' = emitted g ++ [graph_built (JsMap.size (nodes g'))]
    /\ snd (buildFromBackend backend namespace g) = Fulfilled tt.
Proof.
  intros backend namespace g entries Hq g'. subst g'.
  unfold buildFromBackend. rewrite Hq.
  cbn [fst snd emit set_dirty nodes dirty emitted].
  assert (Hn : nodes (addReferenceEdges entries (addNodes entries g))
               = nodes (addNodes entries g)).
  { apply (edgeTo_addReferenceEdges entries (addNodes entries g) ""%string
             ""%string). }
  rewrite Hn.
  split; [intros k; apply In_nodes_addNodes|].
  split; [intros k; apply In_nodes_addNodes|].
  split; [apply addNodes_room|].
  split.
  { intros s t. unfold edgeTo at 1. cbn [edges].
    fold (edgeTo (addReferenceEdges entries (addNodes entries g)) s t).
    destruct (edgeTo_addReferenceEdges entries (addNodes entries g) s t)
      as [_ Hiff].
    rewrite Hiff, edgeTo_addNodes. tauto. }
  split; [reflexivity|]. split; [|reflexivity].
  now rewrite emitted_addReferenceEdges, emitted_addNodes.
Qed.

(** X11: what [buildFromBackend] leaves behind.  When the store rejects
    the query the call is rejected with the same reason and the graph, its
    flag and its events are as before.  Otherwise the nodes that were there
    stay, every new node is an entry of the answer, and all entries become
    nodes when the capacity has room for them; the edges are the earlier
    ones and the references the entries declare between two nodes of the
    result, whatever the order of the entries; the flag is raised and one
    [graph:built] event reports the node count. *)
Theorem buildFromBackend_nodes_and_references :
  forall (backend : IMemoryBackend R) namespace g,
    let g' := fst (buildFromBackend backend namespace g) in
    match backend_query backend namespace (maxNodes (config g)) with
    | Rejected reason =>
        buildFromBackend backend namespace g = (g, Rejected reason)
    | Fulfilled entries =>
        (forall k, In k (JsMap.keys (nodes g)) -> In k (JsMap.keys (nodes g')))
        /\ (forall k, In k (JsMap.keys (nodes g')) ->
              In k (JsMap.keys (nodes g))
              \/ exists e, In e entries /\ entry_id e = k)
        /\ (JsMap.size (nodes g) + length entries <= maxNodes (config g) ->
            forall e, In e entries -> In (entry_id e) (JsMap.keys (nodes g')))
        /\ (forall s t,
              edgeTo g' s t <->
              edgeTo g s t
              \/ (declares entries s t
                  /\ In s (JsMap.keys (nodes g'))
                  /\ In t (JsMap.keys (nodes g'))))
        /\ dirty g' = true
        /\ emitted g' = emitted g ++ [graph_built (JsMap.size (nodes g'))]
        /\ snd (buildFromBackend backend namespace g) = Fulfilled tt
    end.
Proof.
  intros backend namespace g g'.
  destruct (backend_query backend namespace (maxNodes (config g)))
    as [entries|why] eqn:Hq.
  - exact (buildFromBackend_fulfilled backend namespace g Hq).
  - unfold buildFromBackend. now rewrite Hq.
Qed.

End BuilderFacts.

(** ** What [addSimilarityEdges] touches *)

Section SimilarityFrame.
Variable R : Type.
Context `{JsNumber R}.
Implicit Types g : MemoryGraph R.
Import JsMapFacts.

Lemma sameButEdges_refl g : sameButEdges g g.
Proof. repeat split. Qed.

Lemma sameButEdges_trans g1 g2 g3 :
  sameButEdges g1 g2 -> sameButEdges g2 g3 -> sameButEdges g1 g3.
Proof.
  unfold sameButEdges.
  intros [A1 [A2 [A3 [A4 A5]]]] [B1 [B2 [B3 [B4 B5]]]].
  repeat split; congruence.
Qed.

Lemma sameButEdges_addEdge s t ty w g : sameButEdges g (addEdge s t ty w g).
Proof. unfold sameButEdges, addEdge. destruct (_ || _); repeat split. Qed.

Lemma outEdges_addEdge_other s0 t0 ty w g s :
  s <> s0 -> outEdges (addEdge s0 t0 ty w g) s = outEdges g s.
Proof.
  intros Hs. destruct (skips s0 t0 g) eqn:C.
  - now rewrite addEdge_skipped.
  - rewrite addEdge_accepted by assumption. unfold outEdges. simpl.
    rewrite get_set_neq; [reflexivity | congruence].
Qed.

Lemma similarityStep_edges entryId g added r :
  let st := similarityStep entryId (g, added) r in
  sameButEdges g (fst st)
  /\ added <= snd st <= S added
  /\ (forall s, s <> entryId -> outEdges (fst st) s = outEdges g s)
  /\ (forall s t,
        edgeTo (fst st) s t <->
        edgeTo g s t
        \/ (s = entryId /\ t = entry_id (result_entry r) /\ similarTo g entryId r
            /\ In s (JsMap.keys (nodes g)) /\ In t (JsMap.keys (nodes g)))).
Proof.
  unfold similarityStep, similarTo.
  destruct (String.eqb_spec (entry_id (result_entry r)) entryId) as [E|E].
  { cbn [fst snd]. split; [apply sameButEdges_refl|]. split; [lia|].
    split; [reflexivity|]. intros s t. split; [tauto|].
    intros [He|[_ [_ [[Hne _] _]]]]; [assumption | contradiction]. }
  destruct (num_ge (result_score r) (similarityThreshold (config g))) eqn:G.
  2: { cbn [fst snd]. split; [apply sameButEdges_refl|]. split; [lia|].
       split; [reflexivity|]. intros s t. split; [tauto|].
       intros [He|[_ [_ [[_ Hge] _]]]]; [assumption | discriminate]. }
  cbn [fst snd]. split; [apply sameButEdges_addEdge|].
  split; [destruct (hasEdge _ _ _); lia|].
  split; [intros s Hs; now apply outEdges_addEdge_other|].
  intros s t. destruct (skips entryId (entry_id (result_entry r)) g) eqn:C.
  - rewrite addEdge_skipped by assumption. split; [tauto|].
    intros [He|[-> [-> [_ Hin]]]]; [assumption|].
    apply skips_false in Hin. congruence.
  - rewrite edgeTo_addEdge by assumption. apply skips_false in C.
    split.
    + intros [He|[-> ->]]; [now left|]. right. tauto.
    + intros [He|[-> [-> _]]]; [now left|]. right. tauto.
Qed.

Lemma similarityFold_edges entryId results g added :
  let st := fold_left (similarityStep entryId) results (g, added) in
  sameButEdges g (fst st)
  /\ added <= snd st <= added + length results
  /\ (forall s, s <> entryId -> outEdges (fst st) s = outEdges g s)
  /\ (forall s t,
        edgeTo (fst st) s t <->
        edgeTo g s t
        \/ (s = entryId
            /\ (exists r, In r results /\ t = entry_id (result_entry r)
                          /\ similarTo g entryId r)
            /\ In s (JsMap.keys (nodes g)) /\ In t (JsMap.keys (nodes g)))).
Proof.
  revert g added. induction results as [|r results IH]; intros g added.
  - cbn [fold_left fst snd length]. split; [apply sameButEdges_refl|].
    split; [lia|]. split; [reflexivity|]. intros s t. split; [tauto|].
    intros [He|[_ [[r [[] _]] _]]]. assumption.
  - cbn [fold_left length].
    pose proof (similarityStep_edges entryId g added r) as Hstep.
    destruct (similarityStep entryId (g, added) r) as [g1 added1].
    cbv zeta in Hstep. cbn [fst snd] in Hstep.
    destruct Hstep as [Hf1 [Hc1 [Ho1 He1]]].
    specialize (IH g1 added1). cbv zeta in IH.
    destruct IH as [Hf [Hc [Ho He]]].
    assert (Hnodes : nodes g1 = nodes g) by apply Hf1.
    assert (Hcfg : config g1 = config g) by apply Hf1.
    split; [now apply sameButEdges_trans with g1|].
    split; [lia|].
    split; [intros s Hs; now rewrite Ho, Ho1|].
    intros s t. rewrite He, He1. unfold similarTo in *.
    rewrite Hnodes, Hcfg. split.
    + intros [[He0|[-> [-> [Hsim Hin]]]]|[-> [[r' [Hr' [-> Hsim]]] Hin]]].
      * now left.
      * right. split; [reflexivity|]. split; [|assumption].
        exists r. split; [now left | now split].
      * right. split; [reflexivity|]. split; [|assumption].
        exists r'. split; [now right | now split].
    + intros [He0|[-> [[r' [[<-|Hr'] [-> Hsim]]] Hin]]].
      * left. now left.
      * left. right. tauto.
      * right. split; [reflexivity|]. split; [|assumption].
        exists r'. tauto.
Qed.

Lemma sameButEdges_addSimilarityEdges (backend : IMemoryBackend R) entryId g :
  sameButEdges g (fst (addSimilarityEdges backend entryId g)).
Proof.
  unfold addSimilarityEdges.
  destruct (backend_get backend entryId) as [[entry|]|why]; cbn [fst];
    try apply sameButEdges_refl.
  destruct (entry_embedding entry) as [embedding|]; cbn [fst];
    try apply sameButEdges_refl.
  destruct (backend_search backend embedding 20 (similarityThreshold (config g)))
    as [results|why]; cbn [fst]; try apply sameButEdges_refl.
  pose proof (similarityFold_edges entryId results g 0) as Hfold.
  destruct (fold_left (similarityStep entryId) results (g, 0)) as [g' added].
  apply Hfold.
Qed.

(** X12: [addSimilarityEdges] changes edges that leave [entryId] and
    nothing else: nodes, ranks, communities, configuration and events are
    as before, the edge list of every other node is untouched, no edge is
    lost, [entryId] gets no edge to itself, and a rejected promise leaves
    the graph exactly as it was. *)
Theorem addSimilarityEdges_touches_one_edge_list :
  forall (backend : IMemoryBackend R) entryId g,
    let g' := fst (addSimilarityEdges backend entryId g) in
    sameButEdges g g'
    /\ (forall s, s <> entryId -> outEdges g' s = outEdges g s)
    /\ (forall s t, edgeTo g s t -> edgeTo g' s t)
    /\ (edgeTo g' entryId entryId -> edgeTo g entryId entryId)
    /\ (forall reason,
          snd (addSimilarityEdges backend entryId g) = Rejected reason ->
          g' = g).
Proof.
  intros backend entryId g. unfold addSimilarityEdges.
  assert (Hsame : sameButEdges g g
                  /\ (forall s, s <> entryId -> outEdges g s = outEdges g s)
                  /\ (forall s t, edgeTo g s t -> edgeTo g s t)
                  /\ (edgeTo g entryId entryId -> edgeTo g entryId entryId)).
  { split; [apply sameButEdges_refl|]. tauto. }
  destruct (backend_get backend entryId) as [[entry|]|why]; cbn [fst snd];
    try (repeat (split; [apply Hsame|]); reflexivity).
  destruct (entry_embedding entry) as [embedding|]; cbn [fst snd];
    try (repeat (split; [apply Hsame|]); intros; reflexivity).
  destruct (backend_search backend embedding 20 (similarityThreshold (config g)))
    as [results|why]; cbn [fst snd];
    try (repeat (split; [apply Hsame|]); reflexivity).
  pose proof (similarityFold_edges entryId results g 0) as Hfold.
  destruct (fold_left (similarityStep entryId) results (g, 0)) as [g' added].
  cbv zeta in Hfold. cbn [fst snd] in *.
  destruct Hfold as [Hf [_ [Ho He]]].
  split; [exact Hf|]. split; [exact Ho|].
  split; [intros s t Hst; apply He; now left|].
  split; [|discriminate].
  intros Hloop. apply He in Hloop.
  destruct Hloop as [Hold|[_ [[r [_ [Hid [Hne _]]]] _]]]; [assumption|].
  now symmetry in Hid.
Qed.

(** X13: with an embedding on record and a fulfilled search, the edges
    after [addSimilarityEdges] are the earlier ones and, where [entryId] is
    a node, one from it to every other node among the results whose score
    reaches the threshold.  The number returned is at most the number of
    results. *)
Theorem addSimilarityEdges_links_similar_nodes :
  forall (backend : IMemoryBackend R) entryId g entry embedding results,
    backend_get backend entryId = Fulfilled (Some entry) ->
    entry_embedding entry = Some embedding ->
    backend_search backend embedding 20 (similarityThreshold (config g))
      = Fulfilled results ->
    let g' := fst (addSimilarityEdges backend entryId g) in
    (forall s t,
       edgeTo g' s t <->
       edgeTo g s t
       \/ (s = entryId
           /\ (exists r, In r results /\ t = entry_id (result_entry r)
                         /\ similarTo g entryId r)
           /\ In s (JsMap.keys (nodes g)) /\ In t (JsMap.keys (nodes g))))
    /\ exists added,
         snd (addSimilarityEdges backend entryId g) = Fulfilled added
         /\ added <= length results.
Proof.
  intros backend entryId g entry embedding results Hget Hemb Hsearch.
  unfold addSimilarityEdges. rewrite Hget, Hemb, Hsearch.
  pose proof (similarityFold_edges entryId results g 0) as Hfold.
  destruct (fold_left (similarityStep entryId) results (g, 0)) as [g' added].
  cbv zeta in *. cbn [fst snd] in *.
  destruct Hfold as [_ [Hc [_ He]]].
  split; [exact He|]. exists added. split; [reflexivity | lia].
Qed.

End SimilarityFrame.

(** The nodes [A] and [B], and a store that answers [B] at score 0.9: the
    call links [A] to [B] (binary64 arithmetic). *)
Lemma addSimilarityEdges_links_similar_nodes_witness :
  edgeTo
    (fst (addSimilarityEdges (oneNeighbourBackend "B") "A"
            (exec [OpAddNode (plainEntry "A"); OpAddNode (plainEntry "B")]
               (newGraph (R := float) None))))
    "A" "B".
Proof.
  pose (g := exec [OpAddNode (plainEntry "A"); OpAddNode (plainEntry "B")]
               (newGraph (R := float) None)).
  destruct (@addSimilarityEdges_links_similar_nodes float _
              (oneNeighbourBackend "B") "A"%string g
              {| entry_id := "A"%string;
                 entry_metadata := None;
                 entry_accessCount := zero;
                 entry_createdAt := zero;
                 entry_references := [];
                 entry_embedding := Some [one] |}
              [one]
              [{| result_entry := plainEntry "B";
                  result_score := num_lit 9 10 |}]
              eq_refl eq_refl eq_refl) as [He _].
  apply He. right. split; [reflexivity|]. split.
  - eexists. split; [left; reflexivity|]. split; [reflexivity|].
    split; [discriminate | reflexivity].
  - split; vm_compute; tauto.
Defined.

(** ** What every reachable state satisfies *)

Section ReachableFacts.
Variable R : Type.
Context `{JsNumber R}.
Implicit Types g : MemoryGraph R.
Import JsMapFacts.

Lemma nodes_computePageRank g : nodes (fst (computePageRank g)) = nodes g.
Proof.
  pose proof (structure_computePageRank g) as E. unfold structure in E.
  congruence.
Qed.

Lemma communities_computePageRank g :
  communities (fst (computePageRank g)) = communities g.
Proof.
  unfold computePageRank. destruct (_ =? 0); [reflexivity|].
  now destruct (pageRankLoop _ _ _ _ _).
Qed.

Lemma covers_computePageRank g :
  wf g ->
  covers (fst (computePageRank g)) (pageRanks (fst (computePageRank g))).
Proof.
  intros W. unfold covers. rewrite nodes_computePageRank.
  unfold computePageRank.
  destruct (JsMap.size (nodes g) =? 0) eqn:E.
  - cbn [fst emit set_dirty pageRanks]. split; [apply W|].
    intros k. split; [apply W|].
    apply Nat.eqb_eq in E. rewrite size_keys in E.
    destruct (JsMap.keys (nodes g)); [intros [] | discriminate].
  - pose proof (covers_pageRankLoop (danglingNodes g)
                  (pageRankIterations (config g)) 0 (covers_initialRanks W))
      as C.
    destruct (pageRankLoop _ _ _ _ _) as [ranks iterations]. exact C.
Qed.

Lemma cached_ensurePageRank g :
  wf g -> cached g -> cached (ensurePageRank g).
Proof.
  intros W C. unfold ensurePageRank.
  destruct (dirty g) eqn:D; [|assumption].
  intros _. now apply covers_computePageRank.
Qed.

Lemma cached_step op g : wf g -> cached g -> cached (step op g).
Proof.
  intros W C. destruct op; simpl.
  - intros Hd. pose proof (dirty_addNode _ _ Hd) as E. rewrite E in *. auto.
  - intros Hd. pose proof (dirty_addEdge _ _ _ _ _ Hd) as E. rewrite E in *.
    auto.
  - intros Hd. pose proof (dirty_removeNode _ _ Hd) as E. rewrite E in *. auto.
  - unfold buildFromBackend.
    destruct (backend_query _ _ _); simpl; [discriminate | assumption].
  - intros Hd.
    assert (E : fst (addSimilarityEdges backend entryId g) = g).
    { unfold addSimilarityEdges in *.
      destruct (backend_get _ _) as [[entry|]|]; simpl in *; auto.
      destruct (entry_embedding entry); simpl in *; auto.
      destruct (backend_search _ _ _ _) as [results|]; simpl in *; auto.
      pose proof (dirty_similarityFold entryId results (g, 0)) as Hfold.
      destruct (fold_left _ results (g, 0)) as [g' added]. simpl in *.
      now apply Hfold. }
    rewrite E in *. auto.
  - intros _. now apply covers_computePageRank.
  - exact C.
  - now apply cached_ensurePageRank.
  - now apply cached_ensurePageRank.
Qed.

Lemma communities_addNode e g : communities (addNode e g) = communities g.
Proof. unfold addNode. now destruct (_ && _). Qed.

Lemma communities_addNodes entries g :
  communities (addNodes entries g) = communities g.
Proof.
  unfold addNodes. revert g.
  induction entries as [|e entries IH]; intros g; simpl; [reflexivity|].
  rewrite IH. apply communities_addNode.
Qed.

Lemma sameButEdges_addReferenceEdges entries g :
  sameButEdges g (addReferenceEdges entries g).
Proof.
  unfold addReferenceEdges. revert g.
  induction entries as [|e entries IH]; intros g; simpl;
    [apply sameButEdges_refl|].
  eapply sameButEdges_trans; [|apply IH].
  generalize (entry_references e). intros refs. revert g.
  induction refs as [|r refs IHr]; intros g; simpl;
    [apply sameButEdges_refl|].
  eapply sameButEdges_trans; [apply sameButEdges_addEdge | apply IHr].
Qed.

Lemma labelsNodes_same g g' :
  nodes g' = nodes g -> communities g' = communities g ->
  labelsNodes g -> labelsNodes g'.
Proof. unfold labelsNodes. intros -> ->. auto. Qed.

Lemma labelsNodes_ensurePageRank g :
  labelsNodes g -> labelsNodes (ensurePageRank g).
Proof.
  unfold ensurePageRank. destruct (dirty g); [|auto].
  apply labelsNodes_same;
    [apply nodes_computePageRank | apply communities_computePageRank].
Qed.

Lemma labelsNodes_detectCommunities draws g :
  wf g -> labelsNodes (fst (detectCommunities draws g)).
Proof.
  intros W. unfold labelsNodes, detectCommunities.
  cbn [fst emit communities nodes]. intros k Hk.
  assert (HL : labelled g
                 (propagateLabels g MAX_ITERATIONS draws
                    (fold_left
                       (fun labels nodeId => JsMap.set nodeId nodeId labels)
                       (JsMap.keys (nodes g)) JsMap.empty))).
  { apply labelled_propagateLabels, labelled_initial, W. }
  destruct HL as [Hkeys _]. now rewrite Hkeys in Hk.
Qed.

Lemma labelsNodes_step op g : wf g -> labelsNodes g -> labelsNodes (step op g).
Proof.
  intros W L. destruct op; simpl.
  - intros k Hk. rewrite communities_addNode in Hk.
    apply In_nodes_addNode. left. now apply L.
  - revert L. apply labelsNodes_same; apply sameButEdges_addEdge.
  - unfold removeNode. destruct (negb _); [assumption|].
    intros k. simpl. rewrite !In_keys_delete. intros [Hk Hin].
    split; [assumption | now apply L].
  - unfold buildFromBackend.
    destruct (backend_query _ _ _) as [entries|why]; simpl; [|assumption].
    unfold labelsNodes. cbn [emit set_dirty communities nodes]. intros k Hk.
    destruct (sameButEdges_addReferenceEdges entries (addNodes entries g))
      as [En [_ [Ec _]]].
    rewrite En. rewrite Ec, communities_addNodes in Hk.
    apply In_nodes_addNodes. now apply L.
  - revert L. apply labelsNodes_same; apply sameButEdges_addSimilarityEdges.
  - revert L. apply labelsNodes_same;
      [apply nodes_computePageRank | apply communities_computePageRank].
  - now apply labelsNodes_detectCommunities.
  - now apply labelsNodes_ensurePageRank.
  - now apply labelsNodes_ensurePageRank.
Qed.

Lemma reachable_invariants cfg ops :
  labelsNodes (exec ops (newGraph (R := R) cfg))
  /\ cached (exec ops (newGraph (R := R) cfg)).
Proof.
  assert (Hgen : forall g, wf g -> labelsNodes g -> cached g ->
                           labelsNodes (exec ops g) /\ cached (exec ops g)).
  { unfold exec. induction ops as [|op ops IH]; intros g W L C; simpl;
      [now split|].
    apply IH; [now apply wf_step | now apply labelsNodes_step
               | now apply cached_step]. }
  apply Hgen; [apply wf_newGraph | intros k [] | discriminate].
Qed.

(** X14: in every state the public operations can reach, community labels
    are kept for nodes only, and whenever the flag is down the rank map
    holds one rank for each node and for nothing else. *)
Theorem reachable_labels_and_ranks_fit_the_nodes :
  forall (cfg : option (MemoryGraphConfig R)) (ops : list (Op R)),
    let g := exec ops (newGraph cfg) in
    (forall k, JsMap.has k (communities g) = true ->
               JsMap.has k (nodes g) = true)
    /\ (dirty g = false ->
        NoDup (JsMap.keys (pageRanks g))
        /\ forall k, JsMap.has k (pageRanks g) = JsMap.has k (nodes g)).
Proof.
  intros cfg ops g. destruct (reachable_invariants cfg ops) as [L C].
  fold g in L, C. split.
  - intros k. rewrite !has_In. apply L.
  - intros Hd. destruct (C Hd) as [Hnd Hdom]. split; [exact Hnd|].
    intros k. specialize (Hdom k). rewrite <- !has_In in Hdom.
    destruct (JsMap.has k (pageRanks g)), (JsMap.has k (nodes g));
      intuition congruence.
Qed.

Lemma delete_set_fresh {V : Type} k (v : V) m :
  JsMap.has k m = false -> JsMap.delete k (JsMap.set k v m) = m.
Proof.
  intros Hk. apply has_false_In in Hk. rewrite set_absent by assumption.
  unfold JsMap.delete. rewrite filter_app. simpl.
  rewrite String.eqb_refl. simpl. rewrite app_nil_r.
  revert Hk. unfold JsMap.keys.
  induction m as [|[k0 v0] m IH]; simpl; [reflexivity|].
  intros Hn. string_cases k0 k.
  - exfalso. apply Hn. now left.
  - rewrite IH; [reflexivity | tauto].
Qed.

(** X15: adding a node that is new and then removing it gives back the
    graph as it was, with the flag raised: in a reachable state, below
    capacity, nothing of the entry is left in nodes, edges, reverse index,
    ranks or communities. *)
Theorem addNode_then_removeNode_round_trip :
  forall (cfg : option (MemoryGraphConfig R)) (ops : list (Op R)) entry,
    let g := exec ops (newGraph cfg) in
    JsMap.has (entry_id entry) (nodes g) = false ->
    JsMap.size (nodes g) < maxNodes (config g) ->
    removeNode (entry_id entry) (addNode entry g) = set_dirty true g.
Proof.
  intros cfg ops entry g Hnew Hroom.
  assert (W : wf g) by apply wf_reachable.
  destruct (reachable_invariants cfg ops) as [L _]. fold g in L.
  assert (Hacc : rejects entry g = false).
  { unfold rejects. apply andb_false_iff. left. apply Nat.leb_gt. lia. }
  assert (He : JsMap.has (entry_id entry) (edges g) = false).
  { apply has_false_In. rewrite (wf_edges_dom W). now apply has_false_In. }
  assert (Hr : JsMap.has (entry_id entry) (reverseEdges g) = false).
  { apply has_false_In. rewrite (wf_reverse_dom W). now apply has_false_In. }
  assert (Hp : JsMap.has (entry_id entry) (pageRanks g) = false).
  { apply has_false_In. intros Hin. apply (wf_ranks_dom W) in Hin.
    apply has_false_In in Hnew. contradiction. }
  assert (Hc : JsMap.has (entry_id entry) (communities g) = false).
  { apply has_false_In. intros Hin. apply L in Hin.
    apply has_false_In in Hnew. contradiction. }
  rewrite addNode_accepted by assumption. rewrite He, Hr.
  unfold removeNode. cbn [nodes edges reverseEdges pageRanks communities
                          config dirty emitted].
  rewrite has_set, String.eqb_refl. cbn [orb negb].
  rewrite get_set_eq. cbn [spread unlinkTargets fold_left].
  rewrite get_set_eq. cbn [unlinkSources fold_left].
  rewrite !delete_set_fresh by assumption.
  rewrite !delete_absent by assumption.
  reflexivity.
Qed.

(** X16: the ranking queries cache.  After one of them the flag is down,
    so a second query, of either kind, leaves the state alone, emits no
    further event, and answers as it would have in place of the first. *)
Theorem queries_rank_once :
  forall g (rs rs' : list (SearchResult R)) alpha alpha' n n',
    let g1 := fst (rankWithGraph rs alpha g) in
    let g2 := fst (getTopNodes n g) in
    g2 = g1
    /\ dirty g1 = false
    /\ rankWithGraph rs' alpha' g1 = (g1, snd (rankWithGraph rs' alpha' g))
    /\ getTopNodes n' g1 = (g1, snd (getTopNodes n' g))
    /\ (dirty g = false -> g1 = g).
Proof.
  intros g rs rs' alpha alpha' n n'. cbn [fst snd rankWithGraph getTopNodes].
  assert (Hd : dirty (ensurePageRank g) = false).
  { unfold ensurePageRank. destruct (dirty g) eqn:D;
      [apply dirty_computePageRank | assumption]. }
  assert (Hi : ensurePageRank (ensurePageRank g) = ensurePageRank g).
  { unfold ensurePageRank at 1. now rewrite Hd. }
  split; [reflexivity|]. split; [exact Hd|].
  unfold rankWithGraph, getTopNodes. rewrite Hi.
  split; [reflexivity|]. split; [reflexivity|].
  intros D. unfold ensurePageRank. now rewrite D.
Qed.

End ReachableFacts.

(** A node [E] joins the chain [A -> B -> C -> D] and leaves again. *)
Lemma addNode_then_removeNode_round_trip_witness :
  removeNode "E" (addNode (plainEntry "E") (chainABCD (R := float)))
  = set_dirty true chainABCD.
Proof.
  apply (@addNode_then_removeNode_round_trip float _ None
           [OpAddNode (plainEntry "A"); OpAddNode (plainEntry "B");
            OpAddNode (plainEntry "C"); OpAddNode (plainEntry "D");
            OpAddEdge "A" "B" reference one; OpAddEdge "B" "C" reference one;
            OpAddEdge "C" "D" reference one] (plainEntry "E")).
  - reflexivity.
  - vm_compute. lia.
Defined.

(** ** The best-ranked nodes *)

Lemma get_of_In {V : Type} (m : JsMap.t V) k v :
  NoDup (JsMap.keys m) -> In (k, v) m -> JsMap.get k m = Some v.
Proof.
  unfold JsMap.keys. induction m as [|[k0 v0] m IH]; simpl; [intros _ []|].
  intros Hnd Hin. apply NoDup_cons_iff in Hnd. destruct Hnd as [Hk0 Hnd].
  destruct Hin as [[= -> ->]|Hin].
  - now rewrite String.eqb_refl.
  - string_cases k0 k.
    + exfalso. apply Hk0. apply in_map_iff. now exists (k, v).
    + now apply IH.
Qed.

Lemma In_of_get {V : Type} (m : JsMap.t V) k v :
  JsMap.get k m = Some v -> In (k, v) m.
Proof.
  induction m as [|[k0 v0] m IH]; simpl; [discriminate|].
  string_cases k0 k.
  - intros [= ->]. now left.
  - intros G. right. now apply IH.
Qed.

Section TopNodes.
Variable R : Type.
Context `{JsNumber R}.
Implicit Types g : MemoryGraph R.
Import JsMapFacts.

Lemma descendingBy_app {A : Type} (key : A -> R) (l1 l2 : list A) :
  descendingBy key (l1 ++ l2) ->
  descendingBy key l1
  /\ forall a b, In a l1 -> In b l2 -> num_lt (key a) (key b) = false.
Proof.
  unfold descendingBy. induction l1 as [|x l1 IH]; simpl; intros Hs.
  - split; [constructor | intros a b []].
  - apply StronglySorted_inv in Hs. destruct Hs as [Hs Hx].
    destruct (IH Hs) as [Hs1 Hcross]. split.
    + constructor; [assumption|].
      rewrite Forall_forall in *. intros y Hy. apply Hx, in_or_app. now left.
    + intros a b [<-|Ha] Hb; [|now apply Hcross].
      rewrite Forall_forall in Hx. apply Hx, in_or_app. now right.
Qed.

Lemma descendingBy_map {A B : Type} (key : A -> R) (key' : B -> R)
  (f : A -> B) (l : list A) :
  (forall a, key' (f a) = key a) ->
  descendingBy key l -> descendingBy key' (map f l).
Proof.
  intros Hf. unfold descendingBy.
  induction 1 as [|x l Hs IH Hx]; simpl; constructor; [assumption|].
  rewrite Forall_forall in *. intros y Hy. apply in_map_iff in Hy.
  destruct Hy as [a [<- Ha]]. rewrite !Hf. now apply Hx.
Qed.

Lemma nodes_ensurePageRank g : nodes (ensurePageRank g) = nodes g.
Proof.
  unfold ensurePageRank. destruct (dirty g); [|reflexivity].
  apply nodes_computePageRank.
Qed.

Lemma communities_ensurePageRank g :
  communities (ensurePageRank g) = communities g.
Proof.
  unfold ensurePageRank. destruct (dirty g); [|reflexivity].
  apply communities_computePageRank.
Qed.

Lemma dirty_ensurePageRank g : dirty (ensurePageRank g) = false.
Proof.
  unfold ensurePageRank. destruct (dirty g) eqn:D;
    [apply dirty_computePageRank | assumption].
Qed.

(** X17: on a reachable state, in every arithmetic, binary64 included.
    [getTopNodes(n)] answers with [n] nodes, or with all of them when there
    are fewer; each node at most once, with the rank on record for it and
    its community (its own id when it has none).  Where the ranks on record
    compare as real numbers do (no [NaN] among them), the answer is in
    descending order of rank and no node left out has a higher rank than
    one that is returned. *)
Theorem getTopNodes_returns_the_best :
  forall (cfg : option (MemoryGraphConfig R)) (ops : list (Op R)) (n : nat),
    let g := exec ops (newGraph cfg) in
    let g' := fst (getTopNodes n g) in
    let top := snd (getTopNodes n g) in
    length top = Nat.min n (JsMap.size (nodes g))
    /\ NoDup (map (@top_id R) top)
    /\ (forall t, In t top ->
          JsMap.has (top_id t) (nodes g) = true
          /\ JsMap.get (top_id t) (pageRanks g') = Some (top_pageRank t)
          /\ top_community t
             = string_or (JsMap.get (top_id t) (communities g)) (top_id t))
    /\ (comparableKeys (@snd string R) (pageRanks g') ->
        descendingBy (@top_pageRank R) top
        /\ forall t k rank, In t top ->
             JsMap.get k (pageRanks g') = Some rank ->
             ~ In k (map (@top_id R) top) ->
             num_lt (top_pageRank t) rank = false).
Proof.
  intros cfg ops n g g' top.
  assert (W : wf g) by apply wf_reachable.
  destruct (reachable_invariants cfg ops) as [_ C]. fold g in C.
  assert (Eg' : g' = ensurePageRank g) by reflexivity.
  assert (Hcov : covers g (pageRanks g')).
  { pose proof (cached_ensurePageRank W C (dirty_ensurePageRank g)) as Hc.
    unfold covers in *. rewrite nodes_ensurePageRank in Hc. now rewrite Eg'. }
  destruct Hcov as [Hnd Hdom].
  set (sorted := arraySort (fun a b : string * R => num_sub (snd b) (snd a))
                   (pageRanks g')).
  assert (Etop : top
                 = map (fun kv : string * R =>
                          {| top_id := fst kv;
                             top_pageRank := snd kv;
                             top_community :=
                               string_or (JsMap.get (fst kv) (communities g))
                                 (fst kv) |})
                     (firstn n sorted)).
  { unfold top, getTopNodes. cbn [snd].
    rewrite communities_ensurePageRank. reflexivity. }
  assert (Hperm : Permutation sorted (pageRanks g')) by apply arraySort_perm.
  assert (Hids : map (@top_id R) top = firstn n (map fst sorted)).
  { rewrite Etop, map_map. cbn [top_id]. now rewrite firstn_map. }
  assert (Hndsorted : NoDup (map fst sorted)).
  { apply Permutation_NoDup with (JsMap.keys (pageRanks g')); [|assumption].
    symmetry. now apply Permutation_map. }
  assert (Hin : forall kv, In kv (firstn n sorted) ->
                           JsMap.get (fst kv) (pageRanks g') = Some (snd kv)).
  { intros [k v] Hkv. apply get_of_In; [assumption|].
    apply (Permutation_in _ Hperm).
    rewrite <- (firstn_skipn n sorted). apply in_or_app. now left. }
  split; [|split; [|split]].
  - rewrite Etop, length_map, length_firstn. f_equal.
    rewrite (Permutation_length Hperm), size_keys.
    rewrite <- (length_map fst (pageRanks g')).
    apply Permutation_length, NoDup_Permutation;
      [assumption | apply W | exact Hdom].
  - rewrite Hids. rewrite <- (firstn_skipn n (map fst sorted)) in Hndsorted.
    now apply NoDup_app_remove_r in Hndsorted.
  - intros t Ht. rewrite Etop in Ht. apply in_map_iff in Ht.
    destruct Ht as [kv [<- Hkv]]. cbn [top_id top_pageRank top_community].
    split; [|split; [now apply Hin | reflexivity]].
    apply has_In, Hdom. apply get_Some_In with (snd kv). now apply Hin.
  - intros Hcomp.
    assert (Hdesc : descendingBy (@snd string R) sorted)
      by now apply arraySort_descending.
    rewrite <- (firstn_skipn n sorted) in Hdesc.
    apply descendingBy_app in Hdesc. destruct Hdesc as [Hfirst Hcross].
    split.
    + rewrite Etop. now apply descendingBy_map with (key := @snd string R).
    + intros t k rank Ht G Hout. rewrite Etop in Ht. apply in_map_iff in Ht.
      destruct Ht as [kv [<- Hkv]]. cbn [top_pageRank].
      apply (Hcross kv (k, rank)); [assumption|].
      apply In_of_get in G.
      apply (Permutation_in _ (Permutation_sym Hperm)) in G.
      rewrite <- (firstn_skipn n sorted) in G. apply in_app_or in G.
      destruct G as [G|G]; [|assumption].
      exfalso. apply Hout. rewrite Hids, firstn_map.
      apply in_map_iff. now exists (k, rank).
Qed.

End TopNodes.

(** The query at work in binary64, on the dangling scenario: the ranks
    compare as real numbers do, and the two best nodes are [B] and [C], in
    the order of the nodes, their ranks being the same double. *)
Lemma getTopNodes_returns_the_best_witness :
  comparableKeys (@snd string float)
    (pageRanks (fst (getTopNodes 2 (danglingABC (R := float)))))
  /\ descendingBy (@top_pageRank float)
       (snd (getTopNodes 2 (danglingABC (R := float))))
  /\ map (@top_id float) (snd (getTopNodes 2 (danglingABC (R := float))))
     = ["B"; "C"]%string.
Proof.
  unfold danglingABC.
  destruct (@getTopNodes_returns_the_best float _ None
              [OpAddNode (plainEntry "A"); OpAddNode (plainEntry "B");
               OpAddNode (plainEntry "C");
               OpAddEdge "A" "B" reference one;
               OpAddEdge "A" "C" reference one] 2)
    as [_ [_ [_ Hsort]]].
  cbv zeta in Hsort.
  set (g := exec _ (newGraph None)) in *.
  assert (Hranks : pageRanks (fst (getTopNodes 2 g))
                   = [("A"%string, 0x1.09f95519ce9adp-2%float);
                      ("B"%string, 0x1.7b03557318b27p-2%float);
                      ("C"%string, 0x1.7b03557318b27p-2%float)])
    by (vm_compute; reflexivity).
  assert (Hcomp : comparableKeys (@snd string float)
                    (pageRanks (fst (getTopNodes 2 g)))).
  { rewrite Hranks. split; [|split].
    - intros a b [<-|[<-|[<-|[]]]] [<-|[<-|[<-|[]]]]; vm_compute; reflexivity.
    - intros a b [<-|[<-|[<-|[]]]] [<-|[<-|[<-|[]]]]; vm_compute;
        intros E; first [discriminate E | reflexivity].
    - intros a b c [<-|[<-|[<-|[]]]] [<-|[<-|[<-|[]]]] [<-|[<-|[<-|[]]]];
        vm_compute; intros E1 E2;
        first [discriminate E1 | discriminate E2 | reflexivity]. }
  split; [exact Hcomp|].
  destruct (Hsort Hcomp) as [Hdesc _].
  split; [exact Hdesc|]. vm_compute. reflexivity.
Defined.

(** ** How far [getNeighbors] goes *)

Section NeighborBounds.
Variable R : Type.
Context `{JsNumber R}.
Implicit Types g : MemoryGraph R.
Import JsMapFacts.

Lemma In_getNeighbors g id depth x :
  In x (getNeighbors id depth g) <-> x <> id /\ within g id depth x.
Proof. unfold getNeighbors. apply (neighborsLoop_spec depth (level_start g id)). Qed.

Lemma NoDup_getNeighbors g id depth : NoDup (getNeighbors id depth g).
Proof. unfold getNeighbors. apply NoDup_neighborsLoop. constructor. Qed.

Lemma getNeighbors_mono g id d d' x :
  d <= d' -> In x (getNeighbors id d g) -> In x (getNeighbors id d' g).
Proof.
  intros Hle. rewrite !In_getNeighbors. intros [Hx Hw].
  split; [assumption | now apply within_le with d].
Qed.

Lemma getNeighbors_nodes g id depth x :
  wf g -> In x (getNeighbors id depth g) ->
  In x (JsMap.keys (nodes g)) /\ x <> id.
Proof.
  intros W Hin. apply In_getNeighbors in Hin. destruct Hin as [Hx [n [Hn Hh]]].
  split; [|assumption].
  destruct Hh as [|n' mid target _ He]; [lia|].
  now apply (wf_targets_nodes W) with mid.
Qed.

Lemma getNeighbors_no_node g id depth :
  wf g -> ~ In id (JsMap.keys (nodes g)) -> getNeighbors id depth g = [].
Proof.
  intros W Hn. apply getNeighbors_none. apply get_None_In.
  now rewrite (wf_edges_dom W).
Qed.

Lemma getNeighbors_size g id depth :
  wf g -> In id (JsMap.keys (nodes g)) ->
  S (JsSet.size (getNeighbors id depth g)) <= JsMap.size (nodes g).
Proof.
  intros W Hid. rewrite size_keys. unfold JsSet.size.
  change (S (length (getNeighbors id depth g)))
    with (length (id :: getNeighbors id depth g)).
  apply NoDup_incl_length.
  - constructor; [|apply NoDup_getNeighbors].
    intros Hin. now destruct (@getNeighbors_nodes g id depth id W Hin).
  - intros x [<-|Hx]; [assumption|].
    now destruct (@getNeighbors_nodes g id depth x W Hx).
Qed.

(** A level that visits nothing new; none does after it. *)
Lemma getNeighbors_stable_next g id d :
  (forall x, In x (getNeighbors id (S d) g) -> In x (getNeighbors id d g)) ->
  forall x, In x (getNeighbors id (S (S d)) g) ->
            In x (getNeighbors id (S d) g).
Proof.
  intros Hst x. rewrite !In_getNeighbors. intros [Hx [n [Hn Hh]]].
  split; [assumption|].
  destruct (Nat.le_gt_cases n (S d)) as [Hle|Hgt].
  { exists n. split; [lia | assumption]. }
  destruct Hh as [|n' mid target Hmid He]; [lia|].
  destruct (string_dec mid id) as [->|Hne].
  - exists 1. split; [lia|]. apply hops_S with id; [constructor | assumption].
  - assert (Hin : In mid (getNeighbors id d g)).
    { apply Hst, In_getNeighbors. split; [assumption|].
      exists n'. split; [lia | assumption]. }
    apply In_getNeighbors in Hin. destruct Hin as [_ Hw].
    now apply within_edge with mid.
Qed.

Lemma getNeighbors_stable_forever g id d k :
  (forall x, In x (getNeighbors id (S d) g) -> In x (getNeighbors id d g)) ->
  forall x, In x (getNeighbors id (k + d) g) -> In x (getNeighbors id d g).
Proof.
  intros Hst. induction k as [|k IH]; intros x; [auto|].
  intros Hx. apply IH. clear IH.
  assert (Hgen : forall j,
    forall y, In y (getNeighbors id (S (j + d)) g) ->
              In y (getNeighbors id (j + d) g)).
  { induction j as [|j IHj]; [exact Hst|].
    now apply getNeighbors_stable_next. }
  now apply Hgen.
Qed.

Lemma getNeighbors_growth g id d :
  (exists d', d' < d
     /\ forall x, In x (getNeighbors id (S d') g) ->
                  In x (getNeighbors id d' g))
  \/ d <= JsSet.size (getNeighbors id d g).
Proof.
  induction d as [|d IH]; [right; lia|].
  destruct IH as [[d' [Hd' Hst]]|Hlen].
  { left. exists d'. split; [lia | assumption]. }
  destruct (Nat.le_gt_cases (JsSet.size (getNeighbors id (S d) g))
              (JsSet.size (getNeighbors id d g))) as [Hle|Hgt].
  - left. exists d. split; [lia|].
    apply (@NoDup_length_incl _ _ _ (NoDup_getNeighbors g id d) Hle).
    intros x. apply getNeighbors_mono. lia.
  - right. lia.
Qed.

(** X18: on a well-formed graph [getNeighbors] answers with nodes other
    than [id], so with fewer than there are nodes; a larger depth only adds
    to the answer; and from a depth of the node count less one on, the
    answer is everything that can be reached from [id] at all. *)
Theorem getNeighbors_saturates :
  forall g id depth,
    wf g ->
    (forall x, In x (getNeighbors id depth g) ->
               JsMap.has x (nodes g) = true /\ x <> id)
    /\ JsSet.size (getNeighbors id depth g) <= JsMap.size (nodes g) - 1
    /\ (forall depth' x, depth <= depth' ->
          In x (getNeighbors id depth g) -> In x (getNeighbors id depth' g))
    /\ (JsMap.size (nodes g) <= S depth ->
        forall x, In x (getNeighbors id depth g) <->
                  x <> id /\ exists n, hops g id n x).
Proof.
  intros g id depth W.
  split; [|split; [|split]].
  - intros x Hx. destruct (@getNeighbors_nodes g id depth x W Hx).
    now rewrite has_In.
  - destruct (in_dec string_dec id (JsMap.keys (nodes g))) as [Hid|Hid].
    + pose proof (@getNeighbors_size g id depth W Hid). lia.
    + rewrite (@getNeighbors_no_node g id depth W Hid). simpl. lia.
  - intros depth' x Hle. now apply getNeighbors_mono.
  - intros Hdeep x. split.
    { rewrite In_getNeighbors. intros [Hx [n [_ Hh]]]. split; [assumption|].
      now exists n. }
    intros [Hx [n Hh]].
    assert (Hn : In x (getNeighbors id n g)).
    { apply In_getNeighbors. split; [assumption|]. exists n.
      split; [|assumption]. destruct Hh; [contradiction | lia]. }
    destruct (in_dec string_dec id (JsMap.keys (nodes g))) as [Hid|Hid].
    2: { rewrite (@getNeighbors_no_node g id n W Hid) in Hn. destruct Hn. }
    destruct (getNeighbors_growth g id (JsMap.size (nodes g)))
      as [[d' [Hd' Hst]]|Hlen].
    2: { pose proof (@getNeighbors_size g id (JsMap.size (nodes g)) W Hid).
         lia. }
    apply getNeighbors_mono with d'; [lia|].
    apply (@getNeighbors_stable_forever g id d' n Hst).
    apply getNeighbors_mono with n; [lia | assumption].
Qed.

End NeighborBounds.

(** On the chain [A -> B -> C -> D] of four nodes, depth 3 reaches all that
    [A] leads to. *)
Lemma getNeighbors_saturates_witness :
  wf (chainABCD (R := float))
  /\ forall x, In x (getNeighbors "A" 3 (chainABCD (R := float))) ->
               JsMap.has x (nodes (chainABCD (R := float))) = true
               /\ x <> "A"%string.
Proof.
  assert (W : wf (chainABCD (R := float))) by apply wf_reachable.
  split; [exact W|].
  destruct (@getNeighbors_saturates float chainABCD "A"%string 3 W)
    as [Hin _].
  exact Hin.
Defined.

(** ** Statistics *)

Lemma list_sum_perm (l l' : list nat) :
  Permutation l l' -> list_sum l = list_sum l'.
Proof.
  induction 1 as [|x l l' _ IH|x y l|l l' l'' _ IH1 _ IH2]; simpl; lia.
Qed.

Lemma list_sum_map_ext {A : Type} (f f' : A -> nat) (l : list A) :
  (forall x, In x l -> f x = f' x) ->
  list_sum (map f l) = list_sum (map f' l).
Proof.
  induction l as [|x l IH]; intros Hext; simpl; [reflexivity|].
  rewrite (Hext x) by now left. rewrite IH; [reflexivity|].
  intros y Hy. apply Hext. now right.
Qed.

Lemma list_sum_map_zero {A : Type} (l : list A) :
  list_sum (map (fun _ => 0) l) = 0.
Proof. induction l as [|x l IH]; simpl; [reflexivity | exact IH]. Qed.

Lemma list_sum_map_plus {A : Type} (f f' : A -> nat) (l : list A) :
  list_sum (map (fun x => f x + f' x) l)
  = list_sum (map f l) + list_sum (map f' l).
Proof. induction l as [|x l IH]; simpl; [reflexivity | rewrite IH; lia]. Qed.

Lemma list_sum_exchange {A B : Type} (F : A -> B -> nat) (l : list A)
  (m : list B) :
  list_sum (map (fun x => list_sum (map (F x) m)) l)
  = list_sum (map (fun y => list_sum (map (fun x => F x y) l)) m).
Proof.
  induction l as [|x l IH]; simpl.
  - now rewrite list_sum_map_zero.
  - rewrite IH. symmetry. apply list_sum_map_plus.
Qed.

Lemma length_filter_sum {A : Type} (p : A -> bool) (l : list A) :
  length (filter p l) = list_sum (map (fun x => if p x then 1 else 0) l).
Proof.
  induction l as [|x l IH]; simpl; [reflexivity|].
  destruct (p x); simpl; now rewrite IH.
Qed.

(** A duplicate-free list inside another is as long as the part of the
    other it covers. *)
Lemma length_within (l m : list string) :
  NoDup l -> NoDup m -> (forall x, In x l -> In x m) ->
  length l = length (filter (fun y => JsSet.has y l) m).
Proof.
  intros Hl Hm Hsub. apply Permutation_length.
  apply NoDup_Permutation; [assumption | now apply NoDup_filter|].
  intros x. rewrite filter_In, JsSetFacts.mem_In. split; [auto | tauto].
Qed.

Lemma length_filter_prod {A B : Type} (p : A * B -> bool) (l : list A)
  (m : list B) :
  length (filter p (list_prod l m))
  = list_sum (map (fun x => length (filter (fun y => p (x, y)) m)) l).
Proof.
  induction l as [|x l IH]; simpl; [reflexivity|].
  rewrite filter_app, length_app, IH. f_equal.
  clear IH. induction m as [|y m IHm]; simpl; [reflexivity|].
  destruct (p (x, y)); simpl; now rewrite IHm.
Qed.

Lemma fold_lengths {B : Type} (size : B -> nat) (vs : list B) (acc : nat) :
  fold_left (fun total v => total + size v) vs acc
  = acc + list_sum (map size vs).
Proof.
  revert acc. induction vs as [|v vs IH]; intros acc; simpl; [lia|].
  rewrite IH. lia.
Qed.

(** The sizes of the values of a map, summed along its keys. *)
Lemma sum_values_keys {V : Type} (size : V -> nat) (dflt : V) (m : JsMap.t V) :
  NoDup (JsMap.keys m) ->
  list_sum (map size (JsMap.values m))
  = list_sum (map (fun k => size (spread dflt (JsMap.get k m))) (JsMap.keys m)).
Proof.
  unfold JsMap.values, JsMap.keys.
  induction m as [|[k v] m IH]; simpl; [reflexivity|].
  intros Hnd. apply NoDup_cons_iff in Hnd. destruct Hnd as [Hk Hnd].
  rewrite String.eqb_refl. simpl. f_equal. rewrite IH by assumption.
  apply list_sum_map_ext. intros k' Hk'.
  string_cases k k'.
Qed.

Lemma sum_values_set {V : Type} (size : V -> nat) (dflt : V) k v
  (m : JsMap.t V) :
  size dflt = 0 ->
  list_sum (map size (JsMap.values (JsMap.set k v m)))
  + size (spread dflt (JsMap.get k m))
  = list_sum (map size (JsMap.values m)) + size v.
Proof.
  intros Hd. unfold JsMap.values.
  induction m as [|[k0 v0] m IH]; simpl; [lia|].
  string_cases k0 k; simpl; lia.
Qed.

Section StatisticsFacts.
Variable R : Type.
Context `{JsNumber R} `{JsInfinity R}.
Implicit Types g : MemoryGraph R.
Import JsMapFacts.

Lemma totalEdges_sum g :
  totalEdges g = list_sum (map (@length _) (JsMap.values (edges g))).
Proof. unfold totalEdges. now rewrite fold_lengths. Qed.

Lemma totalSources_sum g :
  totalSources g = list_sum (map JsSet.size (JsMap.values (reverseEdges g))).
Proof. unfold totalSources. now rewrite fold_lengths. Qed.

Lemma outTargets_once g s : wf g -> NoDup (outTargets g s).
Proof.
  intros W. unfold outTargets, outEdges.
  destruct (JsMap.get s (edges g)) as [l|] eqn:G; simpl; [|constructor].
  now apply (wf_targets_nodup W) with s.
Qed.

Lemma inSources_once g t : wf g -> NoDup (inSources g t).
Proof.
  intros W. unfold inSources.
  destruct (JsMap.get t (reverseEdges g)) as [l|] eqn:G; simpl; [|constructor].
  now apply (wf_sources_nodup W) with t.
Qed.

Lemma has_outTargets g s t : JsSet.has t (outTargets g s) = hasEdge s t g.
Proof.
  apply Bool.eq_iff_eq_true.
  rewrite JsSetFacts.mem_In, hasEdge_edgeTo. symmetry. apply edgeTo_outEdges.
Qed.

Lemma has_inSources g s t : wf g -> JsSet.has s (inSources g t) = hasEdge s t g.
Proof.
  intros W. apply Bool.eq_iff_eq_true.
  rewrite JsSetFacts.mem_In, inSources_inReverse, hasEdge_edgeTo.
  apply (wf_reverse_index W).
Qed.

Lemma totalEdges_pairs g :
  wf g ->
  totalEdges g
  = list_sum
      (map (fun s =>
              list_sum
                (map (fun t => if hasEdge s t g then 1 else 0)
                   (JsMap.keys (nodes g))))
         (JsMap.keys (nodes g))).
Proof.
  intros W. rewrite totalEdges_sum.
  rewrite (sum_values_keys (@length _) [] (edges g)) by apply W.
  rewrite (list_sum_perm
             (Permutation_map _
                (NoDup_Permutation (wf_edges_nodup W) (wf_nodes_nodup W)
                   (wf_edges_dom W)))).
  apply list_sum_map_ext. intros s Hs.
  fold (outEdges g s). rewrite <- (length_map (@edge_targetId R)).
  fold (targets (outEdges g s)). fold (outTargets g s).
  rewrite (@length_within (outTargets g s) (JsMap.keys (nodes g))).
  - rewrite length_filter_sum. apply list_sum_map_ext. intros t _.
    now rewrite has_outTargets.
  - now apply outTargets_once.
  - apply W.
  - intros t Ht. apply (wf_targets_nodes W) with s.
    now apply edgeTo_outEdges.
Qed.

Lemma totalSources_pairs g :
  wf g ->
  totalSources g
  = list_sum
      (map (fun t =>
              list_sum
                (map (fun s => if hasEdge s t g then 1 else 0)
                   (JsMap.keys (nodes g))))
         (JsMap.keys (nodes g))).
Proof.
  intros W. rewrite totalSources_sum.
  rewrite (sum_values_keys JsSet.size JsSet.empty (reverseEdges g)) by apply W.
  rewrite (list_sum_perm
             (Permutation_map _
                (NoDup_Permutation (wf_reverse_nodup W) (wf_nodes_nodup W)
                   (wf_reverse_dom W)))).
  apply list_sum_map_ext. intros t Ht.
  fold (inSources g t). unfold JsSet.size.
  rewrite (@length_within (inSources g t) (JsMap.keys (nodes g))).
  - rewrite length_filter_sum. apply list_sum_map_ext. intros s _.
    now rewrite has_inSources.
  - now apply inSources_once.
  - apply W.
  - intros s Hs. apply inSources_inReverse, (wf_reverse_index W) in Hs.
    destruct Hs as [l [G _]]. apply (wf_edges_dom W).
    now apply get_Some_In with l.
Qed.

(** X19: on a well-formed graph the [edgeCount] of [getStats] is the number
    of ordered pairs of nodes that [hasEdge] finds joined, which is also the
    number of entries of the reverse index; it is at most the square of the
    node count. *)
Theorem getStats_counts_joined_pairs :
  forall g,
    wf g ->
    stats_edgeCount (getStats g) = length (joinedPairs g)
    /\ stats_edgeCount (getStats g) = totalSources g
    /\ stats_edgeCount (getStats g)
       <= stats_nodeCount (getStats g) * stats_nodeCount (getStats g).
Proof.
  intros g W. cbn [getStats stats_edgeCount stats_nodeCount].
  assert (Hpairs : totalEdges g = length (joinedPairs g)).
  { rewrite (totalEdges_pairs W). unfold joinedPairs.
    rewrite length_filter_prod. apply list_sum_map_ext. intros s _.
    now rewrite length_filter_sum. }
  split; [exact Hpairs|]. split.
  - rewrite (totalEdges_pairs W), (totalSources_pairs W).
    apply list_sum_exchange.
  - rewrite Hpairs. unfold joinedPairs.
    eapply Nat.le_trans; [apply filter_length_le|].
    now rewrite length_prod, <- size_keys.
Qed.

(** X20: how the counts of [getStats] move.  [addEdge] raises [edgeCount]
    by one when both end points are nodes that were not joined and leaves
    it alone otherwise; [addNode] raises [nodeCount] by one when the entry
    is new and there is room, and never changes [edgeCount]. *)
Theorem getStats_after_additions :
  forall g s t ty w (entry : MemoryEntry R),
    stats_edgeCount (getStats (addEdge s t ty w g))
    = stats_edgeCount (getStats g)
      + (if skips s t g || hasEdge s t g then 0 else 1)
    /\ stats_nodeCount (getStats (addEdge s t ty w g))
       = stats_nodeCount (getStats g)
    /\ stats_nodeCount (getStats (addNode entry g))
       = stats_nodeCount (getStats g)
         + (if rejects entry g || JsMap.has (entry_id entry) (nodes g)
            then 0 else 1)
    /\ stats_edgeCount (getStats (addNode entry g))
       = stats_edgeCount (getStats g).
Proof.
  intros g s t ty w entry. cbn [getStats stats_edgeCount stats_nodeCount].
  split; [|split; [|split]].
  - destruct (skips s t g) eqn:C; cbn [orb].
    { rewrite addEdge_skipped by assumption. lia. }
    rewrite addEdge_accepted by assumption. rewrite !totalEdges_sum.
    cbn [edges].
    pose proof (sum_values_set (@length (GraphEdge R)) [] s
                  (upsertEdge t ty w (spread [] (JsMap.get s (edges g))))
                  (edges g) eq_refl) as Hsum.
    rewrite length_upsertEdge in Hsum. fold (outEdges g s) in Hsum.
    rewrite <- hasEdge_outEdges in Hsum. fold (outEdges g s).
    destruct (hasEdge s t g); lia.
  - now rewrite nodes_addEdge.
  - destruct (rejects entry g) eqn:C; cbn [orb].
    { rewrite addNode_rejected by assumption. lia. }
    rewrite addNode_accepted by assumption. cbn [nodes].
    rewrite size_set. destruct (JsMap.has _ _); lia.
  - destruct (rejects entry g) eqn:C.
    { now rewrite addNode_rejected. }
    rewrite addNode_accepted by assumption. rewrite !totalEdges_sum.
    cbn [edges]. destruct (JsMap.has (entry_id entry) (edges g)) eqn:E;
      [reflexivity|].
    pose proof (sum_values_set (@length (GraphEdge R)) [] (entry_id entry) []
                  (edges g) eq_refl) as Hsum.
    unfold JsMap.has in E.
    destruct (JsMap.get (entry_id entry) (edges g)); [discriminate|].
    simpl in Hsum. lia.
Qed.

Lemma labels_once_step op g :
  wf g -> NoDup (JsMap.keys (communities g)) ->
  NoDup (JsMap.keys (communities (step op g))).
Proof.
  intros W L. destruct op; simpl.
  - now rewrite communities_addNode.
  - now replace (communities (addEdge sourceId targetId type weight g))
      with (communities g) by (symmetry; apply sameButEdges_addEdge).
  - unfold removeNode. destruct (negb _); [assumption|].
    cbn [communities]. now apply NoDup_keys_delete.
  - unfold buildFromBackend.
    destruct (backend_query _ _ _) as [entries|why]; simpl; [|assumption].
    destruct (sameButEdges_addReferenceEdges entries (addNodes entries g))
      as [_ [_ [Ec _]]].
    now rewrite Ec, communities_addNodes.
  - now replace (communities (fst (addSimilarityEdges backend entryId g)))
      with (communities g)
      by (symmetry; apply sameButEdges_addSimilarityEdges).
  - now rewrite communities_computePageRank.
  - assert (HL : labelled g (snd (detectCommunities draws g))).
    { apply labelled_propagateLabels, labelled_initial, W. }
    destruct HL as [Hkeys _].
    change (NoDup (JsMap.keys (snd (detectCommunities draws g)))).
    rewrite Hkeys. apply W.
  - replace (communities (ensurePageRank g)) with (communities g);
      [assumption|].
    unfold ensurePageRank. destruct (dirty g); [|reflexivity].
    symmetry. apply communities_computePageRank.
  - replace (communities (ensurePageRank g)) with (communities g);
      [assumption|].
    unfold ensurePageRank. destruct (dirty g); [|reflexivity].
    symmetry. apply communities_computePageRank.
Qed.

Lemma labels_once_reachable cfg ops :
  NoDup (JsMap.keys (communities (exec ops (newGraph (R := R) cfg)))).
Proof.
  assert (Hgen : forall g, wf g -> NoDup (JsMap.keys (communities g)) ->
                           NoDup (JsMap.keys (communities (exec ops g)))).
  { unfold exec. induction ops as [|op ops IH]; intros g W L; simpl;
      [assumption|].
    apply IH; [now apply wf_step | now apply labels_once_step]. }
  apply Hgen; [apply wf_newGraph | constructor].
Qed.

(** X21: in every reachable state the [communityCount] of [getStats] is at
    most its [nodeCount], and right after [detectCommunities] it is the
    count the [communities:detected] event carried. *)
Theorem getStats_counts_communities :
  forall (cfg : option (MemoryGraphConfig R)) (ops : list (Op R)) draws,
    let g := exec ops (newGraph cfg) in
    let g' := fst (detectCommunities draws g) in
    stats_communityCount (getStats g) <= stats_nodeCount (getStats g)
    /\ emitted g'
       = emitted g
         ++ [communities_detected (stats_communityCount (getStats g'))]
    /\ stats_nodeCount (getStats g') = stats_nodeCount (getStats g)
    /\ stats_edgeCount (getStats g') = stats_edgeCount (getStats g).
Proof.
  intros cfg ops draws g g'.
  split; [|repeat split].
  cbn [getStats stats_communityCount stats_nodeCount].
  destruct (reachable_invariants cfg ops) as [L _]. fold g in L.
  pose proof (labels_once_reachable cfg ops) as Hnd. fold g in Hnd.
  destruct (distinct_fold_bounds (JsMap.values (communities g)) JsSet.empty)
    as [_ [Hhi _]].
  unfold distinctCount. eapply Nat.le_trans; [exact Hhi|].
  change (JsSet.size JsSet.empty) with 0. cbn [Nat.add].
  unfold JsMap.values. rewrite length_map.
  rewrite <- (length_map fst (communities g)). rewrite size_keys.
  now apply NoDup_incl_length.
Qed.

End StatisticsFacts.

(** The chain [A -> B -> C -> D] has three edges (binary64 arithmetic). *)
Lemma getStats_counts_joined_pairs_witness :
  wf (chainABCD (R := float))
  /\ stats_edgeCount (getStats (chainABCD (R := float))) = 3.
Proof.
  assert (W : wf (chainABCD (R := float))) by apply wf_reachable.
  split; [exact W|].
  destruct (@getStats_counts_joined_pairs float _ _ chainABCD W) as [Hc _].
  rewrite Hc. reflexivity.
Defined.

(** ** Communities and components *)

Section ComponentFacts.
Variable R : Type.
Context `{JsNumber R}.
Implicit Types g : MemoryGraph R.
Import JsMapFacts.

Lemma connected_trans g a b c :
  connected g a b -> connected g b c -> connected g a c.
Proof.
  intros Hab Hbc. induction Hbc as [|c c' _ IH He]; [assumption|].
  now apply connected_step with c.
Qed.

Lemma connected_first g a b c :
  edgeTo g a b \/ edgeTo g b a -> connected g b c -> connected g a c.
Proof.
  intros He. apply connected_trans.
  apply connected_step with a; [constructor | assumption].
Qed.

Lemma connected_isolated g a b :
  (forall c, ~ edgeTo g a c /\ ~ edgeTo g c a) -> connected g a b -> b = a.
Proof.
  intros Hiso Hc. induction Hc as [|b c _ IH He]; [reflexivity|].
  subst b. destruct (Hiso c) as [Hout Hin]. tauto.
Qed.

Lemma countLabel_fold_keys {A : Type} (key : A -> string) (amount : A -> R)
  (labels : JsMap.t string) (xs : list A) (counts : JsMap.t R) l :
  In l (JsMap.keys
          (fold_left
             (fun counts x =>
                countLabel (JsMap.get (key x) labels) (amount x) counts)
             xs counts)) ->
  In l (JsMap.keys counts)
  \/ exists x, In x xs /\ JsMap.get (key x) labels = Some l.
Proof.
  revert counts. induction xs as [|x xs IH]; intros counts; simpl; [auto|].
  intros Hl. apply IH in Hl. destruct Hl as [Hl|[x' [Hx' G]]].
  - unfold countLabel in Hl.
    destruct (JsMap.get (key x) labels) as [l'|] eqn:G; [|auto].
    apply In_keys_set in Hl. destruct Hl as [->|Hl]; [|auto].
    right. exists x. split; [now left | assumption].
  - right. exists x'. split; [now right | assumption].
Qed.

Lemma labelCountsOf_origin g labels nodeId l :
  wf g ->
  In l (JsMap.keys (labelCountsOf g labels nodeId)) ->
  exists neighbor,
    (edgeTo g nodeId neighbor \/ edgeTo g neighbor nodeId)
    /\ JsMap.get neighbor labels = Some l.
Proof.
  intros W. unfold labelCountsOf.
  assert (Hout : In l (JsMap.keys
                         (fold_left
                            (fun counts edge =>
                               countLabel
                                 (JsMap.get (edge_targetId edge) labels)
                                 (edge_weight edge) counts)
                            (spread [] (JsMap.get nodeId (edges g)))
                            JsMap.empty)) ->
                 exists neighbor,
                   (edgeTo g nodeId neighbor \/ edgeTo g neighbor nodeId)
                   /\ JsMap.get neighbor labels = Some l).
  { intros Hl.
    apply (countLabel_fold_keys (@edge_targetId R) (@edge_weight R)) in Hl.
    destruct Hl as [[]|[e [He G]]]. exists (edge_targetId e).
    split; [|assumption]. left. apply edgeTo_outEdges.
    unfold outEdges, targets. now apply in_map. }
  destruct (JsMap.get nodeId (reverseEdges g)) as [incoming|] eqn:Gr;
    [|exact Hout].
  intros Hl.
  apply (countLabel_fold_keys (fun sourceId : string => sourceId)
           (fun _ => one)) in Hl.
  destruct Hl as [Hl|[sourceId [Hs G]]]; [now apply Hout|].
  exists sourceId. split; [|assumption]. right.
  apply (wf_reverse_index W). now exists incoming.
Qed.

(** Every label names a node of the component of the node that bears it. *)
Lemma component_relabel g st nodeId :
  wf g ->
  (forall k l, JsMap.get k (fst st) = Some l -> connected g k l) ->
  forall k l, JsMap.get k (fst (relabel g st nodeId)) = Some l ->
              connected g k l.
Proof.
  intros W Hc. unfold relabel.
  destruct (0 <? JsMap.size (labelCountsOf g (fst st) nodeId)); [|assumption].
  destruct (bestLabel _ _) as [maxLabel|] eqn:B; [|assumption].
  destruct (option_string_eqb _ _); [assumption|].
  simpl. intros k l. rewrite get_set.
  destruct (String.eqb_spec nodeId k) as [<-|Hne]; [|apply Hc].
  intros [= <-]. apply bestLabel_origin in B. destruct B as [B|B].
  - now apply Hc.
  - destruct (@labelCountsOf_origin g (fst st) nodeId maxLabel W B)
      as [neighbor [He G]].
    apply connected_first with neighbor; [assumption | now apply Hc].
Qed.

Lemma component_propagateLabels g fuel draws labels :
  wf g ->
  (forall k l, JsMap.get k labels = Some l -> connected g k l) ->
  forall k l, JsMap.get k (propagateLabels g fuel draws labels) = Some l ->
              connected g k l.
Proof.
  intros W. revert draws labels.
  induction fuel as [|fuel IH]; intros draws labels Hc; simpl; [assumption|].
  destruct (shuffleArray (JsMap.keys (nodes g)) draws) as [nodeIds draws'].
  assert (Hsweep : forall st,
    (forall k l, JsMap.get k (fst st) = Some l -> connected g k l) ->
    forall k l, JsMap.get k (fst (fold_left (relabel g) nodeIds st)) = Some l ->
                connected g k l).
  { induction nodeIds as [|n nodeIds IHn]; intros st Hst; simpl; [assumption|].
    apply IHn. now apply component_relabel. }
  specialize (Hsweep (labels, false) Hc).
  destruct (fold_left (relabel g) nodeIds (labels, false))
    as [labels' changed].
  destruct changed; [now apply IH | assumption].
Qed.

Lemma distinctCount_NoDup (l : list string) :
  NoDup l -> distinctCount l = length l.
Proof.
  intros Hnd. unfold distinctCount.
  assert (Hgen : forall s, NoDup (s ++ l) ->
                 fold_left (fun s x => JsSet.add x s) l s = s ++ l).
  { clear Hnd. induction l as [|x l IH]; intros s Hnd; simpl.
    - now rewrite app_nil_r.
    - assert (Hx : JsSet.has x s = false).
      { apply JsSetFacts.mem_false_In. intros Hin.
        apply NoDup_remove_2 in Hnd. apply Hnd, in_or_app. now left. }
      unfold JsSet.add at 2. rewrite Hx. rewrite IH.
      + now rewrite <- app_assoc.
      + now rewrite <- app_assoc. }
  now rewrite (Hgen JsSet.empty Hnd).
Qed.

Lemma values_own_keys (labels : JsMap.t string) :
  NoDup (JsMap.keys labels) ->
  (forall k, In k (JsMap.keys labels) -> JsMap.get k labels = Some k) ->
  JsMap.values labels = JsMap.keys labels.
Proof.
  unfold JsMap.values, JsMap.keys.
  induction labels as [|[k v] labels IH]; simpl; [reflexivity|].
  intros Hnd Hown. apply NoDup_cons_iff in Hnd. destruct Hnd as [Hk Hnd].
  pose proof (Hown k (or_introl eq_refl)) as Ek.
  rewrite String.eqb_refl in Ek. injection Ek as ->.
  f_equal. apply IH; [assumption|].
  intros k' Hk'. specialize (Hown k' (or_intror Hk')).
  destruct (String.eqb k k') eqn:E; [|assumption].
  apply String.eqb_eq in E. subst k'. contradiction.
Qed.

(** X22: label propagation keeps to the components of a well-formed graph.
    The label [detectCommunities] gives a node names a node that a path
    joins to it, along edges taken in either direction; so a node without
    edges is its own community, and a graph without edges has as many
    communities as nodes. *)
Theorem detectCommunities_keeps_to_components :
  forall g (draws : list nat),
    wf g ->
    let labels := snd (detectCommunities draws g) in
    (forall k l, JsMap.get k labels = Some l -> connected g k l)
    /\ (forall k,
          JsMap.has k (nodes g) = true ->
          (forall c, ~ edgeTo g k c /\ ~ edgeTo g c k) ->
          JsMap.get k labels = Some k)
    /\ ((forall s t, ~ edgeTo g s t) ->
        emitted (fst (detectCommunities draws g))
        = emitted g ++ [communities_detected (JsMap.size (nodes g))]).
Proof.
  intros g draws W labels.
  assert (Hc : forall k l, JsMap.get k labels = Some l -> connected g k l).
  { apply component_propagateLabels; [assumption|].
    intros k l. rewrite (get_fold_set (fun k => k)).
    destruct (existsb _ _); [|discriminate]. intros [= <-]. constructor. }
  assert (HL : labelled g labels).
  { apply labelled_propagateLabels, labelled_initial, W. }
  destruct HL as [Hkeys _].
  assert (Hiso : forall k,
            JsMap.has k (nodes g) = true ->
            (forall c, ~ edgeTo g k c /\ ~ edgeTo g c k) ->
            JsMap.get k labels = Some k).
  { intros k Hk Hno. apply has_In in Hk. rewrite <- Hkeys in Hk.
    apply In_get in Hk. destruct Hk as [l G]. rewrite G. f_equal.
    now apply (@connected_isolated g k l Hno), Hc. }
  split; [exact Hc|]. split; [exact Hiso|].
  intros Hnone. unfold detectCommunities. cbn [fst emit emitted].
  do 3 f_equal.
  change (distinctCount (JsMap.values labels) = JsMap.size (nodes g)).
  rewrite values_own_keys.
  - rewrite distinctCount_NoDup; rewrite Hkeys; [now rewrite size_keys | apply W].
  - rewrite Hkeys. apply W.
  - intros k Hk. apply Hiso.
    + apply has_In. now rewrite <- Hkeys.
    + intros c. split; apply Hnone.
Qed.

End ComponentFacts.

(** Two nodes and no edge: each is its own community (binary64
    arithmetic). *)
Lemma detectCommunities_keeps_to_components_witness :
  wf (exec [OpAddNode (plainEntry "U"); OpAddNode (plainEntry "V")]
        (newGraph (R := float) None))
  /\ JsMap.get "U"
       (snd (detectCommunities [1; 0]
               (exec [OpAddNode (plainEntry "U"); OpAddNode (plainEntry "V")]
                  (newGraph (R := float) None))))
     = Some "U"%string.
Proof.
  pose (g := exec [OpAddNode (plainEntry "U"); OpAddNode (plainEntry "V")]
               (newGraph (R := float) None)).
  assert (W : wf g) by apply wf_reachable.
  split; [exact W|].
  destruct (@detectCommunities_keeps_to_components float _ g [1; 0] W)
    as [_ [Hiso _]].
  apply Hiso; [reflexivity|].
  intros c.
  assert (Hempty : forall s l, JsMap.get s (edges g) = Some l -> l = []).
  { intros s l G. apply In_of_get in G.
    destruct G as [[= _ <-]|[[= _ <-]|[]]]; reflexivity. }
  split; intros [l [G Hin]]; rewrite (Hempty _ _ G) in Hin; destruct Hin.
Defined.
